(** * The block validator of [validator/block_validator.go]

    A shallow embedding of the validator's queue, dispatcher, validation task,
    progress tracker, constructor and base-machine cache, with the properties
    they are expected to have.

    Conventions.
    - [uint64] values are [Z] in [0, 2^64); every [+ 1] of the source is
      written with its wrap-around ([add64]).  [int32] likewise ([add32]).
    - [common.Hash] is 32 bytes, read as a 256-bit number.
    - The two [sync.Map]s are [gmap]s; the entry table holds pointers, so the
      entries live in a heap ([list validationEntry], a pointer is an index)
      and a task mutates the entry it shares with the table.
    - A goroutine body is a computation in the monad [M]: it threads the
      [World] and ends by falling off its end, [return], [runtime.Goexit] or
      [panic].  Log lines, channel sends, frees and spawned goroutines are
      recorded, in order, in the world's event list.
    - The arbitrator machine, the inbox tracker, the operating system and the
      sort routine are not part of the file: they are interfaces (classes). *)

From stdpp Require Import gmap strings list fin_maps pretty sorting.
From Stdlib Require Import Strings.Byte Strings.Ascii.

Local Open Scope Z_scope.

(** ** Machine integers *)

Definition wrap64 (z : Z) : Z := z mod 2 ^ 64.
Definition add64 (a b : Z) : Z := wrap64 (a + b).
Definition max_uint64 : Z := 2 ^ 64 - 1.

(** Go's conversion [int32(x)] and [atomic.AddInt32]: two's complement. *)
Definition to_int32 (z : Z) : Z := (z + 2 ^ 31) mod 2 ^ 32 - 2 ^ 31.
Definition add32 (a b : Z) : Z := to_int32 (a + b).

(** ** Data *)

(** [common.Hash]. *)
Definition Hash := Z.

(** [C.CByteArray]: an owned native buffer. *)
Definition CByteArray := list byte.

(** [C.CMultipleByteArrays]: the packed preimages handed to a machine. *)
Definition CMultipleByteArrays := list (list byte).

(** [types.Header], the fields the validator reads, and the value of its
    [Hash()] method (a function of the whole header, computed by go-ethereum). *)
Record Header := {
  Number : Z;          (* a big.Int *)
  ParentHash : Hash;
  Nonce : Z;           (* types.BlockNonce, 8 bytes *)
  HeaderHash : Hash    (* what header.Hash() returns *)
}.

Record PosInSequencer := {
  Pos : Z;
  BatchNum : Z;
  PosInBatch : Z;
  BatchAfter : Z;
  PosAfter : Z
}.

Record delayedMsgInfo := {
  data : CByteArray;
  seq : Z
}.

Record validationEntry := {
  BlockNumber : Z;
  PrevBlockHash : Hash;
  BlockHash : Hash;
  BlockHeader : Header;
  Preimages : list Hash;
  HasDelayedMsg : bool;
  DelayedMsgNr : Z;
  SeqMsgNr : Z;
  EntryPos : Z;                      (* the field Pos of validationEntry *)
  Running : bool;
  MsgsAllocated : list delayedMsgInfo;
  Valid : bool
}.

Record BlockValidatorConfig := {
  RootPath : string;
  ProverBinPath : string;
  ModulePaths : list string;
  OutputPath : string;
  InitialMachineCachePath : string;
  ConcurrentRunsLimit : Z;
  BlocksToRecord : list Z
}.

(** [Uint64] of a [big.Int]: the low 64 bits. *)
Definition Uint64 (n : Z) : Z := wrap64 n.

Definition newValidationEntry (header : Header) (hasDelayed : bool)
    (delayedMsgNr : Z) (preimages : list Hash) (pos : Z) : validationEntry :=
  {| BlockNumber := Uint64 (Number header);
     BlockHash := HeaderHash header;
     PrevBlockHash := ParentHash header;
     BlockHeader := header;
     Preimages := preimages;
     HasDelayedMsg := hasDelayed;
     DelayedMsgNr := delayedMsgNr;
     SeqMsgNr := 0;
     EntryPos := pos;
     Running := false;
     MsgsAllocated := [];
     Valid := false |}.

(** Field updates of a validation entry (the task writes through its pointer). *)
Definition set_SeqMsgNr (x : Z) (e : validationEntry) : validationEntry :=
  {| BlockNumber := BlockNumber e; PrevBlockHash := PrevBlockHash e;
     BlockHash := BlockHash e; BlockHeader := BlockHeader e;
     Preimages := Preimages e; HasDelayedMsg := HasDelayedMsg e;
     DelayedMsgNr := DelayedMsgNr e; SeqMsgNr := x; EntryPos := EntryPos e;
     Running := Running e; MsgsAllocated := MsgsAllocated e; Valid := Valid e |}.

Definition set_Running (x : bool) (e : validationEntry) : validationEntry :=
  {| BlockNumber := BlockNumber e; PrevBlockHash := PrevBlockHash e;
     BlockHash := BlockHash e; BlockHeader := BlockHeader e;
     Preimages := Preimages e; HasDelayedMsg := HasDelayedMsg e;
     DelayedMsgNr := DelayedMsgNr e; SeqMsgNr := SeqMsgNr e; EntryPos := EntryPos e;
     Running := x; MsgsAllocated := MsgsAllocated e; Valid := Valid e |}.

Definition set_MsgsAllocated (x : list delayedMsgInfo) (e : validationEntry) : validationEntry :=
  {| BlockNumber := BlockNumber e; PrevBlockHash := PrevBlockHash e;
     BlockHash := BlockHash e; BlockHeader := BlockHeader e;
     Preimages := Preimages e; HasDelayedMsg := HasDelayedMsg e;
     DelayedMsgNr := DelayedMsgNr e; SeqMsgNr := SeqMsgNr e; EntryPos := EntryPos e;
     Running := Running e; MsgsAllocated := x; Valid := Valid e |}.

Definition set_Preimages (x : list Hash) (e : validationEntry) : validationEntry :=
  {| BlockNumber := BlockNumber e; PrevBlockHash := PrevBlockHash e;
     BlockHash := BlockHash e; BlockHeader := BlockHeader e;
     Preimages := x; HasDelayedMsg := HasDelayedMsg e;
     DelayedMsgNr := DelayedMsgNr e; SeqMsgNr := SeqMsgNr e; EntryPos := EntryPos e;
     Running := Running e; MsgsAllocated := MsgsAllocated e; Valid := Valid e |}.

Definition set_Valid (x : bool) (e : validationEntry) : validationEntry :=
  {| BlockNumber := BlockNumber e; PrevBlockHash := PrevBlockHash e;
     BlockHash := BlockHash e; BlockHeader := BlockHeader e;
     Preimages := Preimages e; HasDelayedMsg := HasDelayedMsg e;
     DelayedMsgNr := DelayedMsgNr e; SeqMsgNr := SeqMsgNr e; EntryPos := EntryPos e;
     Running := Running e; MsgsAllocated := MsgsAllocated e; Valid := x |}.

(** ** The position queue: [posToValidateList] *)

Definition posToValidateList := list PosInSequencer.

(** [Less] of the list's [sort.Interface], on two records. *)
Definition Less (a b : PosInSequencer) : bool := Pos a <? Pos b.

(** [StupidSearchPos]: the index of the first record whose [Pos] is not below
    [pos], or the length of the list. *)
Fixpoint StupidSearchPos (l : posToValidateList) (pos : Z) : nat :=
  match l with
  | [] => 0%nat
  | r :: l' => if Pos r <? pos then S (StupidSearchPos l' pos) else 0%nat
  end.

(** [Len] and [Swap] of the list's [sort.Interface].  [l[i], l[j] = l[j], l[i]]
    reads both elements and then writes both; an index outside the list
    panics ([None]). *)
Definition Len (l : posToValidateList) : nat := length l.

Definition Swap (l : posToValidateList) (i j : nat) : option posToValidateList :=
  match l !! i, l !! j with
  | Some a, Some b => Some (<[j := a]> (<[i := b]> l))
  | _, _ => None
  end.

(** [sort.Sort] orders a list that implements [Len], [Swap] and [Less]; it
    promises a permutation in non-decreasing [Less] order and nothing about
    the order of records with equal [Pos]. *)
Definition pos_le (a b : PosInSequencer) : Prop := Pos a <= Pos b.

Class PosSorter := {
  sort_Sort : posToValidateList -> posToValidateList;
  sort_Sort_perm : forall l, sort_Sort l ≡ₚ l;
  sort_Sort_sorted : forall l, Sorted pos_le (sort_Sort l)
}.

(** ** What the validator records: log lines and other effects *)

Inductive Level := LvlInfo | LvlWarn | LvlError.

Inductive LogVal :=
| VNum (z : Z)
| VHash (h : Hash)
| VStr (s : string)
| VRec (p : PosInSequencer)
| VHeader (h : Header).

Inductive Chan := sendValidationsChan | checkProgressChan.

(** A call into the operating system made while writing an artifact. *)
Inductive FsOp :=
| OpMkdirAll (dir : string)
| OpCreate (path : string)
| OpWriteString (path : string) (text : string)
| OpCByteToFile (path : string) (bytes : CByteArray)
| OpCMultipleByteArrayToFile (path : string) (arrays : CMultipleByteArrays)
| OpChmod (path : string) (mode : Z)
| OpClose (path : string).

Inductive Event :=
| EvLog (lvl : Level) (msg : string) (kv : list (string * LogVal))
| EvFs (op : FsOp) (err : option string)      (* an OS call and its result *)
| EvFree (arrays : CMultipleByteArrays)       (* C.free(c_preimages.ptr) *)
| EvDestroyCByteArray (b : CByteArray)
| EvSend (c : Chan)                           (* c <- struct{}{} *)
| EvTrySend (c : Chan)                        (* select { case c <- struct{}{}: default: } *)
| EvGo (what : string)                        (* a loop goroutine is started *)
| EvPublish (n : Z)                           (* select { case progressChan <- n: default: } *)
| EvGoValidate (entry : nat) (start end_ : PosInSequencer)
| EvSetBlockValidator (who : string).

(** ** The outside world, as interfaces *)

Inductive StepError :=
| context_Canceled
| context_DeadlineExceeded
| other_error (msg : string).

(** [errors.Is(err, context.Canceled) || errors.Is(err, context.DeadlineExceeded)] *)
Definition is_cancellation (err : StepError) : bool :=
  match err with
  | context_Canceled | context_DeadlineExceeded => true
  | other_error _ => false
  end.

Definition error_text (err : StepError) : string :=
  match err with
  | context_Canceled => "context canceled"
  | context_DeadlineExceeded => "context deadline exceeded"
  | other_error msg => msg
  end.

(** Modelled from the spec: [GlobalState], [CreateGlobalState] and
    [ParseGlobalState] are declared with the machine, in another file.
    Section 3: a global state is "{batchNum, posInBatch, blockHash}", and the
    glossary: "the triple (batchNum, posInBatch, blockHash)". *)
Record GlobalState := {
  gsBatch : Z;
  gsPosInBatch : Z;
  gsBlockHash : Hash
}.

Definition CreateGlobalState (batch posInBatch : Z) (h : Hash) : GlobalState :=
  {| gsBatch := batch; gsPosInBatch := posInBatch; gsBlockHash := h |}.

Definition ParseGlobalState (gs : GlobalState) : Z * Z * Hash :=
  (gsBatch gs, gsPosInBatch gs, gsBlockHash gs).

(** [*ArbitratorMachine] with the operations the validator calls on it.  A
    machine is used linearly, so an operation that mutates it returns the
    machine after the call.  [Ctx] is the [context.Context] a step polls. *)
Class ArbitratorMachine (Mach Ctx : Type) := {
  Clone : Mach -> Mach;
  arbitrator_add_preimages : Mach -> CMultipleByteArrays -> Mach;
  SetGlobalState : Mach -> GlobalState -> Mach;
  AddSequencerInboxMessage : Mach -> Z -> CByteArray -> Mach;
  AddDelayedInboxMessage : Mach -> Z -> CByteArray -> Mach;
  IsRunning : Mach -> bool;
  Step : Mach -> Ctx -> Z -> Mach * option StepError;
  GetGlobalState : Mach -> GlobalState;
  arbitrator_load_machine : string -> list string -> Mach
}.

(** [runtime.NumCPU]. *)
Class GoRuntime := {
  runtime_NumCPU : Z
}.

(** [DelayedMessageReader.GetDelayedMessageBytes]. *)
Class DelayedMessageReader := {
  GetDelayedMessageBytes : Z -> list byte + string
}.

(** The result of each operating-system call of [writeToFile]: [None] when it
    succeeds, the error otherwise. *)
Class ArtifactFs := {
  launchTime : string;                    (* the package variable, set at start-up *)
  fs_result : FsOp -> option string
}.

(** ** The base-machine cache directory *)

(** A file of the cache directory: its bytes and its modification time
    (nanoseconds). *)
Record CacheFile := {
  content : list byte;
  modTime : Z
}.

(** The answers of the operating system during one run of
    [cacheBaseMachineUntilHostIo]: for each call the error it returns, if any,
    and the two readings of the clock. *)
Inductive ChtimesError := ErrNotExist | ErrChtimes (msg : string).

Record StartupEnv := {
  env_MkdirAll : option string;
  env_ReadDir : option string;
  env_now_scan : Z;                       (* time.Now() before the scan *)
  env_Remove : string -> option string;
  env_now_touch : Z;                      (* time.Now() before os.Chtimes *)
  env_Chtimes : option ChtimesError;
  env_read : option string;               (* reading the snapshot file fails *)
  env_write : option (string * option (list byte));
      (* writing the snapshot fails, leaving these bytes (if any) at the path *)
  env_now_write : Z;                      (* modification time of a written file *)
  env_Rename : option string
}.

(** The part of a machine that the cache uses. *)
Class MachineCache (Mach Ctx : Type) := {
  MachineHash : Mach -> Hash;
  StepUntilHostIo : Mach -> Ctx -> Mach * option StepError;
  serialize : Mach -> list byte;                 (* the bytes of a whole snapshot *)
  deserialize : list byte -> option Mach         (* [None]: not a snapshot *)
}.

(** ** A small instance of the interfaces

    A machine that runs for a given number of chunks, consumes one message of
    its batch and produces the block whose hash is one more than the hash it
    started from; [ctx] tells whether the context was cancelled. *)
Module Sample.

Record SampleMach := {
  gs : GlobalState;
  chunks : nat;
  inbox : list (Z * CByteArray)
}.

Definition sample_step (m : SampleMach) (cancelled : bool) (n : Z) : SampleMach * option StepError :=
  if cancelled then (m, Some context_Canceled)
  else
    match chunks m with
    | O => (m, None)
    | S O =>
        ({| gs := {| gsBatch := gsBatch (gs m); gsPosInBatch := gsPosInBatch (gs m) + 1;
                     gsBlockHash := gsBlockHash (gs m) + 1 |};
            chunks := 0; inbox := inbox m |}, None)
    | S k => ({| gs := gs m; chunks := k; inbox := inbox m |}, None)
    end.

Definition machine : ArbitratorMachine SampleMach bool :=
  {| Clone := fun m => m;
     arbitrator_add_preimages := fun m _ => m;
     SetGlobalState := fun m g => {| gs := g; chunks := chunks m; inbox := inbox m |};
     AddSequencerInboxMessage := fun m n b => {| gs := gs m; chunks := chunks m; inbox := (n, b) :: inbox m |};
     AddDelayedInboxMessage := fun m n b => {| gs := gs m; chunks := chunks m; inbox := (n, b) :: inbox m |};
     IsRunning := fun m => negb (Nat.eqb (chunks m) 0);
     Step := sample_step;
     GetGlobalState := gs;
     arbitrator_load_machine := fun _ _ => {| gs := CreateGlobalState 0 0 0; chunks := 2; inbox := [] |} |}.

(** A snapshot is one byte: the number of chunks left. *)
Definition cache : MachineCache SampleMach bool :=
  {| MachineHash := fun _ : SampleMach => 171;
     StepUntilHostIo := fun (m : SampleMach) (cancelled : bool) =>
       if cancelled then (m, Some context_Canceled)
       else ({| gs := gs m; chunks := 1; inbox := inbox m |}, None);
     serialize := fun _ : SampleMach => [Byte.x01];
     deserialize := fun bytes : list byte =>
       match bytes with
       | [b] => if Byte.eqb b Byte.x01
                then Some {| gs := CreateGlobalState 0 0 0; chunks := 1; inbox := [] |}
                else None
       | _ => None
       end |}.

Definition reader : DelayedMessageReader :=
  {| GetDelayedMessageBytes := fun n => inl [Byte.x2a] |}.

(** Every call of the operating system succeeds. *)
Definition fs : ArtifactFs :=
  {| launchTime := "2021_11_30__12_00"; fs_result := fun _ => None |}.

Definition runtime : GoRuntime := {| runtime_NumCPU := 4 |}.

#[local] Instance pos_le_dec a b : Decision (pos_le a b).
Proof. unfold pos_le. apply _. Defined.

#[local] Instance pos_le_total : Total pos_le.
Proof. intros a b. unfold pos_le. lia. Qed.

Definition sorter : PosSorter :=
  {| sort_Sort := merge_sort pos_le;
     sort_Sort_perm := merge_sort_Permutation pos_le;
     sort_Sort_sorted := Sorted_merge_sort pos_le |}.

Definition cfg : BlockValidatorConfig :=
  {| RootPath := "/env"; ProverBinPath := "lib/replay.wasm";
     ModulePaths := ["lib/host_io.wasm"]; OutputPath := "output";
     InitialMachineCachePath := "initial-machine-cache";
     ConcurrentRunsLimit := 2; BlocksToRecord := [] |}.

(** The same configuration, recording the given blocks. *)
Definition recording (blocks : list Z) : BlockValidatorConfig :=
  {| RootPath := "/env"; ProverBinPath := "lib/replay.wasm";
     ModulePaths := ["lib/host_io.wasm"]; OutputPath := "output";
     InitialMachineCachePath := "initial-machine-cache";
     ConcurrentRunsLimit := 2; BlocksToRecord := blocks |}.

(** An operating system whose calls all succeed. *)
Definition env_ok : StartupEnv :=
  {| env_MkdirAll := None; env_ReadDir := None;
     env_now_scan := 200000000000000; env_Remove := fun _ => None;
     env_now_touch := 200000000000001; env_Chtimes := None; env_read := None;
     env_write := None; env_now_write := 200000000000002; env_Rename := None |}.

(** The name of the sample machine's snapshot, and a cache directory with a
    damaged snapshot and an old file of another machine. *)
Definition snapshot_name : string :=
  "0x00000000000000000000000000000000000000000000000000000000000000ab.bin".

Definition damaged_dir : gmap string CacheFile :=
  {[ snapshot_name := {| content := [Byte.x00]; modTime := 199999999999999 |};
     "0x01.bin" := {| content := [Byte.x01]; modTime := 1 |} ]}.

(** A cache directory with the whole snapshot, an old file of another machine
    and a recent one. *)
Definition good_dir : gmap string CacheFile :=
  {[ snapshot_name := {| content := [Byte.x01]; modTime := 199999999999999 |};
     "0x01.bin" := {| content := [Byte.x01]; modTime := 1 |};
     "0x02.bin" := {| content := [Byte.x02]; modTime := 199999999999998 |} ]}.

Definition header (number parent : Z) : Header :=
  {| Number := number; ParentHash := parent; Nonce := 0; HeaderHash := parent + 1 |}.

Definition record (pos batch inBatch : Z) : PosInSequencer :=
  {| Pos := pos; BatchNum := batch; PosInBatch := inBatch;
     BatchAfter := batch; PosAfter := inBatch + 1 |}.

End Sample.

Section Validator.

Context {Mach Ctx : Type}.
Context `{machine_ops : !ArbitratorMachine Mach Ctx} `{cache_ops : !MachineCache Mach Ctx}.
Context `{inboxTracker : !DelayedMessageReader} `{os_fs : !ArtifactFs}.
Context `{sorter : !PosSorter} `{go_runtime : !GoRuntime}.

(** ** The validator and the process-wide state *)

(** A record of the preimage cache: the bytes and how many entries use them. *)
Record PreimageRecord := {
  pre_bytes : list byte;
  refcount : Z
}.

Record BlockValidator := {
  preimageCache : gmap Z PreimageRecord;
  posToValidate : posToValidateList;
  posNext : Z;
  batchNrValidated : Z;
  blocksValidated : Z;
  posNextSend : Z;
  baseMachine : Mach;
  config : BlockValidatorConfig;
  atomicValidationsRunning : Z;
  concurrentRunsLimit : Z
}.

(** [validatorStatic].  Its [inboxTracker] is the [DelayedMessageReader] of the
    context.  The values of [validationEntries] are pointers into [heap]; the
    values of [sequencerBatches] are always [C.CByteArray]s, so the type
    assertion on a loaded batch cannot fail. *)
Record blockValidatorGlobals := {
  initialized : bool;
  validationEntries : gmap Z nat;
  sequencerBatches : gmap Z CByteArray
}.

Record World := {
  v : BlockValidator;
  validatorStatic : blockValidatorGlobals;
  heap : list validationEntry;
  cacheDir : gmap string CacheFile;
  dirHistory : list (gmap string CacheFile);  (* every state the directory went through *)
  events : list Event                         (* oldest first *)
}.

Definition with_v (f : BlockValidator -> BlockValidator) (w : World) : World :=
  {| v := f (v w); validatorStatic := validatorStatic w; heap := heap w;
     cacheDir := cacheDir w; dirHistory := dirHistory w; events := events w |}.

Definition with_static (f : blockValidatorGlobals -> blockValidatorGlobals) (w : World) : World :=
  {| v := v w; validatorStatic := f (validatorStatic w); heap := heap w;
     cacheDir := cacheDir w; dirHistory := dirHistory w; events := events w |}.

Definition with_heap (f : list validationEntry -> list validationEntry) (w : World) : World :=
  {| v := v w; validatorStatic := validatorStatic w; heap := f (heap w);
     cacheDir := cacheDir w; dirHistory := dirHistory w; events := events w |}.

Definition with_cacheDir (d : gmap string CacheFile) (w : World) : World :=
  {| v := v w; validatorStatic := validatorStatic w; heap := heap w;
     cacheDir := d; dirHistory := dirHistory w ++ [d]; events := events w |}.

Definition with_event (ev : Event) (w : World) : World :=
  {| v := v w; validatorStatic := validatorStatic w; heap := heap w;
     cacheDir := cacheDir w; dirHistory := dirHistory w; events := events w ++ [ev] |}.

Definition set_preimageCache (x : gmap Z PreimageRecord) (b : BlockValidator) : BlockValidator :=
  {| preimageCache := x; posToValidate := posToValidate b; posNext := posNext b;
     batchNrValidated := batchNrValidated b; blocksValidated := blocksValidated b;
     posNextSend := posNextSend b; baseMachine := baseMachine b; config := config b;
     atomicValidationsRunning := atomicValidationsRunning b;
     concurrentRunsLimit := concurrentRunsLimit b |}.

Definition set_posToValidate (x : posToValidateList) (b : BlockValidator) : BlockValidator :=
  {| preimageCache := preimageCache b; posToValidate := x; posNext := posNext b;
     batchNrValidated := batchNrValidated b; blocksValidated := blocksValidated b;
     posNextSend := posNextSend b; baseMachine := baseMachine b; config := config b;
     atomicValidationsRunning := atomicValidationsRunning b;
     concurrentRunsLimit := concurrentRunsLimit b |}.

Definition set_posNext (x : Z) (b : BlockValidator) : BlockValidator :=
  {| preimageCache := preimageCache b; posToValidate := posToValidate b; posNext := x;
     batchNrValidated := batchNrValidated b; blocksValidated := blocksValidated b;
     posNextSend := posNextSend b; baseMachine := baseMachine b; config := config b;
     atomicValidationsRunning := atomicValidationsRunning b;
     concurrentRunsLimit := concurrentRunsLimit b |}.

Definition set_blocksValidated (x : Z) (b : BlockValidator) : BlockValidator :=
  {| preimageCache := preimageCache b; posToValidate := posToValidate b; posNext := posNext b;
     batchNrValidated := batchNrValidated b; blocksValidated := x;
     posNextSend := posNextSend b; baseMachine := baseMachine b; config := config b;
     atomicValidationsRunning := atomicValidationsRunning b;
     concurrentRunsLimit := concurrentRunsLimit b |}.

Definition set_posNextSend (x : Z) (b : BlockValidator) : BlockValidator :=
  {| preimageCache := preimageCache b; posToValidate := posToValidate b; posNext := posNext b;
     batchNrValidated := batchNrValidated b; blocksValidated := blocksValidated b;
     posNextSend := x; baseMachine := baseMachine b; config := config b;
     atomicValidationsRunning := atomicValidationsRunning b;
     concurrentRunsLimit := concurrentRunsLimit b |}.

Definition set_baseMachine (x : Mach) (b : BlockValidator) : BlockValidator :=
  {| preimageCache := preimageCache b; posToValidate := posToValidate b; posNext := posNext b;
     batchNrValidated := batchNrValidated b; blocksValidated := blocksValidated b;
     posNextSend := posNextSend b; baseMachine := x; config := config b;
     atomicValidationsRunning := atomicValidationsRunning b;
     concurrentRunsLimit := concurrentRunsLimit b |}.

Definition set_atomicValidationsRunning (x : Z) (b : BlockValidator) : BlockValidator :=
  {| preimageCache := preimageCache b; posToValidate := posToValidate b; posNext := posNext b;
     batchNrValidated := batchNrValidated b; blocksValidated := blocksValidated b;
     posNextSend := posNextSend b; baseMachine := baseMachine b; config := config b;
     atomicValidationsRunning := x;
     concurrentRunsLimit := concurrentRunsLimit b |}.

Definition set_initialized (x : bool) (g : blockValidatorGlobals) : blockValidatorGlobals :=
  {| initialized := x; validationEntries := validationEntries g;
     sequencerBatches := sequencerBatches g |}.

Definition set_validationEntries (x : gmap Z nat) (g : blockValidatorGlobals) : blockValidatorGlobals :=
  {| initialized := initialized g; validationEntries := x;
     sequencerBatches := sequencerBatches g |}.

Definition set_sequencerBatches (x : gmap Z CByteArray) (g : blockValidatorGlobals) : blockValidatorGlobals :=
  {| initialized := initialized g; validationEntries := validationEntries g;
     sequencerBatches := x |}.

(** ** The monad of a goroutine body *)

(** How a body ends before its last statement.  [OutOfFuel] is the model's
    own: a loop of the body was cut off by its bound. *)
Inductive Exit :=
| Return
| Goexit
| Panic (msg : string)
| OutOfFuel.

Definition M (A : Type) : Type := World -> (A + Exit) * World.

Definition ret {A} (a : A) : M A := fun w => (inl a, w).

Definition bind {A B} (m : M A) (k : A -> M B) : M B :=
  fun w => match m w with
           | (inl a, w') => k a w'
           | (inr e, w') => (inr e, w')
           end.

Definition leave {A} (e : Exit) : M A := fun w => (inr e, w).

Definition gets {A} (f : World -> A) : M A := fun w => (inl (f w), w).

Definition modify (f : World -> World) : M unit := fun w => (inl tt, f w).

Definition emit (ev : Event) : M unit := modify (with_event ev).

(** [defer d] in front of [body]: [d] runs when [body] ends, however it ends. *)
Definition defer (d : M unit) (body : M unit) : M unit :=
  fun w => let '(r, w') := body w in (r, snd (d w')).

Notation "x <- m ;; k" := (bind m (fun x => k))
  (at level 100, m at next level, right associativity).
Notation "m ;; k" := (bind m (fun _ => k))
  (at level 100, right associativity).

Definition log_Info (msg : string) (kv : list (string * LogVal)) : M unit :=
  emit (EvLog LvlInfo msg kv).
Definition log_Warn (msg : string) (kv : list (string * LogVal)) : M unit :=
  emit (EvLog LvlWarn msg kv).
Definition log_Error (msg : string) (kv : list (string * LogVal)) : M unit :=
  emit (EvLog LvlError msg kv).

(** Reading and writing through an entry pointer.  A pointer outside the heap
    is Go's nil pointer: dereferencing it panics. *)
Definition deref (p : nat) : M validationEntry :=
  fun w => match heap w !! p with
           | Some e => (inl e, w)
           | None => (inr (Panic "invalid memory address or nil pointer dereference"), w)
           end.

Definition update_entry (p : nat) (f : validationEntry -> validationEntry) : M unit :=
  e <- deref p ;; modify (with_heap (fun h => <[p := f e]> h)).

(** ** The preimage cache *)

(** Modelled from the spec: the preimage cache ([preimageCache] with
    [PourToCache], [PrepareMultByteArrays] and [RemoveFromCache]) is declared
    in another file of the package.  Section 4.1: ingest "inserts missing
    entries, increments refcount on all keys supplied, returns the hashes as a
    list"; pack "produces a contiguous descriptor array ... referencing the
    stored bytes"; release "decrements refcounts; entries with refcount=0 are
    evicted"; "release over a missing key reports an error but proceeds".
    A Go map is walked in no fixed order: [preimages] lists the map's pairs
    in the order of the walk. *)
Definition pour_one (c : gmap Z PreimageRecord) (kv : Hash * list byte) : gmap Z PreimageRecord :=
  match c !! kv.1 with
  | Some r => <[kv.1 := {| pre_bytes := pre_bytes r; refcount := refcount r + 1 |}]> c
  | None => <[kv.1 := {| pre_bytes := kv.2; refcount := 1 |}]> c
  end.

(** Modelled from the spec: [preimageCache.PourToCache] is declared in another
    file; section 4.1, ingest.  It returns the keys in the order of the walk. *)
Definition PourToCache (preimages : list (Hash * list byte)) : M (list Hash) :=
  modify (with_v (fun b => set_preimageCache (foldl pour_one (preimageCache b) preimages) b)) ;;
  ret (map fst preimages).

(** Modelled from the spec: see [pour_one].  Packing fails on a hash that has
    no stored bytes. *)
Fixpoint pack (c : gmap Z PreimageRecord) (hashes : list Hash) : CMultipleByteArrays * option string :=
  match hashes with
  | [] => ([], None)
  | h :: hs =>
      match c !! h with
      | Some r => let '(arrs, err) := pack c hs in (pre_bytes r :: arrs, err)
      | None => ([], Some "preimage not in cache")
      end
  end.

(** Modelled from the spec: [preimageCache.PrepareMultByteArrays] is declared
    in another file; section 4.1, pack. *)
Definition PrepareMultByteArrays (hashes : list Hash) : M (CMultipleByteArrays * option string) :=
  gets (fun w => pack (preimageCache (v w)) hashes).

(** Modelled from the spec: see [pour_one]. *)
Definition release_one (st : gmap Z PreimageRecord * option string) (h : Hash)
    : gmap Z PreimageRecord * option string :=
  match st.1 !! h with
  | Some r =>
      if refcount r - 1 <=? 0 then (delete h st.1, st.2)
      else (<[h := {| pre_bytes := pre_bytes r; refcount := refcount r - 1 |}]> st.1, st.2)
  | None => (st.1, Some "preimage not in cache")
  end.

(** Modelled from the spec: [preimageCache.RemoveFromCache] is declared in
    another file; section 4.1, release.  The error is the last one reported. *)
Definition RemoveFromCache (hashes : list Hash) : M (option string) :=
  c <- gets (fun w => preimageCache (v w)) ;;
  let '(c', err) := foldl release_one (c, None) hashes in
  modify (with_v (set_preimageCache c')) ;;
  ret err.

(** ** [prepareBlock] *)

(** [sync.Map.Store] of a freshly allocated entry. *)
Definition store_entry (pos : Z) (e : validationEntry) : M unit :=
  p <- gets (fun w => length (heap w)) ;;
  modify (with_heap (fun h => h ++ [e])) ;;
  modify (with_static (fun g => set_validationEntries (<[pos := p]> (validationEntries g)) g)).

Definition prepareBlock (header prevHeader : Header)
    (preimages : list (Hash * list byte)) (pos : Z) : M unit :=
  hashlist <- PourToCache preimages ;;
  if negb (ParentHash header =? HeaderHash prevHeader) then
    log_Error "prepareBlock: wrong headers"
      [("num", VNum (Number header)); ("parenthash", VHash (ParentHash header));
       ("prevhash", VHash (HeaderHash prevHeader))] ;;
    leave Return
  else
    let '(hasDelayedMessage, delayedMsgToRead) :=
      if negb (Nonce header =? Nonce prevHeader) then (true, Uint64 (Nonce prevHeader))
      else (false, 0) in
    store_entry pos (newValidationEntry header hasDelayedMessage delayedMsgToRead hashlist pos) ;;
    emit (EvSend sendValidationsChan).

(** ** [writeToFile] *)

(** [filepath.Join]: the non-empty elements, separated by a slash (the final
    [Clean] of the path is not modelled). *)
Definition filepath_Join (parts : list string) : string :=
  String.concat "/" (filter (fun s => s <> EmptyString) parts).

Definition hex_digit (d : Z) : ascii :=
  match String.get (Z.to_nat d) "0123456789abcdef" with
  | Some c => c
  | None => "0"%char
  end.

Fixpoint hex_fixed (n : nat) (z : Z) (acc : string) : string :=
  match n with
  | O => acc
  | S n' => hex_fixed n' (z / 16) (String (hex_digit (z mod 16)) acc)
  end.

(** [common.Hash.String]: 0x and 64 hexadecimal digits. *)
Definition Hash_String (h : Hash) : string := "0x" +:+ hex_fixed 64 h EmptyString.

(** [%d] of a [uint64]. *)
Definition fmt_d (z : Z) : string := pretty z.

Definition dquote : string := String (ascii_of_nat 34) EmptyString.
Definition newline : string := String (ascii_of_nat 10) EmptyString.
Definition tab : string := String (ascii_of_nat 9) EmptyString.

Definition fs_call (op : FsOp) : M (option string) :=
  emit (EvFs op (fs_result op)) ;; ret (fs_result op).

(** Calls in sequence, up to the first that fails ([if err != nil { return err }]). *)
Fixpoint fs_seq (ops : list FsOp) : M (option string) :=
  match ops with
  | [] => ret None
  | op :: rest =>
      err <- fs_call op ;;
      match err with
      | Some e => ret (Some e)
      | None => fs_seq rest
      end
  end.

Definition script_head (cfg : BlockValidatorConfig) (e : validationEntry) (end_ : PosInSequencer) : string :=
  "#!/bin/bash" +:+ newline +:+
  ("# expected output: batch " +:+ fmt_d (BatchAfter end_) +:+ ", postion " +:+ fmt_d (PosAfter end_)
     +:+ ", hash " +:+ Hash_String (BlockHash e) +:+ newline) +:+
  "ROOTPATH=" +:+ dquote +:+ RootPath cfg +:+ dquote +:+ newline +:+
  "if (( $# > 1 )); then" +:+ newline +:+
  tab +:+ "if [[ $1 == " +:+ dquote +:+ "-r" +:+ dquote +:+ " ]]; then" +:+ newline +:+
  tab +:+ tab +:+ "ROOTPATH=$2" +:+ newline +:+
  tab +:+ tab +:+ "shift" +:+ newline +:+
  tab +:+ tab +:+ "shift" +:+ newline +:+
  tab +:+ "fi" +:+ newline +:+
  "fi" +:+ newline +:+
  "${ROOTPATH}/bin/prover ${ROOTPATH}/" +:+ ProverBinPath cfg.

(** The calls of [writeToFile] after [os.Create], in order. *)
Definition artifact_ops (cfg : BlockValidatorConfig) (outDirPath : string)
    (e : validationEntry) (start end_ : PosInSequencer)
    (c_preimages : CMultipleByteArrays) (sequencerCByte delayedCByte : CByteArray) : list FsOp :=
  let cmdFile := filepath_Join [outDirPath; "run-prover.sh"] in
  let sequencerFileName := "sequencer_" +:+ fmt_d (SeqMsgNr e) +:+ ".bin" in
  let filename := "delayed_" +:+ fmt_d (DelayedMsgNr e) +:+ ".bin" in
  [OpWriteString cmdFile (script_head cfg e end_)]
  ++ map (fun module => OpWriteString cmdFile (" -l " +:+ "${ROOTPATH}/" +:+ module)) (ModulePaths cfg)
  ++ [OpWriteString cmdFile
        (" --inbox-position " +:+ fmt_d (SeqMsgNr e) +:+ " --position-within-message "
           +:+ fmt_d (PosInBatch start) +:+ " --last-block-hash " +:+ Hash_String (PrevBlockHash e));
      OpCByteToFile (filepath_Join [outDirPath; sequencerFileName]) sequencerCByte;
      OpWriteString cmdFile (" --inbox " +:+ sequencerFileName);
      OpCMultipleByteArrayToFile (filepath_Join [outDirPath; "preimages.bin"]) c_preimages;
      OpWriteString cmdFile " --preimages preimages.bin"]
  ++ (if HasDelayedMsg e then
        [OpWriteString cmdFile (" --delayed-inbox-position " +:+ fmt_d (DelayedMsgNr e));
         OpCByteToFile (filepath_Join [outDirPath; filename]) delayedCByte;
         OpWriteString cmdFile (" --delayed-inbox " +:+ filename)]
      else [])
  ++ [OpWriteString cmdFile (" " +:+ dquote +:+ "$@" +:+ dquote +:+ newline);
      OpChmod cmdFile 511].

(** [outDirPath]: the directory of the artifact of a block. *)
Definition artifact_dir (cfg : BlockValidatorConfig) (e : validationEntry) : string :=
  filepath_Join [RootPath cfg; OutputPath cfg; launchTime; "block_" +:+ fmt_d (BlockNumber e)].

Definition writeToFile (e : validationEntry) (start end_ : PosInSequencer)
    (c_preimages : CMultipleByteArrays) (sequencerCByte delayedCByte : CByteArray)
    : M (option string) :=
  cfg <- gets (fun w => config (v w)) ;;
  let outDirPath := artifact_dir cfg e in
  err <- fs_call (OpMkdirAll outDirPath) ;;
  match err with
  | Some er => ret (Some er)
  | None =>
      let cmdFile := filepath_Join [outDirPath; "run-prover.sh"] in
      err <- fs_call (OpCreate cmdFile) ;;
      match err with
      | Some er => ret (Some er)
      | None =>
          err <- fs_seq (artifact_ops cfg outDirPath e start end_ c_preimages sequencerCByte delayedCByte) ;;
          emit (EvFs (OpClose cmdFile) None) ;;     (* defer cmdFile.Close() *)
          ret err
      end
  end.

(** ** [validate] *)

(** The chunk of instructions of one [Step]. *)
Definition count : Z := 100000000.

(** The loop [for mach.IsRunning() { ... }].  It ends when the machine halts
    or a step fails; [fuel] bounds the number of chunks the model follows. *)
Fixpoint run_machine (fuel : nat) (ctx : Ctx) (blockNr : Z) (mach : Mach) (steps : Z) : M Mach :=
  if IsRunning mach then
    match fuel with
    | O => leave OutOfFuel
    | S fuel' =>
        let '(mach', err) := Step mach ctx count in
        match err with
        | Some er =>
            if negb (is_cancellation er) then
              log_Error "running machine failed" [("err", VStr (error_text er))] ;;
              leave (Panic ("Failed to run machine: " +:+ error_text er))
            else leave Return
        | None =>
            let steps' := add64 steps count in
            log_Info "validation" [("block", VNum blockNr); ("steps", VNum steps')] ;;
            run_machine fuel' ctx blockNr mach' steps'
        end
    end
  else ret mach.

(** Line 372. *)
Definition resultValid (gsEnd : GlobalState) (end_ : PosInSequencer) (e : validationEntry) : bool :=
  let '(resBatch, resPosInBatch, resHash) := ParseGlobalState gsEnd in
  (resBatch =? BatchAfter end_) && (resPosInBatch =? PosAfter end_) && (resHash =? BlockHash e).

(** The loop over [BlocksToRecord] (lines 378-386); [writeThisBlock] is the
    variable's value before the loop. *)
Fixpoint scan_BlocksToRecord (blocks : list Z) (blockNumber : Z) (writeThisBlock : bool) : bool :=
  match blocks with
  | [] => writeThisBlock
  | blockNr :: rest =>
      if blockNr >? blockNumber then writeThisBlock
      else if blockNr =? blockNumber then true
      else scan_BlocksToRecord rest blockNumber writeThisBlock
  end.

(** Lines 370-386: the value of [writeThisBlock] when the artifact is decided. *)
Definition writeThisBlock (cfg : BlockValidatorConfig) (e : validationEntry) (valid : bool) : bool :=
  scan_BlocksToRecord (BlocksToRecord cfg) (BlockNumber e)
    (if negb valid then true else false).

Fixpoint destroy_all (msgs : list delayedMsgInfo) : M unit :=
  match msgs with
  | [] => ret tt
  | cbyte :: rest => emit (EvDestroyCByteArray (data cbyte)) ;; destroy_all rest
  end.

(** Lines 388-393. *)
Definition write_artifact (write : bool) (e : validationEntry) (start end_ : PosInSequencer)
    (c_preimages : CMultipleByteArrays) (seqCByte delayedByte : CByteArray) : M unit :=
  if write then
    err <- writeToFile e start end_ c_preimages seqCByte delayedByte ;;
    match err with
    | Some er => log_Error "failed to write file" [("err", VStr er)]
    | None => ret tt
    end
  else ret tt.

(** Lines 395-399. *)
Definition abort_if_invalid (valid : bool) (e : validationEntry) (start end_ : PosInSequencer)
    (resBatch resPosInBatch : Z) (resHash : Hash) : M unit :=
  if negb valid then
    log_Error "validation failed"
      [("startPos", VNum (Pos start));
       ("batch_exp", VNum (BatchAfter end_)); ("batch_actual", VNum resBatch);
       ("pos_exp", VNum (PosAfter end_)); ("pos_actual", VNum resPosInBatch);
       ("hash_exp", VHash (BlockHash e)); ("hash_actual", VHash resHash)] ;;
    log_Error "validation failed" [("expHeader", VHeader (BlockHeader e))] ;;
    leave (Panic "validation failed. quitting..")
  else ret tt.

(** Lines 401-414: the resources of the entry are released, the entry is
    marked valid and the two loops are woken. *)
Definition release_entry (p : nat) (e : validationEntry) : M unit :=
  err <- RemoveFromCache (Preimages e) ;;
  (match err with
   | Some er => log_Error "validator failed to remove from cache" [("err", VStr er)]
   | None => ret tt
   end) ;;
  destroy_all (MsgsAllocated e) ;;
  modify (with_v (fun b => set_atomicValidationsRunning (add32 (atomicValidationsRunning b) (-1)) b)) ;;
  update_entry p (set_MsgsAllocated []) ;;
  update_entry p (set_Preimages []) ;;
  update_entry p (set_Valid true) ;;
  log_Info "validation succeeded" [("blockNr", VNum (BlockNumber e))] ;;
  emit (EvSend checkProgressChan) ;;
  emit (EvSend sendValidationsChan).

(** Lines 366-414: what the task does once its machine has halted. *)
Definition validate_finish (p : nat) (start end_ : PosInSequencer)
    (c_preimages : CMultipleByteArrays) (seqCByte delayedByte : CByteArray) (mach : Mach) : M unit :=
  e <- deref p ;;
  cfg <- gets (fun w => config (v w)) ;;
  let gsEnd := GetGlobalState mach in
  let '(resBatch, resPosInBatch, resHash) := ParseGlobalState gsEnd in
  let valid := resultValid gsEnd end_ e in
  write_artifact (writeThisBlock cfg e valid) e start end_ c_preimages seqCByte delayedByte ;;
  abort_if_invalid valid e start end_ resBatch resPosInBatch resHash ;;
  release_entry p e.

(** Lines 318-365, after the deferred free is registered: the inputs are
    loaded into a clone of the base machine, which is run until it halts. *)
Definition validate_to_halt (fuel : nat) (ctx : Ctx) (p : nat) (start end_ : PosInSequencer)
    (c_preimages : CMultipleByteArrays) (err : option string) : M (CByteArray * CByteArray * Mach) :=
  match err with
  | Some er => log_Error "validator: failed prepare arrays" [("err", VStr er)] ;; leave Return
  | None =>
      update_entry p (set_SeqMsgNr (BatchNum start)) ;;
      update_entry p (set_Running true) ;;
      e <- deref p ;;
      let gsStart := CreateGlobalState (BatchNum start) (PosInBatch start) (PrevBlockHash e) in
      seqEntry <- gets (fun w => sequencerBatches (validatorStatic w) !! BatchNum start) ;;
      match seqEntry with
      | None =>
          log_Error "didn't find sequencer message"
            [("pos", VNum (Pos start)); ("msgNum", VNum (SeqMsgNr e))] ;;
          leave Goexit
      | Some seqCByte =>
          base <- gets (fun w => baseMachine (v w)) ;;
          let mach := Clone base in
          let mach := arbitrator_add_preimages mach c_preimages in
          let mach := SetGlobalState mach gsStart in
          let mach := AddSequencerInboxMessage mach (BatchNum start) seqCByte in
          md <- (if HasDelayedMsg e then
                   match GetDelayedMessageBytes (DelayedMsgNr e) with
                   | inr er =>
                       log_Error "error while trying to read delayed msg for proving"
                         [("err", VStr er); ("seq", VNum (DelayedMsgNr e)); ("pos", VNum (Pos start))] ;;
                       leave Goexit
                   | inl msg =>
                       let delayedByte : CByteArray := msg in     (* CreateCByteArray(msg) *)
                       ret (AddDelayedInboxMessage mach (DelayedMsgNr e) delayedByte, delayedByte)
                   end
                 else ret (mach, [])) ;;
          mach <- run_machine fuel ctx (BlockNumber e) md.1 0 ;;
          ret (seqCByte, md.2, mach)
      end
  end.

(** Lines 307-316: the checks on entry and the packing of the preimages. *)
Definition validate_checks (p : nat) (start end_ : PosInSequencer)
    : M (CMultipleByteArrays * option string) :=
  e <- deref p ;;
  log_Info "starting validation for block"
    [("blockNr", VNum (BlockNumber e)); ("start", VRec start); ("end", VRec end_)] ;;
  init <- gets (fun w => initialized (validatorStatic w)) ;;
  if negb init then
    log_Error "validator: validatorStatic not initialized" [] ;; leave Return
  else if negb (EntryPos e =? Pos end_) then
    log_Error "validator: validate got bad args"
      [("block.end", VNum (EntryPos e)); ("end", VNum (Pos end_))] ;;
    leave Return
  else PrepareMultByteArrays (Preimages e).

Definition validate (fuel : nat) (ctx : Ctx) (p : nat) (start end_ : PosInSequencer) : M unit :=
  packed <- validate_checks p start end_ ;;
  defer (emit (EvFree packed.1))
    (r <- validate_to_halt fuel ctx p start end_ packed.1 packed.2 ;;
     validate_finish p start end_ packed.1 r.1.1 r.1.2 r.2).

(** ** [sendValidations] *)

(** One turn of the [for] loop (lines 426-448).  It ends the function by
    [return], or dispatches one task and goes on. *)
Definition sendValidations_turn : M unit :=
  running <- gets (fun w => atomicValidationsRunning (v w)) ;;
  limit <- gets (fun w => concurrentRunsLimit (v w)) ;;
  if running >=? limit then leave Return
  else
    q <- gets (fun w => posToValidate (v w)) ;;
    next <- gets (fun w => posNextSend (v w)) ;;
    match q with
    | [] => leave Return
    | head :: _ =>
        if negb (Pos head =? next) then leave Return
        else
          entry <- gets (fun w => validationEntries (validatorStatic w) !! next) ;;
          match entry with
          | None => leave Return
          | Some p =>
              h <- gets heap ;;
              match h !! p with
              | None => log_Error "bad entry trying to validate batch" [] ;; leave Return
              | Some e =>
                  let idx := StupidSearchPos q (EntryPos e) in
                  match q !! idx with
                  | None => leave Return
                  | Some end_ =>
                      if negb (Pos end_ =? EntryPos e) then leave Return
                      else
                        modify (with_v (fun b =>
                          set_atomicValidationsRunning (add32 (atomicValidationsRunning b) 1) b)) ;;
                        emit (EvGoValidate p head end_) ;;
                        modify (with_v (set_posNextSend (add64 (EntryPos e) 1))) ;;
                        modify (with_v (set_posToValidate (drop (S idx) q)))
                  end
              end
          end
    end.

Fixpoint sendValidations_loop (fuel : nat) : M unit :=
  match fuel with
  | O => leave OutOfFuel
  | S fuel' => sendValidations_turn ;; sendValidations_loop fuel'
  end.

(** Every turn that goes on shortens the queue, so one turn more than the
    queue is long is enough. *)
Definition sendValidations : M unit :=
  modify (with_v (fun b => set_posToValidate (sort_Sort (posToValidate b)) b)) ;;
  modify (with_v (fun b =>
    set_posToValidate (drop (StupidSearchPos (posToValidate b) (posNextSend b)) (posToValidate b)) b)) ;;
  n <- gets (fun w => length (posToValidate (v w))) ;;
  sendValidations_loop (S n).

(** ** [ProgressValidated] *)

(** [for batch := v.batchNrValidated; batch < SeqMsgNr; batch++], with [n]
    turns to go. *)
Fixpoint evict_batches (n : nat) (batch : Z) : M unit :=
  match n with
  | O => ret tt
  | S n' =>
      entry <- gets (fun w => sequencerBatches (validatorStatic w) !! batch) ;;
      modify (with_static (fun g => set_sequencerBatches (delete batch (sequencerBatches g)) g)) ;;
      (match entry with
       | None => log_Warn "didn't find sequencer batch" [("number", VNum batch)]
       | Some cbyte => emit (EvDestroyCByteArray cbyte)
       end) ;;
      evict_batches n' (batch + 1)
  end.

(** One turn of the [for] loop (lines 472-507). *)
Definition ProgressValidated_turn : M unit :=
  next <- gets (fun w => posNext (v w)) ;;
  entry <- gets (fun w => validationEntries (validatorStatic w) !! next) ;;
  match entry with
  | None => leave Return
  | Some p =>
      h <- gets heap ;;
      match h !! p with
      | None => log_Error "bad entry trying to advance validated counter" [] ;; leave Return
      | Some e =>
          if negb (Valid e) then leave Return
          else
            validated <- gets (fun w => blocksValidated (v w)) ;;
            if negb (BlockNumber e =? add64 validated 1) then
              log_Error "bad block number for validation entry"
                [("expected", VNum (add64 validated 1)); ("found", VNum (BlockNumber e));
                 ("pos", VNum next)] ;;
              leave Return
            else
              modify (with_static (fun g =>
                set_validationEntries (delete next (validationEntries g)) g)) ;;
              first <- gets (fun w => batchNrValidated (v w)) ;;
              evict_batches (Z.to_nat (SeqMsgNr e - first)) first ;;
              modify (with_v (set_posNext (add64 (EntryPos e) 1))) ;;
              modify (with_v (set_blocksValidated (BlockNumber e))) ;;
              emit (EvPublish (BlockNumber e))
      end
  end.

Fixpoint ProgressValidated_loop (fuel : nat) : M unit :=
  match fuel with
  | O => leave OutOfFuel
  | S fuel' => ProgressValidated_turn ;; ProgressValidated_loop fuel'
  end.

(** Every turn that goes on deletes an entry of the table, so one turn more
    than the table has entries is enough. *)
Definition ProgressValidated : M unit :=
  n <- gets (fun w => size (validationEntries (validatorStatic w))) ;;
  ProgressValidated_loop (S n).

Definition BlocksValidated (w : World) : Z := blocksValidated (v w).

(** ** [ProcessBatches] *)

(** [batches] lists the pairs of the Go map in the order of the walk. *)
Definition ProcessBatches (batches : list (Z * list byte)) (posData : list PosInSequencer) : M unit :=
  modify (with_static (fun g =>
    set_sequencerBatches (foldl (fun m kv => <[kv.1 := kv.2]> m) (sequencerBatches g) batches) g)) ;;
  modify (with_v (fun b => set_posToValidate (posToValidate b ++ posData) b)) ;;
  emit (EvTrySend sendValidationsChan).

(** ** [NewBlockValidator] *)

Definition NewBlockValidator (cfg : BlockValidatorConfig) : M BlockValidator :=
  let moduleList := map (fun module => filepath_Join [RootPath cfg; module]) (ModulePaths cfg) in
  let cBinPath := filepath_Join [RootPath cfg; ProverBinPath cfg] in
  let machine := arbitrator_load_machine cBinPath moduleList in
  init <- gets (fun w => initialized (validatorStatic w)) ;;
  if init then leave (Panic "creating block validator when one exists")
  else
    modify (with_static (set_initialized true)) ;;
    let concurrent :=
      if ConcurrentRunsLimit cfg =? 0 then runtime_NumCPU else ConcurrentRunsLimit cfg in
    let validator :=
      {| preimageCache := ∅; posToValidate := []; posNext := 0; batchNrValidated := 0;
         blocksValidated := 0; posNextSend := 0; baseMachine := machine; config := cfg;
         atomicValidationsRunning := 0; concurrentRunsLimit := to_int32 concurrent |} in
    emit (EvSetBlockValidator "streamer") ;;
    emit (EvSetBlockValidator "inbox") ;;
    ret validator.

(** ** [cacheBaseMachineUntilHostIo] and [Start] *)

Definition day : Z := 24 * 3600 * 1000000000.

Definition name_le (a b : string * CacheFile) : Prop := String.leb a.1 b.1 = true.

#[local] Instance name_le_dec a b : Decision (name_le a b).
Proof. unfold name_le. apply _. Defined.

(** [ioutil.ReadDir]: the directory's entries, sorted by file name. *)
Definition ReadDir (d : gmap string CacheFile) : list (string * CacheFile) :=
  merge_sort name_le (map_to_list d).

(** The loop over the listing (lines 558-570): [found] is [foundInCache]. *)
Fixpoint scan_cache (env : StartupEnv) (expectedName : string) (cleanCacheBefore : Z)
    (files : list (string * CacheFile)) (found : bool) : M (bool * option string) :=
  match files with
  | [] => ret (found, None)
  | file :: rest =>
      if String.eqb file.1 expectedName then
        scan_cache env expectedName cleanCacheBefore rest true
      else if modTime file.2 <? cleanCacheBefore then
        log_Info "removing unknown old machine cache" [("name", VStr file.1)] ;;
        match env_Remove env file.1 with
        | Some er => ret (found, Some er)
        | None =>
            d <- gets cacheDir ;;
            modify (with_cacheDir (delete file.1 d)) ;;
            scan_cache env expectedName cleanCacheBefore rest found
        end
      else
        log_Info "keeping unknown old machine cache" [("name", VStr file.1)] ;;
        scan_cache env expectedName cleanCacheBefore rest found
  end.

(** [os.Chtimes(file, now, now)] on a file of the directory. *)
Definition Chtimes (env : StartupEnv) (name : string) : M (option ChtimesError) :=
  match env_Chtimes env with
  | Some er => ret (Some er)
  | None =>
      d <- gets cacheDir ;;
      match d !! name with
      | None => ret (Some ErrNotExist)
      | Some f =>
          modify (with_cacheDir (<[name := {| content := content f; modTime := env_now_touch env |}]> d)) ;;
          ret None
      end
  end.

(** [DeserializeAndReplaceState(file)]: on an error the machine is as before. *)
Definition DeserializeAndReplaceState (env : StartupEnv) (name : string) : M (option string) :=
  match env_read env with
  | Some er => ret (Some er)
  | None =>
      d <- gets cacheDir ;;
      match d !! name with
      | None => ret (Some "no such file")
      | Some f =>
          match deserialize (content f) with
          | None => ret (Some "bad machine state")
          | Some m => modify (with_v (set_baseMachine m)) ;; ret None
          end
      end
  end.

(** [SerializeState(path)]: on success the file holds the whole snapshot; on
    an error it may be left with other bytes. *)
Definition SerializeState (env : StartupEnv) (name : string) : M (option string) :=
  m <- gets (fun w => baseMachine (v w)) ;;
  d <- gets cacheDir ;;
  match env_write env with
  | Some (er, torn) =>
      match torn with
      | Some bytes =>
          modify (with_cacheDir (<[name := {| content := bytes; modTime := env_now_write env |}]> d))
      | None => ret tt
      end ;;
      ret (Some er)
  | None =>
      modify (with_cacheDir (<[name := {| content := serialize m; modTime := env_now_write env |}]> d)) ;;
      ret None
  end.

(** [os.Rename]: one step that moves the file, or an error. *)
Definition Rename (env : StartupEnv) (oldpath newpath : string) : M (option string) :=
  match env_Rename env with
  | Some er => ret (Some er)
  | None =>
      d <- gets cacheDir ;;
      match d !! oldpath with
      | None => ret (Some "no such file")
      | Some f => modify (with_cacheDir (<[newpath := f]> (delete oldpath d))) ;; ret None
      end
  end.

(** Lines 600-617: the machine is run to its first host I/O and saved. *)
Definition recompute_and_save (env : StartupEnv) (ctx : Ctx) (hash : Hash) (file : string)
    : M (option string) :=
  m <- gets (fun w => baseMachine (v w)) ;;
  let '(m', err) := StepUntilHostIo m ctx in
  modify (with_v (set_baseMachine m')) ;;
  match err with
  | Some er => ret (Some (error_text er))
  | None =>
      log_Info "saving initial machine cache" [("hash", VHash hash)] ;;
      let wipFile := file +:+ ".wip" in
      err <- SerializeState env wipFile ;;
      match err with
      | Some er => ret (Some er)
      | None =>
          err <- Rename env wipFile file ;;
          match err with
          | Some er => ret (Some er)
          | None => ret None
          end
      end
  end.

(** Lines 573-598: [Some r] when the function returns [r] here, [None] when it
    goes on to recompute the machine. *)
Definition try_cached (env : StartupEnv) (hash : Hash) (file : string) (foundInCache : bool)
    : M (option (option string)) :=
  found <- (if foundInCache then
              err <- Chtimes env file ;;
              match err with
              | None => ret (inl true)
              | Some ErrNotExist => ret (inl false)
              | Some (ErrChtimes er) => ret (inr er)
              end
            else ret (inl false)) ;;
  match found with
  | inr er => ret (Some (Some er))
  | inl true =>
      log_Info "found cached initial machine" [("hash", VHash hash)] ;;
      err <- DeserializeAndReplaceState env file ;;
      match err with
      | Some er =>
          log_Info "failed to load initial machine cache; will reexecute" [("err", VStr er)] ;;
          ret None
      | None => ret (Some None)
      end
  | inl false =>
      log_Info "didn't find initial machine in cache" [("hash", VHash hash)] ;;
      ret None
  end.

(** The directory of the model is the cache directory; a file is named by its
    name in it. *)
Definition cacheBaseMachineUntilHostIo (env : StartupEnv) (ctx : Ctx) : M (option string) :=
  m <- gets (fun w => baseMachine (v w)) ;;
  let hash := MachineHash m in
  let expectedName := Hash_String hash +:+ ".bin" in
  match env_MkdirAll env with
  | Some er => ret (Some er)
  | None =>
      match env_ReadDir env with
      | Some er => ret (Some er)
      | None =>
          files <- gets (fun w => ReadDir (cacheDir w)) ;;
          let cleanCacheBefore := env_now_scan env - day in
          scanned <- scan_cache env expectedName cleanCacheBefore files false ;;
          match scanned.2 with
          | Some er => ret (Some er)
          | None =>
              cached <- try_cached env hash expectedName scanned.1 ;;
              match cached with
              | Some r => ret r
              | None => recompute_and_save env ctx hash expectedName
              end
          end
      end
  end.

Definition Start (env : StartupEnv) (ctx : Ctx) : M (option string) :=
  err <- cacheBaseMachineUntilHostIo env ctx ;;
  match err with
  | Some er => ret (Some er)
  | None =>
      emit (EvGo "startProgressLoop") ;;
      emit (EvGo "startValidationLoop") ;;
      ret None
  end.


(** ** The loop goroutines *)

(** What the [select] of a loop goroutine yields: a value of its wake-up
    channel, the closed channel ([ok] false), or the end of the context. *)
Inductive LoopSelect :=
| Woken
| WakeChanClosed
| CtxDone.

(** A call of a function whose body ends by [return]: the caller goes on. *)
Definition call (m : M unit) : M unit :=
  fun w => match m w with
           | (inr Return, w') => (inl tt, w')
           | r => r
           end.

(** The goroutine of [startValidationLoop] (lines 454-464), along what its
    [select] yields turn by turn; at the end of the list it is waiting in
    [select]. *)
Fixpoint validationLoop (selects : list LoopSelect) : M unit :=
  match selects with
  | [] => ret tt
  | Woken :: rest => call sendValidations ;; validationLoop rest
  | WakeChanClosed :: _ => leave Return
  | CtxDone :: _ => leave Return
  end.

(** The goroutine of [startProgressLoop] (lines 513-523). *)
Fixpoint progressLoop (selects : list LoopSelect) : M unit :=
  match selects with
  | [] => ret tt
  | Woken :: rest => call ProgressValidated ;; progressLoop rest
  | WakeChanClosed :: _ => leave Return
  | CtxDone :: _ => leave Return
  end.

(** ** [WaitForBlock] *)

(** What the [select] of a turn of [WaitForBlock] yields: the timer has fired
    (with the value of [v.blocksValidated] read next, line 639), a value has
    arrived on [progressChan], or the channel is closed (the zero value, with
    [ok] false). *)
Inductive WaitSelect :=
| TimeoutFired (blocksValidatedNow : Z)
| Received (block : Z)
| ProgressChanClosed.

(** [WaitForBlock], along what it observes turn by turn: the value of
    [v.blocksValidated] read at the head of the loop (line 634) and what the
    [select] yields.  [None]: it is still waiting at the end of the list. *)
Fixpoint WaitForBlock (blockNumber : Z) (turns : list (Z * WaitSelect)) : option bool :=
  match turns with
  | [] => None
  | (blocksValidatedSeen, selected) :: rest =>
      if blocksValidatedSeen >=? blockNumber then Some true
      else
        match selected with
        | TimeoutFired blocksValidatedNow =>
            if blocksValidatedNow >=? blockNumber then Some true else Some false
        | Received block =>
            if block >=? blockNumber then Some true
            else WaitForBlock blockNumber rest
        | ProgressChanClosed =>
            if 0 >=? blockNumber then Some true else Some false
        end
  end.

(** The values that a turn of [WaitForBlock] compares with [blockNumber]. *)
Definition observed (turn : Z * WaitSelect) : list Z :=
  turn.1 :: match turn.2 with
            | TimeoutFired now => [now]
            | Received block => [block]
            | ProgressChanClosed => [0]
            end.

(** ** The artifact decision, as a list property *)

(** The numbers of [blocks] in front of the first one above [n]. *)
Fixpoint not_above_prefix (n : Z) (blocks : list Z) : list Z :=
  match blocks with
  | [] => []
  | b :: rest => if b >? n then [] else b :: not_above_prefix n rest
  end.


(** ** Traces, as pure functions of the inputs *)

Definition add_events (new : list Event) (w : World) : World :=
  {| v := v w; validatorStatic := validatorStatic w; heap := heap w;
     cacheDir := cacheDir w; dirHistory := dirHistory w; events := events w ++ new |}.

(** What [fs_seq] records and returns. *)
Fixpoint fs_seq_trace (ops : list FsOp) : list Event * option string :=
  match ops with
  | [] => ([], None)
  | op :: rest =>
      match fs_result op with
      | Some er => ([EvFs op (Some er)], Some er)
      | None => let '(evs, r) := fs_seq_trace rest in (EvFs op None :: evs, r)
      end
  end.

(** What [writeToFile] records and returns. *)
Definition writeToFile_trace (cfg : BlockValidatorConfig) (e : validationEntry)
    (start end_ : PosInSequencer) (c_preimages : CMultipleByteArrays)
    (sequencerCByte delayedCByte : CByteArray) : list Event * option string :=
  let outDirPath := artifact_dir cfg e in
  let cmdFile := filepath_Join [outDirPath; "run-prover.sh"] in
  match fs_result (OpMkdirAll outDirPath) with
  | Some er => ([EvFs (OpMkdirAll outDirPath) (Some er)], Some er)
  | None =>
      match fs_result (OpCreate cmdFile) with
      | Some er => ([EvFs (OpMkdirAll outDirPath) None; EvFs (OpCreate cmdFile) (Some er)], Some er)
      | None =>
          let '(evs, r) :=
            fs_seq_trace (artifact_ops cfg outDirPath e start end_ c_preimages sequencerCByte delayedCByte) in
          (EvFs (OpMkdirAll outDirPath) None :: EvFs (OpCreate cmdFile) None :: evs
             ++ [EvFs (OpClose cmdFile) None], r)
      end
  end.

(** The lines 388-393, when the block is written: the calls of [writeToFile]
    and the log line of a failed write. *)
Definition artifact_trace (cfg : BlockValidatorConfig) (e : validationEntry)
    (start end_ : PosInSequencer) (c_preimages : CMultipleByteArrays)
    (sequencerCByte delayedCByte : CByteArray) : list Event :=
  let '(evs, r) := writeToFile_trace cfg e start end_ c_preimages sequencerCByte delayedCByte in
  evs ++ match r with
         | Some er => [EvLog LvlError "failed to write file" [("err", VStr er)]]
         | None => []
         end.

(** The two log lines of a failed validation (lines 396-397). *)
Definition failure_log (e : validationEntry) (start end_ : PosInSequencer) (gsEnd : GlobalState)
    : list Event :=
  [EvLog LvlError "validation failed"
     [("startPos", VNum (Pos start));
      ("batch_exp", VNum (BatchAfter end_)); ("batch_actual", VNum (gsBatch gsEnd));
      ("pos_exp", VNum (PosAfter end_)); ("pos_actual", VNum (gsPosInBatch gsEnd));
      ("hash_exp", VHash (BlockHash e)); ("hash_actual", VHash (gsBlockHash gsEnd))];
   EvLog LvlError "validation failed" [("expHeader", VHeader (BlockHeader e))]].


(** The world after [release_entry]. *)
Definition released (p : nat) (e : validationEntry) (w : World) : World :=
  let r := foldl release_one (preimageCache (v w), None) (Preimages e) in
  add_events
    [EvLog LvlInfo "validation succeeded" [("blockNr", VNum (BlockNumber e))];
     EvSend checkProgressChan; EvSend sendValidationsChan]
    (with_heap (fun h => <[p := set_Valid true (set_Preimages [] (set_MsgsAllocated [] e))]> h)
       (with_v (fun b => set_atomicValidationsRunning (add32 (atomicValidationsRunning b) (-1)) b)
          (add_events
             (match r.2 with
              | Some er => [EvLog LvlError "validator failed to remove from cache" [("err", VStr er)]]
              | None => []
              end ++ map (fun m => EvDestroyCByteArray (data m)) (MsgsAllocated e))
             (with_v (set_preimageCache r.1) w)))).


(** ** Runs *)

(** The world a body leaves. *)
Definition after {A} (m : M A) (w : World) : World := (m w).2.

(** Calls of [NewBlockValidator], one after the other, with what each
    returned. *)
Fixpoint NewBlockValidator_calls (cfgs : list BlockValidatorConfig) (w : World)
    : list (BlockValidator + Exit) :=
  match cfgs with
  | [] => []
  | cfg :: rest =>
      (NewBlockValidator cfg w).1 :: NewBlockValidator_calls rest (after (NewBlockValidator cfg) w)
  end.

(** The validator that [NewBlockValidator] builds. *)
Definition new_validator (cfg : BlockValidatorConfig) : BlockValidator :=
  {| preimageCache := ∅; posToValidate := []; posNext := 0; batchNrValidated := 0;
     blocksValidated := 0; posNextSend := 0;
     baseMachine :=
       arbitrator_load_machine (filepath_Join [RootPath cfg; ProverBinPath cfg])
         (map (fun module => filepath_Join [RootPath cfg; module]) (ModulePaths cfg));
     config := cfg; atomicValidationsRunning := 0;
     concurrentRunsLimit :=
       to_int32 (if ConcurrentRunsLimit cfg =? 0 then runtime_NumCPU else ConcurrentRunsLimit cfg) |}.

(** The process before any validator exists, and once the first one is
    installed. *)
Definition process_start (b : BlockValidator) : World :=
  {| v := b;
     validatorStatic := {| initialized := false; validationEntries := ∅; sequencerBatches := ∅ |};
     heap := []; cacheDir := ∅; dirHistory := [∅]; events := [] |}.

Definition install (b : BlockValidator) (w : World) : World := with_v (fun _ => b) w.

(** [NewBlockValidator] at the start of a process, its result installed. *)
Definition boot (cfg : BlockValidatorConfig) : World :=
  let w := process_start (new_validator cfg) in
  match NewBlockValidator cfg w with
  | (inl b, w') => install b w'
  | (inr _, w') => w'
  end.


(** The operations of the validator, as the steps of a run of the process.
    A task may be run for any entry and records, not only for dispatched
    ones. *)
Inductive Action :=
| ActNewBlock (header prevHeader : Header) (preimages : list (Hash * list byte)) (pos : Z)
| ActProcessBatches (batches : list (Z * list byte)) (posData : list PosInSequencer)
| ActSendValidations
| ActValidate (fuel : nat) (ctx : Ctx) (p : nat) (start end_ : PosInSequencer)
| ActProgressValidated
| ActStart (env : StartupEnv) (ctx : Ctx).

Definition run_action (a : Action) (w : World) : World :=
  match a with
  | ActNewBlock header prevHeader preimages pos => after (prepareBlock header prevHeader preimages pos) w
  | ActProcessBatches batches posData => after (ProcessBatches batches posData) w
  | ActSendValidations => after sendValidations w
  | ActValidate fuel ctx p start end_ => after (validate fuel ctx p start end_) w
  | ActProgressValidated => after ProgressValidated w
  | ActStart env ctx => after (Start env ctx) w
  end.

Definition run_actions (actions : list Action) (w : World) : World :=
  foldl (fun w a => run_action a w) w actions.

(** The values that [blocksValidated] took, in order: each assignment is
    followed by its publication on [progressChan]. *)
Fixpoint published (evs : list Event) : list Z :=
  match evs with
  | [] => []
  | EvPublish n :: rest => n :: published rest
  | _ :: rest => published rest
  end.

(** The positions of the entries whose tasks were started, in order. *)
Fixpoint dispatched (evs : list Event) : list Z :=
  match evs with
  | [] => []
  | EvGoValidate _ _ end_ :: rest => Pos end_ :: dispatched rest
  | _ :: rest => dispatched rest
  end.

(** ** The progress tracker, as pure functions of the world *)

(** The entry at [posNext], if the table has one. *)
Definition next_entry (w : World) : option validationEntry :=
  match validationEntries (validatorStatic w) !! posNext (v w) with
  | Some p => heap w !! p
  | None => None
  end.

(** The entry at [posNext], if it is there, valid, and numbered one more than
    [blocksValidated]. *)
Definition ready_entry (w : World) : option validationEntry :=
  match next_entry w with
  | Some e =>
      if Valid e && (BlockNumber e =? add64 (blocksValidated (v w)) 1) then Some e else None
  | None => None
  end.

(** What [evict_batches] leaves of the registry, and what it records. *)
Fixpoint evict_result (n : nat) (batch : Z) (m : gmap Z CByteArray)
    : gmap Z CByteArray * list Event :=
  match n with
  | O => (m, [])
  | S n' =>
      let ev := match m !! batch with
                | None => EvLog LvlWarn "didn't find sequencer batch" [("number", VNum batch)]
                | Some cbyte => EvDestroyCByteArray cbyte
                end in
      let r := evict_result n' (batch + 1) (delete batch m) in
      (r.1, ev :: r.2)
  end.

(** The world after a turn of [ProgressValidated] that takes the entry [e]. *)
Definition advanced (e : validationEntry) (w : World) : World :=
  let r := evict_result (Z.to_nat (SeqMsgNr e - batchNrValidated (v w))) (batchNrValidated (v w))
             (sequencerBatches (validatorStatic w)) in
  add_events (r.2 ++ [EvPublish (BlockNumber e)])
    (with_v (fun b => set_blocksValidated (BlockNumber e) (set_posNext (add64 (EntryPos e) 1) b))
       (with_static (fun g =>
          set_sequencerBatches r.1
            (set_validationEntries (delete (posNext (v w)) (validationEntries g)) g)) w)).


(** ** Frames *)

(** [keeps R m]: the world that [m] leaves is related by [R] to the one it
    started in. *)
Definition keeps (R : World -> World -> Prop) {A} (m : M A) : Prop :=
  forall w, R w (m w).2.

(** What the progress tracker owns is untouched: the counter of validated
    blocks and its publications. *)
Definition progress_kept (w w' : World) : Prop :=
  blocksValidated (v w') = blocksValidated (v w) /\
  published (events w') = published (events w).

(** What the dispatcher owns is untouched: the next position to send and the
    tasks started. *)
Definition dispatch_kept (w w' : World) : Prop :=
  posNextSend (v w') = posNextSend (v w) /\
  dispatched (events w') = dispatched (events w).

(** What nothing writes after the construction: the flag of the constructor
    and the lower bound of the eviction loop. *)
Definition fixed_kept (w w' : World) : Prop :=
  initialized (validatorStatic w') = initialized (validatorStatic w) /\
  batchNrValidated (v w') = batchNrValidated (v w).

Definition owners_kept (w w' : World) : Prop :=
  progress_kept w w' /\ dispatch_kept w w' /\ fixed_kept w w'.


(** The records that belong to neither owner. *)
Definition quiet (ev : Event) : bool :=
  match ev with
  | EvPublish _ | EvGoValidate _ _ _ => false
  | _ => true
  end.


(** The counter counts up: the [k]-th value it took is [k] (modulo 2^64), and
    it holds the last of them. *)
Definition counts_up (w : World) : Prop :=
  published (events w)
    = map (fun i => wrap64 (Z.of_nat i)) (List.seq 1 (length (published (events w))))
  /\ blocksValidated (v w) = wrap64 (Z.of_nat (length (published (events w)))).


(** ** The dispatcher, as pure functions of the world *)

(** What a turn of [sendValidations] dispatches, if it does: the entry's
    pointer, the entry, the start record (the head of the queue), the end
    record and its index in the queue. *)
Definition dispatch_target (w : World)
    : option (nat * validationEntry * PosInSequencer * PosInSequencer * nat) :=
  if atomicValidationsRunning (v w) >=? concurrentRunsLimit (v w) then None
  else
    match posToValidate (v w) with
    | [] => None
    | head :: _ =>
        if negb (Pos head =? posNextSend (v w)) then None
        else
          match validationEntries (validatorStatic w) !! posNextSend (v w) with
          | None => None
          | Some p =>
              match heap w !! p with
              | None => None
              | Some e =>
                  let idx := StupidSearchPos (posToValidate (v w)) (EntryPos e) in
                  match posToValidate (v w) !! idx with
                  | None => None
                  | Some end_ =>
                      if negb (Pos end_ =? EntryPos e) then None
                      else Some (p, e, head, end_, idx)
                  end
              end
          end
    end.

(** The world after a turn that dispatches. *)
Definition sent (t : nat * validationEntry * PosInSequencer * PosInSequencer * nat)
    (w : World) : World :=
  let '(p, e, head, end_, idx) := t in
  with_v (fun b =>
            set_posToValidate (drop (S idx) (posToValidate b))
              (set_posNextSend (add64 (EntryPos e) 1)
                 (set_atomicValidationsRunning (add32 (atomicValidationsRunning b) 1) b)))
    (add_events [EvGoValidate p head end_] w).



(** A position below the largest [uint64]: adding one to it does not wrap. *)
Definition below_max (r : PosInSequencer) : Prop := 0 <= Pos r < max_uint64.


(** ** The canonical name of the cache *)

(** From [w] to [w'] every new state of the directory has, under [name], the
    bytes that [w] has there. *)
Definition canonical_kept (name : string) (w w' : World) : Prop :=
  exists new,
    dirHistory w' = dirHistory w ++ new /\
    Forall (fun d => content <$> d !! name = content <$> cacheDir w !! name) new /\
    content <$> cacheDir w' !! name = content <$> cacheDir w !! name.


(** The file that a whole snapshot of [m] makes. *)
Definition snapshot_file (env : StartupEnv) (m : Mach) : CacheFile :=
  {| content := serialize m; modTime := env_now_write env |}.


(** ** Scenarios *)


(** Block 1 at position 0: its header on parent hash 5, one preimage, one
    batch, the position record, and the dispatch of its task. *)
Definition one_block_actions (batch : Z) : list Action :=
  [ActNewBlock (Sample.header 1 5) (Sample.header 0 4) [(77, [Byte.x01])] 0;
   ActProcessBatches [(0, [Byte.x2a]); (1, [Byte.x2b])] [Sample.record 0 batch 0];
   ActSendValidations].

Definition one_block_dispatched (cfg : BlockValidatorConfig) (batch : Z) : World :=
  run_actions (one_block_actions batch) (boot cfg).

(** The block and its position record, before the dispatcher has run. *)
Definition one_block_queued (cfg : BlockValidatorConfig) (batch : Z) : World :=
  run_actions (take 2 (one_block_actions batch)) (boot cfg).




(** The process with the given cache directory on disk. *)
Definition cache_world (cfg : BlockValidatorConfig) (d : gmap string CacheFile) : World :=
  {| v := v (boot cfg); validatorStatic := validatorStatic (boot cfg); heap := [];
     cacheDir := d; dirHistory := [d]; events := events (boot cfg) |}.

(** No record of a call of the operating system. *)
Definition no_fs_call (evs : list Event) : bool :=
  forallb (fun ev => match ev with EvFs _ _ => false | _ => true end) evs.


(** The validator is as it was. *)
Definition v_kept (w w' : World) : Prop := v w' = v w.


(** ** The entry table and the heap of entries *)

(** Every value of the table points to an entry of the heap, and the entry is
    stored under its own position. *)
Definition table_ok (w : World) : Prop :=
  forall k p, validationEntries (validatorStatic w) !! k = Some p ->
    exists e, heap w !! p = Some e /\ EntryPos e = k.

(** The entries stay where they are and keep their position. *)
Definition heap_kept (w w' : World) : Prop :=
  forall p e, heap w !! p = Some e ->
    exists e', heap w' !! p = Some e' /\ EntryPos e' = EntryPos e.

(** The log line of a table value that is no entry (lines 438 and 478). *)
Definition bad_entry_log (ev : Event) : bool :=
  match ev with
  | EvLog _ msg _ =>
      String.eqb msg "bad entry trying to validate batch"
      || String.eqb msg "bad entry trying to advance validated counter"
  | _ => false
  end.

(** The record of a started task is sound: its start and end record are the
    same record, and it points to an entry whose position is the record's. *)
Definition task_ok (w : World) (ev : Event) : Prop :=
  match ev with
  | EvGoValidate p start end_ =>
      start = end_ /\ exists e, heap w !! p = Some e /\ EntryPos e = Pos end_
  | _ => bad_entry_log ev = false
  end.

Definition tidy (w : World) : Prop := table_ok w /\ Forall (task_ok w) (events w).

(** The records that start no task and report no bad entry. *)
Definition calm (ev : Event) : bool :=
  match ev with
  | EvGoValidate _ _ _ => false
  | _ => negb (bad_entry_log ev)
  end.

Definition tidy_kept (w w' : World) : Prop :=
  heap_kept w w' /\ (table_ok w -> table_ok w') /\
  exists new, events w' = events w ++ new /\ forallb calm new = true.


(** The buffers handed to [DestroyCByteArray], in order. *)
Fixpoint destroyed (evs : list Event) : list CByteArray :=
  match evs with
  | [] => []
  | EvDestroyCByteArray b :: rest => b :: destroyed rest
  | _ :: rest => destroyed rest
  end.


(** ** What a task touches *)

(** The arrays handed to [C.free], in order. *)
Fixpoint freed (evs : list Event) : list CMultipleByteArrays :=
  match evs with
  | [] => []
  | EvFree arrays :: rest => arrays :: freed rest
  | _ :: rest => freed rest
  end.

Definition free_kept (w w' : World) : Prop := freed (events w') = freed (events w).

(** The entry is of the same block, and valid if it was. *)
Definition same_block (e e' : validationEntry) : Prop :=
  BlockNumber e' = BlockNumber e /\ PrevBlockHash e' = PrevBlockHash e /\
  BlockHash e' = BlockHash e /\ BlockHeader e' = BlockHeader e /\
  HasDelayedMsg e' = HasDelayedMsg e /\ DelayedMsgNr e' = DelayedMsgNr e /\
  EntryPos e' = EntryPos e /\ (Valid e = true -> Valid e' = true).

(** The validator is as it was, but for the preimage cache and the counter of
    running tasks. *)
Definition same_validator (b b' : BlockValidator) : Prop :=
  set_preimageCache (preimageCache b) (set_atomicValidationsRunning (atomicValidationsRunning b) b')
  = b.

(** What the task of the entry at [p] leaves as it is. *)
Definition task_kept (p : nat) (w w' : World) : Prop :=
  validatorStatic w' = validatorStatic w /\
  cacheDir w' = cacheDir w /\
  same_validator (v w) (v w') /\
  length (heap w') = length (heap w) /\
  (forall q, q <> p -> heap w' !! q = heap w !! q) /\
  (forall e, heap w !! p = Some e -> exists e', heap w' !! p = Some e' /\ same_block e e').


(** The number of wake-ups that a loop goroutine gets before its channel is
    closed or its context ends. *)
Fixpoint woken (selects : list LoopSelect) : nat :=
  match selects with
  | Woken :: rest => S (woken rest)
  | _ => 0%nat
  end.

(** The turn ends the wait whatever it compares: the timer has fired or the
    channel is closed. *)
Definition final_turn (turn : Z * WaitSelect) : bool :=
  match turn.2 with
  | Received _ => false
  | _ => true
  end.


(** ** Positions and block numbers in a run *)

(** The tasks were started for the positions 0, 1, 2, ... (modulo 2^64), and
    [posNextSend] is the next one. *)
Definition consecutive (w : World) : Prop :=
  dispatched (events w)
    = map (fun i => wrap64 (Z.of_nat i)) (List.seq 0 (length (dispatched (events w))))
  /\ posNextSend (v w) = wrap64 (Z.of_nat (length (dispatched (events w)))).

(** The position of the progress tracker is untouched. *)
Definition posNext_kept (w w' : World) : Prop := posNext (v w') = posNext (v w).


(** ** The accounts of the running tasks *)

(** The log line of a task that ends normally (line 412). *)
Definition is_success (ev : Event) : bool :=
  match ev with
  | EvLog _ msg _ => String.eqb msg "validation succeeded"
  | _ => false
  end.

(** The number of tasks that ended normally. *)
Fixpoint succeeded (evs : list Event) : nat :=
  match evs with
  | [] => 0%nat
  | ev :: rest => ((if is_success ev then 1 else 0) + succeeded rest)%nat
  end.

(** The counter of running tasks is the number of tasks started minus the
    number of tasks ended normally, as an [int32]. *)
Definition accounted (w : World) : Prop :=
  atomicValidationsRunning (v w)
  = to_int32 (Z.of_nat (length (dispatched (events w))) - Z.of_nat (succeeded (events w))).

(** No task is started and none ends normally. *)
Definition slots_kept (w w' : World) : Prop :=
  atomicValidationsRunning (v w') = atomicValidationsRunning (v w) /\
  dispatched (events w') = dispatched (events w) /\
  succeeded (events w') = succeeded (events w).


(** ** The goroutines that were started *)

(** The loop goroutines started, in order. *)
Fixpoint started_loops (evs : list Event) : list string :=
  match evs with
  | [] => []
  | EvGo what :: rest => what :: started_loops rest
  | _ :: rest => started_loops rest
  end.

(** The body runs to its last statement: it does not return early, exit or
    panic. *)
Definition falls_through {A} (m : M A) : Prop := forall w, exists a, (m w).1 = inl a.

(** What the start-up before the loops leaves as it is: the globals, the
    entries, the validator but for its base machine, and the loops started. *)
Definition startup_kept (w w' : World) : Prop :=
  validatorStatic w' = validatorStatic w /\ heap w' = heap w /\
  set_baseMachine (baseMachine (v w)) (v w') = v w /\
  started_loops (events w') = started_loops (events w).

(** * Properties *)

(** ** The monad *)

Lemma bind_inl {A B} (m : M A) (k : A -> M B) w a w' :
  m w = (inl a, w') -> bind m k w = k a w'.
Proof. intros Hm. unfold bind. by rewrite Hm. Qed.

Lemma bind_inr {A B} (m : M A) (k : A -> M B) w x w' :
  m w = (inr x, w') -> bind m k w = (inr x, w').
Proof. intros Hm. unfold bind. by rewrite Hm. Qed.

(** ** [writeThisBlock] *)

Lemma scan_BlocksToRecord_prefix blocks n b :
  scan_BlocksToRecord blocks n b = b || bool_decide (n ∈ not_above_prefix n blocks).
Proof.
  induction blocks as [|x blocks IH]; cbn [scan_BlocksToRecord not_above_prefix].
  - rewrite bool_decide_eq_false_2; [by rewrite orb_false_r | by apply not_elem_of_nil].
  - destruct (x >? n) eqn:Hgt.
    + rewrite bool_decide_eq_false_2; [by rewrite orb_false_r | by apply not_elem_of_nil].
    + destruct (x =? n) eqn:Heq.
      * apply Z.eqb_eq in Heq. subst x.
        rewrite bool_decide_eq_true_2; [by rewrite orb_true_r | by left].
      * rewrite IH. f_equal. apply Z.eqb_neq in Heq.
        apply bool_decide_ext. rewrite elem_of_cons.
        split; [by right | intros [Hx|Hin]; [congruence | done]].
Qed.

Lemma not_above_prefix_sorted blocks n :
  Sorted Z.le blocks -> n ∈ not_above_prefix n blocks <-> n ∈ blocks.
Proof.
  intros Hs. apply Sorted_StronglySorted in Hs; [|intros ???; lia].
  induction Hs as [|x blocks Hs IH Hall]; simpl; [done|].
  destruct (x >? n) eqn:Hgt.
  - split; [intros Hnil; by apply elem_of_nil in Hnil|].
    intros [->|Hin]%elem_of_cons; [lia|].
    rewrite Forall_forall in Hall. apply Hall in Hin. lia.
  - rewrite !elem_of_cons, IH. done.
Qed.


(** ** Evaluation lemmas *)

(** Unfolds the monad's operations and reduces what they leave. *)
Ltac msimp :=
  repeat (progress (unfold log_Info, log_Warn, log_Error, emit, fs_call, bind, ret,
                    gets, modify, leave));
  cbv beta iota zeta.

Lemma World_eq (a b : World) :
  v a = v b -> validatorStatic a = validatorStatic b -> heap a = heap b ->
  cacheDir a = cacheDir b -> dirHistory a = dirHistory b -> events a = events b ->
  a = b.
Proof. destruct a, b; simpl; intros; by subst. Qed.

(** Reads a field through the updates of a world. *)
Ltac wfields :=
  cbn [v validatorStatic heap cacheDir dirHistory events
       with_v with_static with_heap with_cacheDir with_event add_events].

(** The same, through the updates of the validator and of the globals. *)
Ltac vfields :=
  cbn [v validatorStatic heap cacheDir dirHistory events
       with_v with_static with_heap with_cacheDir with_event add_events
       preimageCache posToValidate posNext batchNrValidated blocksValidated posNextSend
       baseMachine config atomicValidationsRunning concurrentRunsLimit
       set_preimageCache set_posToValidate set_posNext set_blocksValidated set_posNextSend
       set_baseMachine set_atomicValidationsRunning
       initialized validationEntries sequencerBatches
       set_initialized set_validationEntries set_sequencerBatches].

Ltac world_eq := apply World_eq; wfields.

Lemma with_event_add ev w : with_event ev w = add_events [ev] w.
Proof. reflexivity. Qed.

Lemma add_events_add a b w : add_events b (add_events a w) = add_events (a ++ b) w.
Proof. unfold add_events; simpl. by rewrite app_assoc. Qed.

Lemma add_events_nil w : add_events [] w = w.
Proof. destruct w. unfold add_events; simpl. by rewrite app_nil_r. Qed.

Lemma deref_Some p w e : heap w !! p = Some e -> deref p w = (inl e, w).
Proof. intros Hp. unfold deref. by rewrite Hp. Qed.

Lemma update_entry_Some p f w e :
  heap w !! p = Some e ->
  update_entry p f w = (inl tt, with_heap (fun h => <[p := f e]> h) w).
Proof. intros Hp. unfold update_entry, bind. by rewrite (deref_Some _ _ _ Hp). Qed.

Lemma fs_seq_eq ops w :
  fs_seq ops w = (inl (fs_seq_trace ops).2, add_events (fs_seq_trace ops).1 w).
Proof.
  revert w. induction ops as [|op ops IH]; intros w; simpl.
  - by rewrite add_events_nil.
  - msimp.
    destruct (fs_result op) as [er|]; simpl; [done|].
    rewrite IH. destruct (fs_seq_trace ops) as [evs r]; simpl.
    by rewrite with_event_add, add_events_add.
Qed.

Lemma writeToFile_eq e start end_ cp sq dl w :
  writeToFile e start end_ cp sq dl w =
  (inl (writeToFile_trace (config (v w)) e start end_ cp sq dl).2,
   add_events (writeToFile_trace (config (v w)) e start end_ cp sq dl).1 w).
Proof.
  unfold writeToFile, writeToFile_trace. msimp.
  destruct (fs_result (OpMkdirAll _)) as [er|]; [done|].
  destruct (fs_result (OpCreate _)) as [er|];
    [by rewrite !with_event_add, add_events_add|].
  rewrite fs_seq_eq.
  destruct (fs_seq_trace _) as [evs r]. cbn [fst snd].
  rewrite !with_event_add, !add_events_add. do 2 f_equal.
Qed.


Lemma scan_BlocksToRecord_true blocks n : scan_BlocksToRecord blocks n true = true.
Proof. by rewrite scan_BlocksToRecord_prefix. Qed.

Lemma destroy_all_eq msgs w :
  destroy_all msgs w = (inl tt, add_events (map (fun m => EvDestroyCByteArray (data m)) msgs) w).
Proof.
  revert w. induction msgs as [|m msgs IH]; intros w; simpl.
  - by rewrite add_events_nil.
  - msimp. rewrite IH. by rewrite with_event_add, add_events_add.
Qed.

Lemma validate_finish_invalid p start end_ cp sq dl mach w e :
  heap w !! p = Some e ->
  resultValid (GetGlobalState mach) end_ e = false ->
  validate_finish p start end_ cp sq dl mach w =
  (inr (Panic "validation failed. quitting.."),
   add_events (artifact_trace (config (v w)) e start end_ cp sq dl
               ++ failure_log e start end_ (GetGlobalState mach)) w).
Proof.
  intros Hp Hv. unfold validate_finish.
  rewrite (bind_inl _ _ _ _ _ (deref_Some _ _ _ Hp)).
  msimp. rewrite Hv.
  unfold writeThisBlock. cbn [negb]. rewrite scan_BlocksToRecord_true.
  unfold ParseGlobalState, write_artifact, abort_if_invalid. msimp.
  rewrite writeToFile_eq. unfold artifact_trace, failure_log.
  destruct (writeToFile_trace _ _ _ _ _ _ _) as [evs [er|]];
    cbn [fst snd negb]; cbv beta iota zeta;
    rewrite !with_event_add, !add_events_add; do 2 f_equal;
    rewrite <- ?app_assoc; simpl; by rewrite ?app_nil_r.
Qed.


Lemma release_entry_eq p e w :
  heap w !! p = Some e ->
  release_entry p e w = (inl tt, released p e w).
Proof.
  intros Hp. unfold release_entry, released, RemoveFromCache. msimp.
  destruct (foldl release_one _ _) as [c' err]. msimp. cbn [fst snd].
  assert (Hlt : (p < length (heap w))%nat) by (by eapply lookup_lt_Some).
  assert (Hstep : forall (W : World) (x : validationEntry) f,
             heap W !! p = Some x ->
             update_entry p f W = (inl tt, with_heap (fun h => <[p := f x]> h) W))
    by (intros; by apply update_entry_Some).
  destruct err as [er|]; cbv beta iota zeta; rewrite destroy_all_eq;
    rewrite (Hstep _ e) by exact Hp;
    rewrite (Hstep _ (set_MsgsAllocated [] e))
      by (wfields; apply list_lookup_insert_eq; exact Hlt);
    rewrite (Hstep _ (set_Preimages [] (set_MsgsAllocated [] e)))
      by (wfields; rewrite list_insert_insert_eq; apply list_lookup_insert_eq; exact Hlt);
    f_equal; world_eq; rewrite ?list_insert_insert_eq, <- ?app_assoc; reflexivity.
Qed.


Lemma validate_finish_valid p start end_ cp sq dl mach w e :
  heap w !! p = Some e ->
  resultValid (GetGlobalState mach) end_ e = true ->
  validate_finish p start end_ cp sq dl mach w =
  (inl tt,
   released p e
     (add_events (if writeThisBlock (config (v w)) e true
                  then artifact_trace (config (v w)) e start end_ cp sq dl else []) w)).
Proof.
  intros Hp Hv. unfold validate_finish.
  rewrite (bind_inl _ _ _ _ _ (deref_Some _ _ _ Hp)).
  msimp. rewrite Hv.
  unfold ParseGlobalState, write_artifact, abort_if_invalid. msimp.
  destruct (writeThisBlock _ _ _).
  - rewrite writeToFile_eq. unfold artifact_trace.
    destruct (writeToFile_trace _ _ _ _ _ _ _) as [evs [er|]];
      cbn [fst snd negb]; cbv beta iota zeta;
      rewrite ?with_event_add, ?add_events_add, ?app_nil_r;
      by apply release_entry_eq.
  - cbn [negb]. cbv beta iota zeta. rewrite add_events_nil. by apply release_entry_eq.
Qed.

(** ** The machine loop and the set-up of a task *)

Lemma run_machine_events fuel ctx n m s w r w' :
  run_machine fuel ctx n m s w = (r, w') -> exists evs, w' = add_events evs w.
Proof.
  revert m s w. induction fuel as [|fuel IH]; intros m s w; simpl.
  - destruct (IsRunning m); msimp; intros [= <- <-]; exists []; by rewrite add_events_nil.
  - destruct (IsRunning m); [|msimp; intros [= <- <-]; exists []; by rewrite add_events_nil].
    destruct (Step m ctx count) as [m' [er|]].
    + destruct (is_cancellation er); msimp; cbn [negb]; cbv beta iota zeta.
      * intros [= <- <-]. exists []. by rewrite add_events_nil.
      * intros [= <- <-]. eexists. by rewrite with_event_add.
    + msimp. intros Hrun. apply IH in Hrun as [evs ->].
      eexists. by rewrite with_event_add, add_events_add.
Qed.

Lemma run_machine_halted fuel ctx n m s w m' w' :
  run_machine fuel ctx n m s w = (inl m', w') -> IsRunning m' = false.
Proof.
  revert m s w. induction fuel as [|fuel IH]; intros m s w; simpl.
  - destruct (IsRunning m) eqn:Hr; msimp; [done|]. by intros [= <- <-].
  - destruct (IsRunning m) eqn:Hr; [|msimp; by intros [= <- <-]].
    destruct (Step m ctx count) as [m1 [er|]].
    + destruct (is_cancellation er); msimp; cbn [negb]; cbv beta iota zeta; done.
    + msimp. apply IH.
Qed.


Lemma validate_to_halt_inv fuel ctx p start end_ cp err w sq dl mach w1 :
  validate_to_halt fuel ctx p start end_ cp err w = (inl (sq, dl, mach), w1) ->
  exists e evs,
    heap w !! p = Some e /\ err = None /\
    sequencerBatches (validatorStatic w) !! BatchNum start = Some sq /\
    IsRunning mach = false /\
    w1 = add_events evs
           (with_heap (fun h => <[p := set_Running true (set_SeqMsgNr (BatchNum start) e)]> h) w).
Proof.
  unfold validate_to_halt. destruct err as [er|]; [msimp; done|].
  destruct (heap w !! p) as [e|] eqn:Hp;
    [|unfold bind at 1; unfold update_entry, bind at 1; unfold deref; rewrite Hp; done].
  assert (Hlt : (p < length (heap w))%nat) by (by eapply lookup_lt_Some).
  rewrite (bind_inl _ _ _ _ _ (update_entry_Some _ _ _ _ Hp)).
  erewrite bind_inl
    by (apply update_entry_Some; wfields; apply list_lookup_insert_eq; exact Hlt).
  erewrite bind_inl
    by (apply deref_Some; wfields; rewrite list_insert_insert_eq;
        apply list_lookup_insert_eq; exact Hlt).
  msimp. wfields.
  destruct (sequencerBatches (validatorStatic w) !! BatchNum start) as [seqCByte|] eqn:Hseq;
    [|done].
  set (W := with_heap _ (with_heap _ w)).
  assert (HW : W = with_heap
            (fun h => <[p := set_Running true (set_SeqMsgNr (BatchNum start) e)]> h) w).
  { subst W. world_eq; try reflexivity. by rewrite list_insert_insert_eq. }
  cbn [HasDelayedMsg set_Running set_SeqMsgNr DelayedMsgNr BlockNumber PrevBlockHash].
  destruct (HasDelayedMsg e).
  - destruct (GetDelayedMessageBytes (DelayedMsgNr e)) as [msg|er]; [|done].
    cbn [fst snd].
    destruct (run_machine _ _ _ _ _ _) as [[m'|x] w'] eqn:Hrun; [|done].
    intros [= <- <- <- <-].
    pose proof (run_machine_halted _ _ _ _ _ _ _ _ Hrun) as Hhalt.
    apply run_machine_events in Hrun as [evs ->].
    exists e, evs. by rewrite HW.
  - cbn [fst snd].
    destruct (run_machine _ _ _ _ _ _) as [[m'|x] w'] eqn:Hrun; [|done].
    intros [= <- <- <- <-].
    pose proof (run_machine_halted _ _ _ _ _ _ _ _ Hrun) as Hhalt.
    apply run_machine_events in Hrun as [evs ->].
    exists e, evs. by rewrite HW.
Qed.


Lemma validate_halted fuel ctx p start end_ w cp err w0 sq dl mach w1 :
  validate_checks p start end_ w = (inl (cp, err), w0) ->
  validate_to_halt fuel ctx p start end_ cp err w0 = (inl (sq, dl, mach), w1) ->
  validate fuel ctx p start end_ w =
  ((validate_finish p start end_ cp sq dl mach w1).1,
   add_events [EvFree cp] (validate_finish p start end_ cp sq dl mach w1).2).
Proof.
  intros Hc Hh. unfold validate. rewrite (bind_inl _ _ _ _ _ Hc).
  unfold defer. cbn [fst snd]. rewrite (bind_inl _ _ _ _ _ Hh). cbn [fst snd].
  destruct (validate_finish _ _ _ _ _ _ _ _) as [r w2]. by msimp.
Qed.

Lemma validate_to_halt_entry fuel ctx p start end_ cp err w sq dl mach w1 :
  validate_to_halt fuel ctx p start end_ cp err w = (inl (sq, dl, mach), w1) ->
  exists e, heap w !! p = Some e /\
            heap w1 !! p = Some (set_Running true (set_SeqMsgNr (BatchNum start) e)) /\
            v w1 = v w /\ validatorStatic w1 = validatorStatic w.
Proof.
  intros Hh. apply validate_to_halt_inv in Hh as (e & evs & Hp & _ & _ & _ & ->).
  exists e. wfields. repeat split; [done|].
  apply list_lookup_insert_eq. by eapply lookup_lt_Some.
Qed.

(** C1.  When the machine of a validation task runs to its end, the task's
    verdict is exactly the conjunction of the three comparisons of the
    machine's end state [(resBatch, resPosInBatch, resHash)] with the end
    record and the entry: the task ends normally and marks the entry valid
    when [resBatch = end.BatchAfter], [resPosInBatch = end.PosAfter] and
    [resHash = entry.BlockHash] all hold, and panics with the validation
    failure, leaving the entry's flag as it was, when one of them fails. *)
Theorem validate_verdict fuel ctx p start end_ w cp err w0 sq dl mach w1 :
  validate_checks p start end_ w = (inl (cp, err), w0) ->
  validate_to_halt fuel ctx p start end_ cp err w0 = (inl (sq, dl, mach), w1) ->
  exists e,
    heap w1 !! p = Some e /\
    let '(resBatch, resPosInBatch, resHash) := ParseGlobalState (GetGlobalState mach) in
    let verdict :=
      (resBatch =? BatchAfter end_) && (resPosInBatch =? PosAfter end_)
      && (resHash =? BlockHash e) in
    (validate fuel ctx p start end_ w).1
      = (if verdict then inl tt else inr (Panic "validation failed. quitting..")) /\
    Valid <$> heap (validate fuel ctx p start end_ w).2 !! p = Some (verdict || Valid e).
Proof.
  intros Hc Hh. rewrite (validate_halted _ _ _ _ _ _ _ _ _ _ _ _ _ Hc Hh).
  destruct (validate_to_halt_entry _ _ _ _ _ _ _ _ _ _ _ _ Hh) as (e0 & Hp0 & Hp1 & _ & _).
  eexists. split; [exact Hp1|].
  set (e := set_Running true (set_SeqMsgNr (BatchNum start) e0)) in *.
  assert (Hlt : (p < length (heap w1))%nat) by (by eapply lookup_lt_Some).
  unfold ParseGlobalState.
  pose proof (eq_refl : resultValid (GetGlobalState mach) end_ e
                        = (gsBatch (GetGlobalState mach) =? BatchAfter end_)
                          && (gsPosInBatch (GetGlobalState mach) =? PosAfter end_)
                          && (gsBlockHash (GetGlobalState mach) =? BlockHash e)) as Hrv.
  rewrite <- Hrv. clear Hrv.
  destruct (resultValid (GetGlobalState mach) end_ e) eqn:Hv.
  - rewrite (validate_finish_valid _ _ _ _ _ _ _ _ _ Hp1 Hv). cbn [fst snd].
    split; [done|]. unfold released. wfields.
    by rewrite list_lookup_insert_eq.
  - rewrite (validate_finish_invalid _ _ _ _ _ _ _ _ _ Hp1 Hv). cbn [fst snd].
    split; [done|]. wfields. by rewrite Hp1.
Qed.






(** C4 (as amended).  The decision to write the artifact of a block is
    [writeThisBlock = !resultValid || member], where [member] tells whether
    the block's number occurs in [config.BlocksToRecord] in front of the first
    number larger than it (the loop stops there).  For a list in ascending
    order this is membership in the whole list.  A task whose block is valid
    makes the calls of [writeToFile] exactly when [member] holds, before it
    releases the entry. *)
Theorem writeThisBlock_decision cfg e valid :
  writeThisBlock cfg e valid
    = negb valid || bool_decide (BlockNumber e ∈ not_above_prefix (BlockNumber e) (BlocksToRecord cfg))
  /\ (Sorted Z.le (BlocksToRecord cfg) ->
      writeThisBlock cfg e valid = negb valid || bool_decide (BlockNumber e ∈ BlocksToRecord cfg))
  /\ (forall p start end_ cp sq dl mach w,
        heap w !! p = Some e -> config (v w) = cfg -> valid = true ->
        resultValid (GetGlobalState mach) end_ e = true ->
        validate_finish p start end_ cp sq dl mach w
        = (inl tt,
           released p e
             (add_events
                (if bool_decide (BlockNumber e ∈ not_above_prefix (BlockNumber e) (BlocksToRecord cfg))
                 then artifact_trace cfg e start end_ cp sq dl else []) w))).
Proof.
  assert (Hw : writeThisBlock cfg e valid
    = negb valid || bool_decide (BlockNumber e ∈ not_above_prefix (BlockNumber e) (BlocksToRecord cfg))).
  { unfold writeThisBlock. rewrite scan_BlocksToRecord_prefix. by destruct valid. }
  split; [exact Hw|]. split.
  - intros Hs. rewrite Hw. f_equal. apply bool_decide_ext. by apply not_above_prefix_sorted.
  - intros p start end_ cp sq dl mach w Hp Hcfg -> Hv.
    rewrite (validate_finish_valid _ _ _ _ _ _ _ _ _ Hp Hv), Hcfg, Hw. done.
Qed.


(** ** [NewBlockValidator] *)

Lemma NewBlockValidator_first cfg w :
  initialized (validatorStatic w) = false ->
  NewBlockValidator cfg w =
  (inl (new_validator cfg),
   add_events [EvSetBlockValidator "streamer"; EvSetBlockValidator "inbox"]
     (with_static (set_initialized true) w)).
Proof.
  intros Hi. unfold NewBlockValidator. msimp. rewrite Hi.
  by rewrite !with_event_add, add_events_add.
Qed.

Lemma NewBlockValidator_again cfg w :
  initialized (validatorStatic w) = true ->
  NewBlockValidator cfg w = (inr (Panic "creating block validator when one exists"), w).
Proof. intros Hi. unfold NewBlockValidator. msimp. by rewrite Hi. Qed.

Lemma NewBlockValidator_calls_again cfgs w :
  initialized (validatorStatic w) = true ->
  NewBlockValidator_calls cfgs w
  = map (fun _ => inr (Panic "creating block validator when one exists")) cfgs.
Proof.
  revert w. induction cfgs as [|cfg cfgs IH]; intros w Hi; simpl; [done|].
  unfold after. rewrite (NewBlockValidator_again _ _ Hi). cbn [fst snd]. by rewrite IH.
Qed.



(** ** [ProgressValidated] *)

Lemma evict_batches_eq n batch w :
  evict_batches n batch w =
  (inl tt,
   add_events (evict_result n batch (sequencerBatches (validatorStatic w))).2
     (with_static
        (set_sequencerBatches (evict_result n batch (sequencerBatches (validatorStatic w))).1) w)).
Proof.
  revert batch w. induction n as [|n IH]; intros batch w; simpl.
  - f_equal. world_eq; try done; [by destruct (validatorStatic w) | by rewrite app_nil_r].
  - msimp. wfields.
    destruct (sequencerBatches (validatorStatic w) !! batch) as [cbyte|]; msimp;
      rewrite IH; f_equal; vfields; world_eq; vfields; try done;
      by rewrite <- app_assoc.
Qed.

Lemma ProgressValidated_turn_ready w e :
  ready_entry w = Some e -> ProgressValidated_turn w = (inl tt, advanced e w).
Proof.
  unfold ready_entry, next_entry, ProgressValidated_turn. msimp.
  destruct (validationEntries (validatorStatic w) !! posNext (v w)) as [p|]; [|done].
  destruct (heap w !! p) as [e'|]; [|done].
  destruct (Valid e') eqn:Hvalid; [|done].
  destruct (BlockNumber e' =? add64 (blocksValidated (v w)) 1) eqn:Hnum; [|done].
  intros [= ->]. cbn [negb]. msimp. rewrite Hnum. cbn [negb]. msimp. wfields.
  rewrite evict_batches_eq. unfold advanced. f_equal.
  vfields. world_eq; vfields; try done. by rewrite <- app_assoc.
Qed.


Lemma ProgressValidated_turn_stop w :
  ready_entry w = None ->
  exists evs, ProgressValidated_turn w = (inr Return, add_events evs w) /\
              forallb quiet evs = true.
Proof.
  unfold ready_entry, next_entry, ProgressValidated_turn. msimp.
  destruct (validationEntries (validatorStatic w) !! posNext (v w)) as [p|];
    [|intros _; exists []; by rewrite add_events_nil].
  destruct (heap w !! p) as [e'|];
    [|intros _; eexists; by rewrite with_event_add].
  destruct (Valid e') eqn:Hvalid;
    [|intros _; exists []; by rewrite add_events_nil].
  destruct (BlockNumber e' =? add64 (blocksValidated (v w)) 1) eqn:Hnum; [done|].
  intros _. cbn [negb]. msimp. rewrite Hnum. cbn [negb]. msimp.
  eexists. by rewrite with_event_add.
Qed.


(** ** Frame rules *)

Section Keeps.

Variable R : World -> World -> Prop.
Hypothesis R_refl : forall w, R w w.
Hypothesis R_trans : forall a b c, R a b -> R b c -> R a c.

Lemma keeps_ret {A} (a : A) : keeps R (ret a).
Proof. intros w. apply R_refl. Qed.

Lemma keeps_leave {A} (e : Exit) : keeps R (leave e : M A).
Proof. intros w. apply R_refl. Qed.

Lemma keeps_gets {A} (f : World -> A) : keeps R (gets f).
Proof. intros w. apply R_refl. Qed.

Lemma keeps_modify (f : World -> World) : (forall w, R w (f w)) -> keeps R (modify f).
Proof. intros Hf w. apply Hf. Qed.

Lemma keeps_bind {A B} (m : M A) (k : A -> M B) :
  keeps R m -> (forall a, keeps R (k a)) -> keeps R (bind m k).
Proof.
  intros Hm Hk w. unfold bind. specialize (Hm w).
  destruct (m w) as [[a|x] w1]; cbn [snd] in *; [|done].
  eapply R_trans; [exact Hm | apply Hk].
Qed.

Lemma keeps_defer (d body : M unit) : keeps R d -> keeps R body -> keeps R (defer d body).
Proof.
  intros Hd Hb w. unfold defer. specialize (Hb w).
  destruct (body w) as [r w1]; cbn [snd] in *.
  eapply R_trans; [exact Hb | apply Hd].
Qed.

Lemma keeps_deref p : keeps R (deref p).
Proof. intros w. unfold deref. destruct (heap w !! p); apply R_refl. Qed.

End Keeps.


Lemma published_app a b : published (a ++ b) = published a ++ published b.
Proof.
  induction a as [|ev a IH]; [done|].
  destruct ev; simpl; by rewrite ?IH.
Qed.

Lemma dispatched_app a b : dispatched (a ++ b) = dispatched a ++ dispatched b.
Proof.
  induction a as [|ev a IH]; [done|].
  destruct ev; simpl; by rewrite ?IH.
Qed.

Lemma published_quiet evs : forallb quiet evs = true -> published evs = [].
Proof.
  induction evs as [|ev evs IH]; [done|]. simpl.
  intros [Hq Hr]%andb_prop. destruct ev; try done; by apply IH.
Qed.

Lemma dispatched_quiet evs : forallb quiet evs = true -> dispatched evs = [].
Proof.
  induction evs as [|ev evs IH]; [done|]. simpl.
  intros [Hq Hr]%andb_prop. destruct ev; try done; by apply IH.
Qed.

Lemma owners_refl w : owners_kept w w.
Proof. by repeat split. Qed.

Lemma owners_trans a b c : owners_kept a b -> owners_kept b c -> owners_kept a c.
Proof.
  unfold owners_kept, progress_kept, dispatch_kept, fixed_kept.
  intros ((?&?)&(?&?)&(?&?)) ((?&?)&(?&?)&(?&?)). repeat split; congruence.
Qed.

Lemma owners_add_events evs w : forallb quiet evs = true -> owners_kept w (add_events evs w).
Proof.
  intros Hq. unfold owners_kept, progress_kept, dispatch_kept, fixed_kept. wfields.
  rewrite published_app, dispatched_app, (published_quiet _ Hq), (dispatched_quiet _ Hq).
  by rewrite !app_nil_r.
Qed.

Lemma owners_event ev w : quiet ev = true -> owners_kept w (with_event ev w).
Proof. intros Hq. rewrite with_event_add. apply owners_add_events. simpl. by rewrite Hq. Qed.

Lemma owners_heap f w : owners_kept w (with_heap f w).
Proof. by repeat split. Qed.

Lemma owners_cacheDir d w : owners_kept w (with_cacheDir d w).
Proof. by repeat split. Qed.

Lemma owners_v f w :
  blocksValidated (f (v w)) = blocksValidated (v w) ->
  posNextSend (f (v w)) = posNextSend (v w) ->
  batchNrValidated (f (v w)) = batchNrValidated (v w) ->
  owners_kept w (with_v f w).
Proof. intros Hb Hs Hn. by repeat split. Qed.

Lemma owners_static f w :
  initialized (f (validatorStatic w)) = initialized (validatorStatic w) ->
  owners_kept w (with_static f w).
Proof. intros Hi. by repeat split. Qed.

(** Solves [owners_kept w (f w)] for an update [f] of the model. *)
Ltac owners_update :=
  first [ apply owners_event; reflexivity
        | apply owners_heap
        | apply owners_cacheDir
        | apply owners_v; reflexivity
        | apply owners_static; reflexivity ].

(** Walks a body along its binds and branches, for a relation with the given
    proofs of reflexivity and transitivity; [update] proves the relation for
    an update of the world. *)
Ltac keeps_walk refl trans update :=
  repeat first
    [ assumption
    | match goal with Hk : _ |- keeps _ _ => solve [apply Hk] end
    | apply (keeps_bind _ trans); [|intros ?]
    | apply (keeps_ret _ refl)
    | apply (keeps_leave _ refl)
    | apply (keeps_gets _ refl)
    | apply (keeps_deref _ refl)
    | apply (keeps_defer _ trans)
    | apply keeps_modify; intros ?; update
    | progress unfold log_Info, log_Warn, log_Error, emit, update_entry, fs_call
    | match goal with
      | |- keeps _ (if ?c then _ else _) => destruct c
      | |- keeps _ (match ?x with _ => _ end) => destruct x
      end ].

Ltac owners_walk := keeps_walk owners_refl owners_trans ltac:(owners_update).

Lemma keeps_prepareBlock header prevHeader preimages pos :
  keeps owners_kept (prepareBlock header prevHeader preimages pos).
Proof. unfold prepareBlock, PourToCache, store_entry. owners_walk. Qed.

Lemma keeps_ProcessBatches batches posData :
  keeps owners_kept (ProcessBatches batches posData).
Proof. unfold ProcessBatches. owners_walk. Qed.


Lemma keeps_fs_seq ops : keeps owners_kept (fs_seq ops).
Proof. induction ops as [|op ops IH]; simpl; owners_walk. Qed.

Lemma keeps_writeToFile e start end_ cp sq dl :
  keeps owners_kept (writeToFile e start end_ cp sq dl).
Proof. unfold writeToFile. pose proof keeps_fs_seq. owners_walk. Qed.

Lemma keeps_destroy_all msgs : keeps owners_kept (destroy_all msgs).
Proof. induction msgs as [|m msgs IH]; simpl; owners_walk. Qed.

Lemma keeps_run_machine fuel ctx n m s : keeps owners_kept (run_machine fuel ctx n m s).
Proof.
  revert m s. induction fuel as [|fuel IH]; intros m s; simpl; owners_walk.
Qed.

Lemma keeps_validate fuel ctx p start end_ :
  keeps owners_kept (validate fuel ctx p start end_).
Proof.
  pose proof keeps_writeToFile. pose proof keeps_destroy_all. pose proof keeps_run_machine.
  unfold validate, validate_checks, validate_to_halt, validate_finish, write_artifact,
    abort_if_invalid, release_entry, PrepareMultByteArrays, RemoveFromCache, ParseGlobalState.
  owners_walk.
Qed.

Lemma keeps_scan_cache env name before files found :
  keeps owners_kept (scan_cache env name before files found).
Proof.
  revert found. induction files as [|file files IH]; intros found; simpl; owners_walk.
Qed.

Lemma keeps_Start env ctx : keeps owners_kept (Start env ctx).
Proof.
  pose proof keeps_scan_cache.
  unfold Start, cacheBaseMachineUntilHostIo, try_cached, recompute_and_save, Chtimes,
    DeserializeAndReplaceState, SerializeState, Rename.
  owners_walk.
Qed.


(** ** What a task releases, and when *)

Lemma v_kept_refl w : v_kept w w.
Proof. reflexivity. Qed.

Lemma v_kept_trans a b c : v_kept a b -> v_kept b c -> v_kept a c.
Proof. unfold v_kept. congruence. Qed.

Ltac v_walk := keeps_walk v_kept_refl v_kept_trans ltac:(reflexivity).

Lemma v_kept_run_machine fuel ctx n m s : keeps v_kept (run_machine fuel ctx n m s).
Proof. revert m s. induction fuel as [|fuel IH]; intros m s; simpl; v_walk. Qed.

Lemma v_kept_validate_checks p start end_ : keeps v_kept (validate_checks p start end_).
Proof. unfold validate_checks, PrepareMultByteArrays. v_walk. Qed.

Lemma v_kept_validate_to_halt fuel ctx p start end_ cp err :
  keeps v_kept (validate_to_halt fuel ctx p start end_ cp err).
Proof. pose proof v_kept_run_machine. unfold validate_to_halt. v_walk. Qed.

(** A task that does not run to its last statement - it returns early, is
    cancelled, exits or panics - leaves the validator as it was: the
    references of its preimages stay in the cache and
    [atomicValidationsRunning] is not decremented. *)
Lemma validate_releases_only_at_end fuel ctx p start end_ w :
  (validate fuel ctx p start end_ w).1 <> inl tt ->
  v (after (validate fuel ctx p start end_) w) = v w.
Proof.
  unfold after, validate, bind.
  pose proof (v_kept_validate_checks p start end_ w) as Hc.
  destruct (validate_checks p start end_ w) as [[packed|x] w0]; cbn [fst snd] in *; [|done].
  unfold defer.
  pose proof (v_kept_validate_to_halt fuel ctx p start end_ packed.1 packed.2 w0) as Hh.
  assert (Hw1 : forall w1, v_kept w0 w1 -> v (emit (EvFree packed.1) w1).2 = v w).
  { intros w1 Hk. msimp. cbn [snd]. wfields. unfold v_kept in *. congruence. }
  destruct (validate_to_halt _ _ _ _ _ _ _ w0) as [[r|x] w1]; cbn [fst snd] in *;
    [|intros _; by apply Hw1].
  destruct (heap w1 !! p) as [e|] eqn:Hp.
  - destruct (resultValid (GetGlobalState r.2) end_ e) eqn:Hv.
    + by rewrite (validate_finish_valid _ _ _ _ _ _ _ _ _ Hp Hv).
    + rewrite (validate_finish_invalid _ _ _ _ _ _ _ _ _ Hp Hv). intros _.
      apply Hw1. unfold v_kept in *. wfields. exact Hh.
  - unfold validate_finish, bind, deref. rewrite Hp. intros _. by apply Hw1.
Qed.

(** ** The counter of validated blocks *)

Lemma evict_result_quiet n batch m : forallb quiet (evict_result n batch m).2 = true.
Proof.
  revert batch m. induction n as [|n IH]; intros batch m; simpl; [done|].
  rewrite IH. by destruct (m !! batch).
Qed.

Lemma ready_entry_Some w e :
  ready_entry w = Some e <->
  exists p, validationEntries (validatorStatic w) !! posNext (v w) = Some p /\
            heap w !! p = Some e /\ Valid e = true /\
            BlockNumber e = add64 (blocksValidated (v w)) 1.
Proof.
  unfold ready_entry, next_entry. split.
  - destruct (validationEntries (validatorStatic w) !! posNext (v w)) as [p|]; [|done].
    destruct (heap w !! p) as [e'|] eqn:Hp; [|done].
    destruct (Valid e') eqn:Hvalid; [|done].
    destruct (BlockNumber e' =? add64 (blocksValidated (v w)) 1) eqn:Hnum; [|done].
    intros [= ->]. exists p. repeat split; try done. by apply Z.eqb_eq.
  - intros (p & -> & -> & -> & ->). by rewrite Z.eqb_refl.
Qed.

Lemma advanced_blocksValidated e w :
  blocksValidated (v (advanced e w)) = BlockNumber e.
Proof. reflexivity. Qed.

Lemma advanced_published e w :
  published (events (advanced e w)) = published (events w) ++ [BlockNumber e].
Proof.
  unfold advanced. wfields. rewrite !published_app.
  by rewrite (published_quiet _ (evict_result_quiet _ _ _)).
Qed.

Lemma wrap64_succ n : add64 (wrap64 n) 1 = wrap64 (n + 1).
Proof. unfold add64, wrap64. by rewrite Zplus_mod_idemp_l. Qed.

Lemma counts_up_kept w w' : progress_kept w w' -> counts_up w -> counts_up w'.
Proof. intros [Hb Hp] [H1 H2]. unfold counts_up. by rewrite Hb, Hp. Qed.

Lemma counts_up_advanced e w :
  ready_entry w = Some e -> counts_up w -> counts_up (advanced e w).
Proof.
  intros (p & _ & _ & _ & Hnum)%ready_entry_Some [H1 H2].
  unfold counts_up. rewrite advanced_blocksValidated, advanced_published.
  rewrite length_app, Nat.add_1_r. cbn [length].
  assert (Hn : BlockNumber e = wrap64 (Z.of_nat (S (length (published (events w)))))).
  { rewrite Hnum, H2, wrap64_succ. f_equal. lia. }
  split; [|exact Hn].
  rewrite List.seq_S, map_app. cbn [map Nat.add]. by rewrite <- H1, <- Hn.
Qed.

Lemma ProgressValidated_loop_counts_up fuel w :
  counts_up w -> counts_up (ProgressValidated_loop fuel w).2.
Proof.
  revert w. induction fuel as [|fuel IH]; intros w Hw; [done|].
  cbn [ProgressValidated_loop]. unfold bind.
  destruct (ready_entry w) as [e|] eqn:Hr.
  - rewrite (ProgressValidated_turn_ready _ _ Hr). apply IH. by apply counts_up_advanced.
  - destruct (ProgressValidated_turn_stop _ Hr) as (evs & -> & Hq). cbn [snd].
    eapply counts_up_kept; [|exact Hw]. split; [done|]. wfields.
    by rewrite published_app, (published_quiet _ Hq), app_nil_r.
Qed.

(** The loop of [ProgressValidated] ends by [return] within its bound. *)
Lemma ProgressValidated_loop_returns fuel w :
  (size (validationEntries (validatorStatic w)) < fuel)%nat ->
  (ProgressValidated_loop fuel w).1 = inr Return.
Proof.
  revert w. induction fuel as [|fuel IH]; intros w Hsize; [lia|].
  cbn [ProgressValidated_loop]. unfold bind.
  destruct (ready_entry w) as [e|] eqn:Hr.
  - rewrite (ProgressValidated_turn_ready _ _ Hr). apply IH.
    apply ready_entry_Some in Hr as (p & Hp & _).
    unfold advanced. vfields.
    rewrite map_size_delete_Some by eauto. 
    destruct (size (validationEntries (validatorStatic w))) eqn:Hs; [|simpl; lia].
    apply map_size_empty_inv in Hs. rewrite Hs in Hp. by rewrite lookup_empty in Hp.
  - by destruct (ProgressValidated_turn_stop _ Hr) as (evs & -> & _).
Qed.

Lemma ProgressValidated_returns w : (ProgressValidated w).1 = inr Return.
Proof. unfold ProgressValidated. msimp. apply ProgressValidated_loop_returns. lia. Qed.

Lemma ProgressValidated_counts_up w : counts_up w -> counts_up (after ProgressValidated w).
Proof.
  intros Hw. unfold after, ProgressValidated. msimp.
  by apply ProgressValidated_loop_counts_up.
Qed.


(** ** [sendValidations] *)

Lemma sendValidations_turn_ready w t :
  dispatch_target w = Some t -> sendValidations_turn w = (inl tt, sent t w).
Proof.
  unfold dispatch_target, sendValidations_turn. msimp.
  destruct (atomicValidationsRunning (v w) >=? concurrentRunsLimit (v w)); [done|].
  destruct (posToValidate (v w)) as [|head q] eqn:Hq; [done|].
  destruct (Pos head =? posNextSend (v w)); cbn [negb]; [|done].
  destruct (validationEntries (validatorStatic w) !! posNextSend (v w)) as [p|]; [|done].
  msimp. destruct (heap w !! p) as [e|]; [|done].
  change posToValidateList with (list PosInSequencer) in *.
  destruct ((head :: q) !! StupidSearchPos (head :: q) (EntryPos e)) as [end_|]; [|done].
  destruct (Pos end_ =? EntryPos e); cbn [negb]; [|done].
  intros [= <-]. msimp. unfold sent. f_equal. world_eq; try done.
  vfields. by rewrite Hq.
Qed.

Lemma sendValidations_turn_stop w :
  dispatch_target w = None ->
  exists evs, sendValidations_turn w = (inr Return, add_events evs w) /\
              forallb quiet evs = true.
Proof.
  unfold dispatch_target, sendValidations_turn. msimp.
  destruct (atomicValidationsRunning (v w) >=? concurrentRunsLimit (v w));
    [intros _; exists []; by rewrite add_events_nil|].
  destruct (posToValidate (v w)) as [|head q] eqn:Hq;
    [intros _; exists []; by rewrite add_events_nil|].
  destruct (Pos head =? posNextSend (v w)); cbn [negb];
    [|intros _; exists []; by rewrite add_events_nil].
  destruct (validationEntries (validatorStatic w) !! posNextSend (v w)) as [p|];
    [|intros _; exists []; by rewrite add_events_nil].
  msimp. destruct (heap w !! p) as [e|];
    [|intros _; eexists; by rewrite with_event_add].
  change posToValidateList with (list PosInSequencer) in *.
  destruct ((head :: q) !! StupidSearchPos (head :: q) (EntryPos e)) as [end_|];
    [|intros _; exists []; by rewrite add_events_nil].
  destruct (Pos end_ =? EntryPos e); cbn [negb];
    [done|intros _; exists []; by rewrite add_events_nil].
Qed.


Lemma dispatch_target_Some w p e head end_ idx :
  dispatch_target w = Some (p, e, head, end_, idx) ->
  atomicValidationsRunning (v w) < concurrentRunsLimit (v w) /\
  posToValidate (v w) !! 0%nat = Some head /\
  Pos head = posNextSend (v w) /\
  validationEntries (validatorStatic w) !! posNextSend (v w) = Some p /\
  heap w !! p = Some e /\
  idx = StupidSearchPos (posToValidate (v w)) (EntryPos e) /\
  posToValidate (v w) !! idx = Some end_ /\
  Pos end_ = EntryPos e.
Proof.
  unfold dispatch_target.
  destruct (atomicValidationsRunning (v w) >=? concurrentRunsLimit (v w)) eqn:Hrun; [done|].
  destruct (posToValidate (v w)) as [|head' q] eqn:Hq; [done|].
  destruct (Pos head' =? posNextSend (v w)) eqn:Hhead; cbn [negb]; [|done].
  destruct (validationEntries (validatorStatic w) !! posNextSend (v w)) as [p'|] eqn:Hp;
    [|done].
  destruct (heap w !! p') as [e'|] eqn:He; [|done]. cbv zeta.
  change posToValidateList with (list PosInSequencer) in *.
  destruct ((head' :: q) !! StupidSearchPos (head' :: q) (EntryPos e')) as [end'|] eqn:Hidx;
    [|done].
  destruct (Pos end' =? EntryPos e') eqn:Hend; cbn [negb]; [|done].
  intros [= -> -> -> -> <-].
  apply Z.eqb_eq in Hhead, Hend.
  repeat split; try done. lia.
Qed.

Lemma Sorted_drop {A} (R : A -> A -> Prop) (l : list A) n :
  Sorted R l -> Sorted R (drop n l).
Proof.
  revert l. induction n as [|n IH]; intros l Hs; [by rewrite drop_0|].
  destruct l as [|x l]; [done|]. simpl. apply IH. by apply Sorted_inv in Hs as [? _].
Qed.

Lemma sorted_head_le head q idx x :
  Sorted pos_le (head :: q) -> (head :: q) !! idx = Some x -> Pos head <= Pos x.
Proof.
  intros Hs Hx.
  apply Sorted_StronglySorted in Hs; [|intros a b c; unfold pos_le; lia].
  apply StronglySorted_inv in Hs as [_ Hall].
  destruct idx as [|idx]; simpl in Hx; [injection Hx as <-; lia|].
  rewrite Forall_forall in Hall. apply Hall. by eapply list_elem_of_lookup_2.
Qed.


Lemma sent_dispatched t w :
  dispatched (events (sent t w)) = dispatched (events w) ++ [Pos t.1.2].
Proof. destruct t as [[[[p e] head] end_] idx]. unfold sent. wfields. by rewrite dispatched_app. Qed.


Lemma sent_sorted w t :
  Sorted pos_le (posToValidate (v w)) -> Sorted pos_le (posToValidate (v (sent t w))).
Proof.
  destruct t as [[[[p e] head] end_] idx]. intros Hs. unfold sent. vfields.
  by apply Sorted_drop.
Qed.

Lemma sent_progress_kept t w : progress_kept w (sent t w).
Proof.
  destruct t as [[[[p e] head] end_] idx]. unfold sent, progress_kept. vfields.
  split; [done|]. rewrite published_app. simpl. by rewrite app_nil_r.
Qed.

Lemma fixed_kept_trans a b c : fixed_kept a b -> fixed_kept b c -> fixed_kept a c.
Proof. intros [? ?] [? ?]. split; congruence. Qed.

Lemma sent_fixed_kept t w : fixed_kept w (sent t w).
Proof. destruct t as [[[[p e] head] end_] idx]. by split. Qed.

Lemma progress_kept_trans a b c : progress_kept a b -> progress_kept b c -> progress_kept a c.
Proof. intros [? ?] [? ?]. split; congruence. Qed.


Lemma sendValidations_loop_returns fuel w :
  (length (posToValidate (v w)) < fuel)%nat ->
  (sendValidations_loop fuel w).1 = inr Return.
Proof.
  revert w. induction fuel as [|fuel IH]; intros w Hlen; [lia|].
  cbn [sendValidations_loop]. unfold bind.
  destruct (dispatch_target w) as [t|] eqn:Ht.
  - rewrite (sendValidations_turn_ready _ _ Ht). apply IH.
    destruct t as [[[[p e] head] end_] idx].
    apply dispatch_target_Some in Ht as (_ & Hhead & _).
    unfold sent. vfields. rewrite length_drop.
    apply lookup_lt_Some in Hhead. lia.
  - by destruct (sendValidations_turn_stop _ Ht) as (evs & -> & _).
Qed.



Lemma advanced_dispatch_kept e w : dispatch_kept w (advanced e w).
Proof.
  unfold advanced, dispatch_kept. vfields. split; [done|].
  rewrite !dispatched_app, (dispatched_quiet _ (evict_result_quiet _ _ _)). simpl.
  by rewrite app_nil_r.
Qed.

Lemma ProgressValidated_loop_kept fuel w :
  dispatch_kept w (ProgressValidated_loop fuel w).2 /\
  fixed_kept w (ProgressValidated_loop fuel w).2.
Proof.
  revert w. induction fuel as [|fuel IH]; intros w; [simpl; split; by split|].
  cbn [ProgressValidated_loop]. unfold bind.
  destruct (ready_entry w) as [e|] eqn:Hr.
  - rewrite (ProgressValidated_turn_ready _ _ Hr).
    destruct (IH (advanced e w)) as [[H1 H2] H3].
    destruct (advanced_dispatch_kept e w) as [H4 H5].
    split; [split; congruence|].
    eapply fixed_kept_trans; [|exact H3]. by split.
  - destruct (ProgressValidated_turn_stop _ Hr) as (evs & -> & Hq). cbn [snd].
    split; [|by split]. split; [done|]. wfields.
    by rewrite dispatched_app, (dispatched_quiet _ Hq), app_nil_r.
Qed.



(** ** Runs of the process *)

Lemma owners_after {A} (m : M A) w : keeps owners_kept m -> owners_kept w (after m w).
Proof. intros Hk. apply Hk. Qed.

Lemma run_action_kept a w :
  match a with
  | ActSendValidations => progress_kept w (run_action a w)
  | ActProgressValidated => dispatch_kept w (run_action a w)
  | _ => progress_kept w (run_action a w) /\ dispatch_kept w (run_action a w)
  end /\ fixed_kept w (run_action a w).
Proof.
  destruct a; cbn [run_action].
  - destruct (owners_after _ w (keeps_prepareBlock header prevHeader preimages pos))
      as (Hp & Hd & Hi). exact (conj (conj Hp Hd) Hi).
  - destruct (owners_after _ w (keeps_ProcessBatches batches posData)) as (Hp & Hd & Hi).
    exact (conj (conj Hp Hd) Hi).
  - unfold after, sendValidations. msimp.
    set (w2 := with_v _ (with_v _ w)). set (n := S _). clearbody n.
    assert (Hp2 : progress_kept w w2) by (by split).
    assert (Hi2 : fixed_kept w w2) by (by split).
    enough (Hloop : forall fuel w0, progress_kept w0 (sendValidations_loop fuel w0).2
                                   /\ fixed_kept w0 (sendValidations_loop fuel w0).2).
    { destruct (Hloop n w2) as [H1 H2].
      split; [exact (progress_kept_trans _ _ _ Hp2 H1) | exact (fixed_kept_trans _ _ _ Hi2 H2)]. }
    clear. induction fuel as [|fuel IH]; intros w0; [simpl; split; by split|].
    cbn [sendValidations_loop]. unfold bind.
    destruct (dispatch_target w0) as [t|] eqn:Ht.
    + rewrite (sendValidations_turn_ready _ _ Ht). destruct (IH (sent t w0)) as [H1 H2].
      split; [eapply progress_kept_trans; [apply sent_progress_kept | exact H1]|].
      eapply fixed_kept_trans; [apply sent_fixed_kept | exact H2].
    + destruct (sendValidations_turn_stop _ Ht) as (evs & -> & Hq). cbn [snd].
      split; [|by split]. split; [done|]. wfields.
      by rewrite published_app, (published_quiet _ Hq), app_nil_r.
  - destruct (owners_after _ w (keeps_validate fuel ctx p start end_)) as (Hp & Hd & Hi).
    exact (conj (conj Hp Hd) Hi).
  - unfold after, ProgressValidated. msimp. apply ProgressValidated_loop_kept.
  - destruct (owners_after _ w (keeps_Start env ctx)) as (Hp & Hd & Hi).
    exact (conj (conj Hp Hd) Hi).
Qed.

Lemma run_action_counts_up a w : counts_up w -> counts_up (run_action a w).
Proof.
  intros Hw. pose proof (run_action_kept a w) as Hk. destruct a.
  - destruct Hk as [[Hp _] _]. by eapply counts_up_kept.
  - destruct Hk as [[Hp _] _]. by eapply counts_up_kept.
  - destruct Hk as [Hp _]. by eapply counts_up_kept.
  - destruct Hk as [[Hp _] _]. by eapply counts_up_kept.
  - by apply ProgressValidated_counts_up.
  - destruct Hk as [[Hp _] _]. by eapply counts_up_kept.
Qed.


Lemma run_actions_invariant (P : World -> Prop) actions w :
  (forall a w, P w -> P (run_action a w)) -> P w -> P (run_actions actions w).
Proof.
  intros Hstep. revert w. induction actions as [|a actions IH]; intros w Hw; [done|].
  simpl. apply IH. by apply Hstep.
Qed.

Lemma boot_eq cfg :
  boot cfg =
  add_events [EvSetBlockValidator "streamer"; EvSetBlockValidator "inbox"]
    (with_static (set_initialized true) (process_start (new_validator cfg))).
Proof.
  unfold boot. rewrite NewBlockValidator_first by done.
  unfold install. by world_eq.
Qed.

Lemma boot_counts_up cfg : counts_up (boot cfg).
Proof. rewrite boot_eq. by split. Qed.



Lemma wrap64_small z : 0 <= z < 2 ^ 64 -> wrap64 z = z.
Proof. intros Hz. unfold wrap64. by apply Z.mod_small. Qed.



Lemma add64_below_max z : 0 <= z < max_uint64 -> add64 z 1 = z + 1.
Proof. intros Hz. unfold add64. apply wrap64_small. unfold max_uint64 in Hz. lia. Qed.

Lemma sent_posNextSend w p e head end_ idx :
  dispatch_target w = Some (p, e, head, end_, idx) ->
  Sorted pos_le (posToValidate (v w)) ->
  Forall below_max (posToValidate (v w)) ->
  posNextSend (v w) < posNextSend (v (sent (p, e, head, end_, idx) w)).
Proof.
  intros (_ & Hhead & Hnext & _ & _ & _ & Hidx & Hend)%dispatch_target_Some Hsorted Hall.
  assert (Hle : posNextSend (v w) <= Pos end_).
  { rewrite <- Hnext. destruct (posToValidate (v w)) as [|h q]; [done|].
    injection Hhead as ->. by eapply sorted_head_le. }
  assert (Hin : below_max end_).
  { rewrite Forall_forall in Hall. apply Hall. by eapply list_elem_of_lookup_2. }
  unfold sent. vfields. rewrite <- Hend, add64_below_max by exact Hin. lia.
Qed.

Lemma sendValidations_loop_mono fuel w :
  Sorted pos_le (posToValidate (v w)) ->
  Forall below_max (posToValidate (v w)) ->
  posNextSend (v w) <= posNextSend (v (sendValidations_loop fuel w).2).
Proof.
  revert w. induction fuel as [|fuel IH]; intros w Hs Hall; [done|].
  cbn [sendValidations_loop]. unfold bind.
  destruct (dispatch_target w) as [t|] eqn:Ht.
  - rewrite (sendValidations_turn_ready _ _ Ht).
    destruct t as [[[[p e] head] end_] idx].
    pose proof (sent_posNextSend _ _ _ _ _ _ Ht Hs Hall) as Hlt.
    etrans; [apply Z.lt_le_incl, Hlt|]. apply IH.
    + by apply sent_sorted.
    + unfold sent. vfields. by apply Forall_drop.
  - by destruct (sendValidations_turn_stop _ Ht) as (evs & -> & _).
Qed.


Lemma sendValidations_returns w : (sendValidations w).1 = inr Return.
Proof. unfold sendValidations. msimp. apply sendValidations_loop_returns. lia. Qed.



(** C10.  In any sequence of calls of [NewBlockValidator], at most one returns
    a validator.  With the global flag [initialized] still unset, the first
    call sets it and returns the validator; every call made with the flag set
    - so every later call - panics with the message
    [creating block validator when one exists] and returns nothing.  No
    operation of the validator unsets the flag: a call made at any point of a
    run of the process that was started by the first call panics. *)
Theorem NewBlockValidator_at_most_one cfgs w first actions cfg :
  NewBlockValidator_calls cfgs w =
  (if initialized (validatorStatic w) then
     map (fun _ => inr (Panic "creating block validator when one exists")) cfgs
   else
     match cfgs with
     | [] => []
     | cfg :: rest =>
         inl (new_validator cfg)
         :: map (fun _ => inr (Panic "creating block validator when one exists")) rest
     end)
  /\ NewBlockValidator cfg (run_actions actions (boot first))
     = (inr (Panic "creating block validator when one exists"),
        run_actions actions (boot first)).
Proof.
  split.
  - destruct (initialized (validatorStatic w)) eqn:Hi.
    + by apply NewBlockValidator_calls_again.
    + destruct cfgs as [|c rest]; [done|]. simpl. unfold after.
      rewrite (NewBlockValidator_first _ _ Hi). cbn [fst snd].
      by rewrite NewBlockValidator_calls_again.
  - apply NewBlockValidator_again.
    apply (run_actions_invariant (fun w => initialized (validatorStatic w) = true)).
    + intros a w' Hw'. destruct (run_action_kept a w') as [_ [Hi _]]. by rewrite Hi.
    + by rewrite boot_eq.
Qed.

(** No operation writes [batchNrValidated]: it is 0 in every run. *)
Lemma batchNrValidated_never_written cfg actions :
  batchNrValidated (v (run_actions actions (boot cfg))) = 0.
Proof.
  apply (run_actions_invariant (fun w => batchNrValidated (v w) = 0)).
  - intros a w Hw. destruct (run_action_kept a w) as [_ [_ Hn]]. by rewrite Hn.
  - by rewrite boot_eq.
Qed.

(** ** The base-machine cache *)

Lemma canonical_kept_refl name w : canonical_kept name w w.
Proof. exists []. by rewrite app_nil_r. Qed.

Lemma canonical_kept_trans name a b c :
  canonical_kept name a b -> canonical_kept name b c -> canonical_kept name a c.
Proof.
  intros (n1 & H1 & F1 & C1) (n2 & H2 & F2 & C2). exists (n1 ++ n2).
  split; [by rewrite H2, H1, app_assoc|]. split; [|congruence].
  apply Forall_app. split; [done|].
  eapply Forall_impl; [exact F2|]. intros d Hd. simpl in Hd. congruence.
Qed.

Lemma canonical_kept_events name evs w : canonical_kept name w (add_events evs w).
Proof. exists []. wfields. by rewrite app_nil_r. Qed.

Lemma canonical_kept_dir name d w :
  content <$> d !! name = content <$> cacheDir w !! name ->
  canonical_kept name w (with_cacheDir d w).
Proof. intros Hd. exists [d]. wfields. repeat split; [|done]. by apply Forall_singleton. Qed.

Lemma scan_cache_kept env name before files found w :
  v (scan_cache env name before files found w).2 = v w /\
  canonical_kept name w (scan_cache env name before files found w).2.
Proof.
  revert found w. induction files as [|file files IH]; intros found w;
    cbn [scan_cache].
  - split; [done | apply canonical_kept_refl].
  - destruct (String.eqb file.1 name) eqn:Hname; [apply IH|].
    apply String.eqb_neq in Hname.
    destruct (modTime file.2 <? before); msimp.
    + destruct (env_Remove env file.1) as [er|]; msimp; rewrite with_event_add.
      * split; [done | apply canonical_kept_events].
      * destruct (IH found (with_cacheDir (delete file.1 (cacheDir w))
                              (add_events [EvLog LvlInfo "removing unknown old machine cache"
                                             [("name", VStr file.1)]] w))) as [Hv Hk].
        wfields. split; [by rewrite Hv|].
        eapply canonical_kept_trans; [|exact Hk].
        eapply canonical_kept_trans; [apply canonical_kept_events|].
        apply canonical_kept_dir. wfields. by rewrite lookup_delete_ne.
    + rewrite with_event_add.
      destruct (IH found (add_events [EvLog LvlInfo "keeping unknown old machine cache"
                                        [("name", VStr file.1)]] w)) as [Hv Hk].
      split; [by rewrite Hv|].
      eapply canonical_kept_trans; [apply canonical_kept_events | exact Hk].
Qed.

(** The snapshot is not in the listing. *)
Lemma try_cached_miss env hash name w :
  try_cached env hash name false w =
  (inl None,
   add_events [EvLog LvlInfo "didn't find initial machine in cache" [("hash", VHash hash)]] w).
Proof. unfold try_cached. msimp. by rewrite with_event_add. Qed.

(** The snapshot is there and is touched, and it cannot be loaded: the failure
    is logged and the machine is as it was. *)
Lemma try_cached_damaged env hash name w f :
  env_Chtimes env = None -> env_read env = None ->
  cacheDir w !! name = Some f -> deserialize (content f) = None ->
  try_cached env hash name true w =
  (inl None,
   add_events
     [EvLog LvlInfo "found cached initial machine" [("hash", VHash hash)];
      EvLog LvlInfo "failed to load initial machine cache; will reexecute"
        [("err", VStr "bad machine state")]]
     (with_cacheDir (<[name := {| content := content f; modTime := env_now_touch env |}]>
                       (cacheDir w)) w)).
Proof.
  intros Hch Hrd Hf Hde. unfold try_cached, Chtimes, DeserializeAndReplaceState. msimp.
  rewrite Hch. msimp. rewrite Hf. msimp. rewrite Hrd. msimp. wfields.
  rewrite lookup_insert_eq. cbn [content]. rewrite Hde. msimp.
  by rewrite !with_event_add, add_events_add.
Qed.

Lemma try_cached_None env hash name found w w' :
  try_cached env hash name found w = (inl None, w') ->
  v w' = v w /\ canonical_kept name w w'.
Proof.
  unfold try_cached, Chtimes, DeserializeAndReplaceState. msimp.
  assert (Hmiss : forall W : World,
            v (with_event (EvLog LvlInfo "didn't find initial machine in cache"
                             [("hash", VHash hash)]) W) = v W /\
            canonical_kept name W
              (with_event (EvLog LvlInfo "didn't find initial machine in cache"
                             [("hash", VHash hash)]) W)).
  { intros W. split; [done|]. rewrite with_event_add. apply canonical_kept_events. }
  destruct found; [|intros [= <-]; apply Hmiss].
  destruct (env_Chtimes env) as [[|er]|]; msimp; [intros [= <-]; apply Hmiss | done |].
  destruct (cacheDir w !! name) as [f|] eqn:Hf; msimp; [|intros [= <-]; apply Hmiss].
  wfields.
  assert (Htouch : canonical_kept name w
            (with_cacheDir (<[name := {| content := content f; modTime := env_now_touch env |}]>
                              (cacheDir w)) w)).
  { apply canonical_kept_dir. by rewrite lookup_insert_eq, Hf. }
  destruct (env_read env) as [er|]; msimp.
  - intros [= <-]. split; [done|]. rewrite !with_event_add, add_events_add.
    eapply canonical_kept_trans; [exact Htouch | apply canonical_kept_events].
  - wfields. rewrite lookup_insert_eq. cbn [content].
    destruct (deserialize (content f)); msimp; [done|].
    intros [= <-]. split; [done|]. rewrite !with_event_add, add_events_add.
    eapply canonical_kept_trans; [exact Htouch | apply canonical_kept_events].
Qed.


Lemma string_length_app (a b : string) :
  String.length (a +:+ b) = (String.length a + String.length b)%nat.
Proof. induction a as [|c a IH]; simpl; [done | by rewrite IH]. Qed.

Lemma wip_name_ne name : name +:+ ".wip" <> name.
Proof.
  intros Heq. apply (f_equal String.length) in Heq.
  rewrite string_length_app in Heq. simpl in Heq. lia.
Qed.

(** What [recompute_and_save] returns and leaves, by the three calls that may
    fail. *)
Lemma recompute_and_save_eq env ctx hash name w :
  let step := StepUntilHostIo (baseMachine (v w)) ctx in
  let stepped := with_v (set_baseMachine step.1) w in
  let saving :=
    add_events [EvLog LvlInfo "saving initial machine cache" [("hash", VHash hash)]] stepped in
  let wip := name +:+ ".wip" in
  let written := with_cacheDir (<[wip := snapshot_file env step.1]> (cacheDir w)) saving in
  recompute_and_save env ctx hash name w =
  match step.2 with
  | Some er => (inl (Some (error_text er)), stepped)
  | None =>
      match env_write env with
      | Some (er, Some bytes) =>
          (inl (Some er),
           with_cacheDir (<[wip := {| content := bytes; modTime := env_now_write env |}]> (cacheDir w))
             saving)
      | Some (er, None) => (inl (Some er), saving)
      | None =>
          match env_Rename env with
          | Some er => (inl (Some er), written)
          | None =>
              (inl None,
               with_cacheDir
                 (<[name := snapshot_file env step.1]>
                    (delete wip (<[wip := snapshot_file env step.1]> (cacheDir w))))
                 written)
          end
      end
  end.
Proof.
  cbv zeta. unfold recompute_and_save, SerializeState, Rename. msimp.
  destruct (StepUntilHostIo (baseMachine (v w)) ctx) as [m' [er|]]; msimp; [done|].
  cbn [fst snd]. vfields.
  destruct (env_write env) as [[er [bytes|]]|]; msimp;
    rewrite ?with_event_add; [done | done |].
  destruct (env_Rename env) as [er|]; msimp; [done|].
  wfields. rewrite lookup_insert_eq. msimp. done.
Qed.


Lemma recompute_and_save_safe env ctx hash name w :
  exists new,
    dirHistory (recompute_and_save env ctx hash name w).2 = dirHistory w ++ new /\
    Forall (fun d => content <$> d !! name = content <$> cacheDir w !! name \/
                     d !! name = Some (snapshot_file env (StepUntilHostIo (baseMachine (v w)) ctx).1))
           new.
Proof.
  pose proof (recompute_and_save_eq env ctx hash name w) as Heq. cbv zeta in Heq.
  rewrite Heq. clear Heq.
  pose proof (wip_name_ne name) as Hne.
  destruct (StepUntilHostIo (baseMachine (v w)) ctx) as [m' [er|]]; cbn [fst snd].
  { exists []. by rewrite app_nil_r. }
  destruct (env_write env) as [[er [bytes|]]|].
  - eexists [_]. wfields. split; [done|]. apply Forall_singleton. left.
    by rewrite lookup_insert_ne.
  - exists []. wfields. by rewrite app_nil_r.
  - destruct (env_Rename env) as [er|].
    + eexists [_]. wfields. split; [done|]. apply Forall_singleton. left.
      by rewrite lookup_insert_ne.
    + eexists [_; _]. cbn [fst snd]. wfields. split; [by rewrite <- app_assoc|].
      apply Forall_cons. split; [left; by rewrite lookup_insert_ne|].
      apply Forall_singleton. right. by rewrite lookup_insert_eq.
Qed.

Lemma cacheBaseMachineUntilHostIo_miss env ctx w found w1 w2 :
  env_MkdirAll env = None ->
  env_ReadDir env = None ->
  scan_cache env (Hash_String (MachineHash (baseMachine (v w))) +:+ ".bin")
    (env_now_scan env - day) (ReadDir (cacheDir w)) false w = (inl (found, None), w1) ->
  try_cached env (MachineHash (baseMachine (v w)))
    (Hash_String (MachineHash (baseMachine (v w))) +:+ ".bin") found w1 = (inl None, w2) ->
  cacheBaseMachineUntilHostIo env ctx w =
  recompute_and_save env ctx (MachineHash (baseMachine (v w)))
    (Hash_String (MachineHash (baseMachine (v w))) +:+ ".bin") w2.
Proof.
  intros Hmk Hrd Hscan Htry. unfold cacheBaseMachineUntilHostIo. msimp.
  rewrite Hmk, Hrd. msimp. rewrite Hscan. cbn [fst snd]. by rewrite Htry.
Qed.

(** C9.  When the scan of the cache directory went through and the snapshot
    was not loaded - it is not in the directory, it vanished before it was
    touched, or [DeserializeAndReplaceState] failed, which leaves the machine
    as it was and is only logged - start-up recomputes: it runs
    [StepUntilHostIo] on the base machine, writes the state to the sibling
    file with suffix [.wip] and renames that file to the canonical name.
    [Start] returns an error exactly when one of these three calls fails, and
    then it is that call's error.  When none fails the canonical file is the
    whole snapshot of the stepped machine and the [.wip] file is gone.  In
    every state that the directory goes through, the canonical name shows
    either the bytes it showed before the start or the whole snapshot. *)
Theorem Start_recomputes env ctx w found w1 w2 :
  let m := baseMachine (v w) in
  let name := Hash_String (MachineHash m) +:+ ".bin" in
  env_MkdirAll env = None ->
  env_ReadDir env = None ->
  scan_cache env name (env_now_scan env - day) (ReadDir (cacheDir w)) false w
    = (inl (found, None), w1) ->
  try_cached env (MachineHash m) name found w1 = (inl None, w2) ->
  let step := StepUntilHostIo m ctx in
  baseMachine (v (after (Start env ctx) w)) = step.1
  /\ (Start env ctx w).1
     = inl match step.2 with
           | Some er => Some (error_text er)
           | None =>
               match env_write env with
               | Some (er, _) => Some er
               | None => env_Rename env
               end
           end
  /\ ((Start env ctx w).1 = inl None ->
      cacheDir (after (Start env ctx) w) !! name = Some (snapshot_file env step.1) /\
      cacheDir (after (Start env ctx) w) !! (name +:+ ".wip") = None)
  /\ exists new,
       dirHistory (after (Start env ctx) w) = dirHistory w ++ new /\
       Forall (fun d => content <$> d !! name = content <$> cacheDir w !! name \/
                        d !! name = Some (snapshot_file env step.1)) new.
Proof.
  intros m name Hmk Hrd Hscan Htry step.
  pose proof (cacheBaseMachineUntilHostIo_miss env ctx w found w1 w2 Hmk Hrd Hscan Htry) as Hc.
  fold m name in Hc.
  pose proof (scan_cache_kept env name (env_now_scan env - day) (ReadDir (cacheDir w)) false w)
    as [Hv1 Hk1].
  rewrite Hscan in Hv1, Hk1. cbn [snd] in Hv1, Hk1.
  destruct (try_cached_None _ _ _ _ _ _ Htry) as [Hv2 Hk2].
  assert (Hv : v w2 = v w) by congruence.
  pose proof (canonical_kept_trans _ _ _ _ Hk1 Hk2) as Hk.
  pose proof (recompute_and_save_eq env ctx (MachineHash m) name w2) as Heq.
  pose proof (recompute_and_save_safe env ctx (MachineHash m) name w2) as Hsafe.
  cbv zeta in Heq. rewrite Hv in Heq, Hsafe. fold m step in Heq, Hsafe.
  assert (Hstart : Start env ctx w =
    match recompute_and_save env ctx (MachineHash m) name w2 with
    | (inl None, w') =>
        (inl None, add_events [EvGo "startProgressLoop"; EvGo "startValidationLoop"] w')
    | (r, w') => (r, w')
    end).
  { unfold Start, bind. rewrite Hc.
    destruct (recompute_and_save _ _ _ _ _) as [[[er|]|x] w']; msimp; try done.
    by rewrite !with_event_add, add_events_add. }
  pose proof (wip_name_ne name) as Hne.
  destruct Hk as (new1 & Hh1 & Hf1 & Hc1).
  destruct Hsafe as (new2 & Hh2 & Hf2).
  assert (Hhist : exists new,
            dirHistory (recompute_and_save env ctx (MachineHash m) name w2).2
              = dirHistory w ++ new /\
            Forall (fun d => content <$> d !! name = content <$> cacheDir w !! name \/
                             d !! name = Some (snapshot_file env step.1)) new).
  { exists (new1 ++ new2). split; [by rewrite Hh2, Hh1, app_assoc|].
    apply Forall_app. split.
    - eapply Forall_impl; [exact Hf1|]. intros d Hd. by left.
    - eapply Forall_impl; [exact Hf2|]. intros d [Hd|Hd]; [left; congruence | by right]. }
  unfold after. rewrite Hstart. clear Hstart Hc.
  rewrite Heq in Hhist |- *. clear Heq.
  destruct (step.2) as [er|]; [by repeat split|].
  destruct (env_write env) as [[er [bytes|]]|]; [by repeat split | by repeat split |].
  destruct (env_Rename env) as [er|]; [by repeat split|].
  cbn [fst snd]. wfields. repeat split; try done.
  - by rewrite lookup_insert_eq.
  - rewrite lookup_insert_ne by done. by rewrite lookup_delete_eq.
Qed.


(** ** The position queue *)

Lemma StupidSearchPos_le_length l pos : (StupidSearchPos l pos <= length l)%nat.
Proof.
  induction l as [|r l IH]; simpl; [lia|]. destruct (Pos r <? pos); simpl; lia.
Qed.

Lemma StupidSearchPos_below l pos i r :
  (i < StupidSearchPos l pos)%nat -> l !! i = Some r -> Pos r < pos.
Proof.
  revert i. induction l as [|x l IH]; intros i; simpl; [lia|].
  destruct (Pos x <? pos) eqn:Hx; [|lia].
  destruct i as [|i]; simpl.
  - intros _ [= ->]. by apply Z.ltb_lt.
  - intros Hi. apply IH. lia.
Qed.

Lemma StupidSearchPos_at l pos r :
  l !! StupidSearchPos l pos = Some r -> pos <= Pos r.
Proof.
  induction l as [|x l IH]; simpl; [done|].
  destruct (Pos x <? pos) eqn:Hx; simpl; [exact IH|].
  intros [= ->]. by apply Z.ltb_ge.
Qed.

Lemma StupidSearchPos_sorted l pos :
  Sorted pos_le l ->
  drop (StupidSearchPos l pos) l = filter (fun r => pos <= Pos r) l.
Proof.
  intros Hs. apply Sorted_StronglySorted in Hs; [|intros a b c; unfold pos_le; lia].
  induction Hs as [|x l Hs IH Hall]; simpl; [done|].
  destruct (Pos x <? pos) eqn:Hx.
  - apply Z.ltb_lt in Hx. rewrite filter_cons_False by lia. exact IH.
  - apply Z.ltb_ge in Hx. simpl. rewrite filter_cons_True by lia. f_equal.
    clear IH Hs. induction Hall as [|y l Hy Hall IH]; [done|].
    unfold pos_le in Hy. rewrite filter_cons_True by lia. by f_equal.
Qed.

(** X1.  [StupidSearchPos] returns the index of the first record of the list whose
    [Pos] is not below [pos], and the length of the list when there is none:
    the index is within [0, len(l)], every record in front of it has a smaller
    [Pos], and the record at it has not.  On a list in [Pos] order the records
    from the index on are exactly the records with [Pos >= pos]: cutting the
    queue there (line 423) drops the records below [pos] and no other. *)
Theorem StupidSearchPos_first_not_below (l : posToValidateList) (pos : Z) :
  let idx := StupidSearchPos l pos in
  (idx <= length l)%nat
  /\ (forall i r, (i < idx)%nat -> l !! i = Some r -> Pos r < pos)
  /\ (forall r, l !! idx = Some r -> pos <= Pos r)
  /\ (Sorted pos_le l -> drop idx l = filter (fun r => pos <= Pos r) l).
Proof.
  cbv zeta. split; [apply StupidSearchPos_le_length|].
  split; [apply StupidSearchPos_below|].
  split; [apply StupidSearchPos_at | apply StupidSearchPos_sorted].
Qed.

(** X2.  [Less] compares the [Pos] of two records: it is irreflexive and
    transitive, two records are unordered exactly when they have the same
    [Pos], and a list has no adjacent pair out of [Less] order - what
    [sort.Sort] establishes - exactly when its [Pos] values never decrease. *)
Theorem Less_orders_by_Pos (a b c : PosInSequencer) (l : posToValidateList) :
  Less a a = false
  /\ (Less a b = true -> Less b c = true -> Less a c = true)
  /\ (negb (Less a b) && negb (Less b a) = (Pos a =? Pos b))
  /\ (Sorted pos_le l <->
      forall i x y, l !! i = Some x -> l !! S i = Some y -> Less y x = false).
Proof.
  unfold Less. split; [apply Z.ltb_irrefl|]. split; [|split].
  - rewrite !Z.ltb_lt. lia.
  - destruct (Z.ltb_spec (Pos a) (Pos b)), (Z.ltb_spec (Pos b) (Pos a)),
      (Z.eqb_spec (Pos a) (Pos b)); simpl; try done; lia.
  - split.
    + intros Hs. induction Hs as [|x l Hs IH Hhd]; intros i a' b' Ha Hb; [done|].
      destruct i as [|i]; simpl in Ha, Hb.
      * injection Ha as <-. destruct l as [|y l]; [done|]. injection Hb as <-.
        apply HdRel_inv in Hhd. unfold pos_le in Hhd. apply Z.ltb_ge. lia.
      * by eapply IH.
    + induction l as [|x l IH]; intros Hadj; [constructor|].
      constructor.
      * apply IH. intros i a' b' Ha Hb. by apply (Hadj (S i)).
      * destruct l as [|y l]; constructor.
        specialize (Hadj 0%nat x y eq_refl eq_refl). apply Z.ltb_ge in Hadj.
        unfold pos_le. lia.
Qed.

(** X3.  [Swap] exchanges the records at two indices of the list and touches no
    other: the result is a permutation of the same length, a second [Swap] of
    the same indices gives the list back, and [Swap] panics exactly when an
    index is outside the list. *)
Theorem Swap_exchanges (l : posToValidateList) (i j : nat) :
  (Swap l i j = None <-> (Len l <= i)%nat \/ (Len l <= j)%nat)
  /\ forall l', Swap l i j = Some l' ->
       l' ≡ₚ l /\ Len l' = Len l
       /\ l' !! i = l !! j /\ l' !! j = l !! i
       /\ (forall k, k <> i -> k <> j -> l' !! k = l !! k)
       /\ Swap l' i j = Some l.
Proof.
  unfold Swap, Len. change posToValidateList with (list PosInSequencer) in *. split.
  - destruct (l !! i) as [a|] eqn:Ha; [destruct (l !! j) as [b|] eqn:Hb|].
    + apply lookup_lt_Some in Ha, Hb. split; [done | lia].
    + apply lookup_ge_None in Hb. split; [by right | done].
    + apply lookup_ge_None in Ha. split; [by left | done].
  - intros l'. destruct (l !! i) as [a|] eqn:Ha; [|done].
    destruct (l !! j) as [b|] eqn:Hb; [|done]. intros [= <-].
    pose proof (lookup_lt_Some _ _ _ Ha) as Hi.
    pose proof (lookup_lt_Some _ _ _ Hb) as Hj.
    split; [by apply Permutation_insert_swap|].
    split; [by rewrite !length_insert|].
    assert (Hli : <[j:=a]> (<[i:=b]> l) !! i = Some b).
    { destruct (decide (i = j)) as [->|Hne].
      - rewrite list_lookup_insert_eq by (by rewrite length_insert). congruence.
      - rewrite list_lookup_insert_ne by done. by rewrite list_lookup_insert_eq. }
    assert (Hlj : <[j:=a]> (<[i:=b]> l) !! j = Some a).
    { rewrite list_lookup_insert_eq by (by rewrite length_insert). done. }
    split; [congruence|]. split; [congruence|]. split.
    + intros k Hki Hkj. by rewrite !list_lookup_insert_ne.
    + rewrite Hli, Hlj. f_equal. apply list_eq. intros k.
      destruct (decide (k = j)) as [->|Hkj].
      * rewrite list_lookup_insert_eq by (by rewrite !length_insert). done.
      * rewrite list_lookup_insert_ne by done.
        destruct (decide (k = i)) as [->|Hki].
        -- rewrite list_lookup_insert_eq by (by rewrite !length_insert). done.
        -- by rewrite !list_lookup_insert_ne.
Qed.


(** ** The dispatcher and the limit of concurrent tasks *)

Lemma to_int32_small z : - 2 ^ 31 <= z < 2 ^ 31 -> to_int32 z = z.
Proof. intros Hz. unfold to_int32. rewrite Z.mod_small; lia. Qed.

Lemma dispatch_target_events evs w : dispatch_target (add_events evs w) = dispatch_target w.
Proof. reflexivity. Qed.

Lemma sendValidations_loop_limit fuel w :
  - 2 ^ 31 <= atomicValidationsRunning (v w) ->
  concurrentRunsLimit (v w) < 2 ^ 31 ->
  exists ds,
    dispatched (events (sendValidations_loop fuel w).2) = dispatched (events w) ++ ds
    /\ concurrentRunsLimit (v (sendValidations_loop fuel w).2) = concurrentRunsLimit (v w)
    /\ atomicValidationsRunning (v (sendValidations_loop fuel w).2)
       = atomicValidationsRunning (v w) + Z.of_nat (length ds)
    /\ (ds <> [] ->
        atomicValidationsRunning (v (sendValidations_loop fuel w).2) <= concurrentRunsLimit (v w)).
Proof.
  revert w. induction fuel as [|fuel IH]; intros w Hlo Hhi.
  { exists []. simpl. rewrite app_nil_r. repeat split; [lia | done]. }
  cbn [sendValidations_loop]. unfold bind.
  destruct (dispatch_target w) as [t|] eqn:Ht.
  - rewrite (sendValidations_turn_ready _ _ Ht).
    destruct t as [[[[p e] head] end_] idx].
    pose proof (dispatch_target_Some _ _ _ _ _ _ Ht) as (Hrun & _).
    assert (Hone : atomicValidationsRunning (v (sent (p, e, head, end_, idx) w))
                   = atomicValidationsRunning (v w) + 1).
    { unfold sent. vfields. unfold add32. apply to_int32_small. lia. }
    destruct (IH (sent (p, e, head, end_, idx) w)) as (ds & Hds & Hlim & Hcnt & Hle).
    { rewrite Hone. lia. }
    { exact Hhi. }
    exists (Pos end_ :: ds). rewrite Hds, Hlim, Hcnt, Hone, sent_dispatched.
    cbn [fst snd length]. rewrite <- app_assoc. repeat split; [lia|].
    intros _. destruct ds as [|d ds]; [simpl; lia|].
    specialize (Hle ltac:(done)). rewrite Hcnt, Hone in Hle. exact Hle.
  - destruct (sendValidations_turn_stop _ Ht) as (evs & -> & Hq). cbn [snd].
    exists []. wfields. rewrite dispatched_app, (dispatched_quiet _ Hq), !app_nil_r.
    repeat split; [simpl; lia | done].
Qed.

(** X6.  [sendValidations] never starts more tasks than there are free slots: the
    call adds one to [atomicValidationsRunning] for each task it starts, it
    leaves [concurrentRunsLimit] as it is, and when it has started a task the
    counter is at most the limit.  (Both are [int32]s.) *)
Theorem sendValidations_within_limit (w : World) :
  - 2 ^ 31 <= atomicValidationsRunning (v w) ->
  concurrentRunsLimit (v w) < 2 ^ 31 ->
  exists ds,
    dispatched (events (after sendValidations w)) = dispatched (events w) ++ ds
    /\ concurrentRunsLimit (v (after sendValidations w)) = concurrentRunsLimit (v w)
    /\ atomicValidationsRunning (v (after sendValidations w))
       = atomicValidationsRunning (v w) + Z.of_nat (length ds)
    /\ (ds <> [] ->
        atomicValidationsRunning (v (after sendValidations w)) <= concurrentRunsLimit (v w)).
Proof.
  intros Hlo Hhi. unfold after, sendValidations. msimp.
  set (w2 := with_v _ (with_v _ w)).
  apply (sendValidations_loop_limit _ w2); subst w2; vfields; done.
Qed.

Lemma sendValidations_loop_drops fuel w :
  Sorted pos_le (posToValidate (v w)) ->
  Forall below_max (posToValidate (v w)) ->
  exists dropped,
    posToValidate (v w) = dropped ++ posToValidate (v (sendValidations_loop fuel w).2)
    /\ Forall (fun r => Pos r < posNextSend (v (sendValidations_loop fuel w).2)) dropped.
Proof.
  revert w. induction fuel as [|fuel IH]; intros w Hs Hall; [by exists []|].
  cbn [sendValidations_loop]. unfold bind.
  destruct (dispatch_target w) as [t|] eqn:Ht.
  - rewrite (sendValidations_turn_ready _ _ Ht).
    destruct t as [[[[p e] head] end_] idx].
    pose proof (dispatch_target_Some _ _ _ _ _ _ Ht)
      as (_ & _ & _ & _ & _ & Hidx & Hend & Hpos).
    assert (Hs1 : Sorted pos_le (posToValidate (v (sent (p, e, head, end_, idx) w))))
      by (by apply sent_sorted).
    assert (Hall1 : Forall below_max (posToValidate (v (sent (p, e, head, end_, idx) w))))
      by (unfold sent; vfields; by apply Forall_drop).
    destruct (IH _ Hs1 Hall1) as (dropped & Hq & Hdropped).
    pose proof (sendValidations_loop_mono fuel _ Hs1 Hall1) as Hmono.
    exists (take (S idx) (posToValidate (v w)) ++ dropped). split.
    + rewrite <- app_assoc, <- Hq. unfold sent. vfields. by rewrite take_drop.
    + apply Forall_app. split; [|exact Hdropped].
      assert (Hin : below_max end_).
      { rewrite Forall_forall in Hall. apply Hall. by eapply list_elem_of_lookup_2. }
      assert (Hnext : posNextSend (v (sent (p, e, head, end_, idx) w)) = Pos end_ + 1).
      { unfold sent. vfields. rewrite <- Hpos. by apply add64_below_max. }
      apply Forall_forall. intros r [i Hi]%list_elem_of_lookup.
      apply lookup_take_Some in Hi as [Hi Hlt].
      destruct (decide (i = idx)) as [->|Hne].
      * pose proof (eq_trans (eq_sym Hi) Hend) as Heq. injection Heq as ->. lia.
      * assert (Pos r < EntryPos e)
          by (eapply (StupidSearchPos_below (posToValidate (v w))); [|exact Hi]; lia).
        lia.
  - destruct (sendValidations_turn_stop _ Ht) as (evs & -> & _). cbn [snd]. by exists [].
Qed.

(** X7.  [sendValidations] drops from the queue only records that it does not need
    again.  When no record has [Pos = 2^64 - 1], the sorted queue is the
    dropped records followed by the queue that the call leaves, every dropped
    record has a [Pos] below the new [posNextSend], and the queue that is left
    is in [Pos] order: a record for a position still to be sent is never
    lost. *)
Theorem sendValidations_keeps_later_records (w : World) :
  Forall below_max (posToValidate (v w)) ->
  exists dropped,
    sort_Sort (posToValidate (v w)) = dropped ++ posToValidate (v (after sendValidations w))
    /\ Forall (fun r => Pos r < posNextSend (v (after sendValidations w))) dropped
    /\ Sorted pos_le (posToValidate (v (after sendValidations w)))
    /\ forall r, r ∈ posToValidate (v w) ->
         posNextSend (v (after sendValidations w)) <= Pos r ->
         r ∈ posToValidate (v (after sendValidations w)).
Proof.
  intros Hall.
  assert (Hmain : exists dropped,
    sort_Sort (posToValidate (v w)) = dropped ++ posToValidate (v (after sendValidations w))
    /\ Forall (fun r => Pos r < posNextSend (v (after sendValidations w))) dropped
    /\ Sorted pos_le (posToValidate (v (after sendValidations w)))).
  { unfold after, sendValidations. msimp.
    set (w2 := with_v _ (with_v _ w)).
    set (sorted := sort_Sort (posToValidate (v w))).
    set (idx := StupidSearchPos sorted (posNextSend (v w))).
    assert (Hq2 : posToValidate (v w2) = drop idx sorted) by reflexivity.
    assert (Hs2 : Sorted pos_le (posToValidate (v w2)))
      by (rewrite Hq2; apply Sorted_drop, sort_Sort_sorted).
    assert (Hall2 : Forall below_max (posToValidate (v w2))).
    { rewrite Hq2. apply Forall_drop. subst sorted. by rewrite sort_Sort_perm. }
    destruct (sendValidations_loop_drops (S (length (posToValidate (v w2)))) w2 Hs2 Hall2)
      as (dropped & Hq & Hdropped).
    pose proof (sendValidations_loop_mono (S (length (posToValidate (v w2)))) w2 Hs2 Hall2)
      as Hmono.
    change (posNextSend (v w2)) with (posNextSend (v w)) in Hmono.
    exists (take idx sorted ++ dropped). split; [|split].
    - rewrite <- app_assoc, <- Hq, Hq2. by rewrite take_drop.
    - apply Forall_app. split; [|exact Hdropped].
      apply Forall_forall. intros r [i Hi]%list_elem_of_lookup.
      apply lookup_take_Some in Hi as [Hi Hlt].
      pose proof (StupidSearchPos_below sorted (posNextSend (v w)) i r Hlt Hi). lia.
    - enough (Hsorted : forall fuel w0, Sorted pos_le (posToValidate (v w0)) ->
                Sorted pos_le (posToValidate (v (sendValidations_loop fuel w0).2)))
        by (by apply Hsorted).
      clear. induction fuel as [|fuel IH]; intros w0 Hs0; [done|].
      cbn [sendValidations_loop]. unfold bind.
      destruct (dispatch_target w0) as [t|] eqn:Ht.
      + rewrite (sendValidations_turn_ready _ _ Ht). by apply IH, sent_sorted.
      + by destruct (sendValidations_turn_stop _ Ht) as (evs & -> & _). }
  destruct Hmain as (dropped & Hq & Hdropped & Hsorted).
  exists dropped. split; [exact Hq|]. split; [exact Hdropped|]. split; [exact Hsorted|].
  intros r Hr Hle.
  assert (Hin : r ∈ dropped ++ posToValidate (v (after sendValidations w)))
    by (rewrite <- Hq; by rewrite sort_Sort_perm).
  apply elem_of_app in Hin as [Hin|Hin]; [|exact Hin].
  rewrite Forall_forall in Hdropped. apply Hdropped in Hin. lia.
Qed.


Lemma sendValidations_loop_appends fuel w :
  exists ds, dispatched (events (sendValidations_loop fuel w).2) = dispatched (events w) ++ ds.
Proof.
  revert w. induction fuel as [|fuel IH]; intros w; [exists []; simpl; by rewrite app_nil_r|].
  cbn [sendValidations_loop]. unfold bind.
  destruct (dispatch_target w) as [t|] eqn:Ht.
  - rewrite (sendValidations_turn_ready _ _ Ht).
    destruct (IH (sent t w)) as (ds & Hds). rewrite Hds, sent_dispatched.
    eexists. by rewrite <- app_assoc.
  - destruct (sendValidations_turn_stop _ Ht) as (evs & -> & Hq). cbn [snd].
    exists []. wfields. by rewrite dispatched_app, (dispatched_quiet _ Hq), !app_nil_r.
Qed.

(** X8.  The dispatcher makes progress.  When a slot is free, the table holds the
    entry of position [posNextSend] and the queue holds a record of that
    position - in whatever place of the queue, and whatever else the queue
    holds - a call of [sendValidations] starts the task of that entry: the
    first task it starts is the one at [posNextSend], with that entry and a
    record of that position as both start and end record. *)
Theorem sendValidations_dispatches_next (w : World) (p : nat) (e : validationEntry)
    (r : PosInSequencer) :
  atomicValidationsRunning (v w) < concurrentRunsLimit (v w) ->
  validationEntries (validatorStatic w) !! posNextSend (v w) = Some p ->
  heap w !! p = Some e ->
  EntryPos e = posNextSend (v w) ->
  r ∈ posToValidate (v w) ->
  Pos r = posNextSend (v w) ->
  exists head evs ds,
    Pos head = posNextSend (v w)
    /\ head ∈ posToValidate (v w)
    /\ events (after sendValidations w) = events w ++ EvGoValidate p head head :: evs
    /\ dispatched (events (after sendValidations w))
       = dispatched (events w) ++ posNextSend (v w) :: ds.
Proof.
  intros Hrun Hp He Hpos Hr Hrpos.
  unfold after, sendValidations. msimp.
  set (w2 := with_v _ (with_v _ w)).
  set (sorted := sort_Sort (posToValidate (v w))).
  assert (Hq2 : posToValidate (v w2)
                = filter (fun x => posNextSend (v w) <= Pos x) sorted).
  { subst w2. vfields. apply StupidSearchPos_sorted, sort_Sort_sorted. }
  assert (Hs2 : Sorted pos_le (posToValidate (v w2))).
  { subst w2. vfields. apply Sorted_drop, sort_Sort_sorted. }
  assert (Hr2 : r ∈ posToValidate (v w2)).
  { rewrite Hq2. apply list_elem_of_filter. split; [lia|]. subst sorted.
    by rewrite sort_Sort_perm. }
  destruct (posToValidate (v w2)) as [|head q] eqn:Hq; [by apply elem_of_nil in Hr2|].
  assert (Hhead : Pos head = posNextSend (v w)).
  { assert (Hge : posNextSend (v w) <= Pos head).
    { assert (Hin : head ∈ filter (fun x => posNextSend (v w) <= Pos x) sorted)
        by (rewrite <- Hq2; by left).
      by apply list_elem_of_filter in Hin as [? _]. }
    apply list_elem_of_lookup in Hr2 as [i Hi].
    pose proof (sorted_head_le _ _ _ _ Hs2 Hi). lia. }
  assert (Hin : head ∈ posToValidate (v w)).
  { assert (Hf : head ∈ filter (fun x => posNextSend (v w) <= Pos x) sorted)
      by (rewrite <- Hq2; by left).
    apply list_elem_of_filter in Hf as [_ Hf]. subst sorted. by rewrite sort_Sort_perm in Hf. }
  assert (Ht : dispatch_target w2 = Some (p, e, head, head, 0%nat)).
  { unfold dispatch_target. rewrite Hq.
    change (atomicValidationsRunning (v w2)) with (atomicValidationsRunning (v w)).
    change (concurrentRunsLimit (v w2)) with (concurrentRunsLimit (v w)).
    change (posNextSend (v w2)) with (posNextSend (v w)).
    change (validatorStatic w2) with (validatorStatic w).
    change (heap w2) with (heap w).
    destruct (Z.geb_spec (atomicValidationsRunning (v w)) (concurrentRunsLimit (v w))); [lia|].
    rewrite Hhead, Z.eqb_refl. cbn [negb]. rewrite Hp, He. cbv zeta.
    cbn [StupidSearchPos]. rewrite Hpos, Hhead, Z.ltb_irrefl. cbn [lookup list_lookup].
    by rewrite Hhead, Z.eqb_refl. }
  cbn [sendValidations_loop]. unfold bind.
  rewrite (sendValidations_turn_ready _ _ Ht).
  destruct (sendValidations_loop_appends (length (head :: q)) (sent (p, e, head, head, 0%nat) w2))
    as (ds & Hds).
  assert (Hevs : exists evs, events (sendValidations_loop (length (head :: q))
                               (sent (p, e, head, head, 0%nat) w2)).2
                             = events (sent (p, e, head, head, 0%nat) w2) ++ evs).
  { generalize (sent (p, e, head, head, 0%nat) w2). generalize (length (head :: q)).
    clear. induction n as [|fuel IH]; intros w; [exists []; simpl; by rewrite app_nil_r|].
    cbn [sendValidations_loop]. unfold bind.
    destruct (dispatch_target w) as [t|] eqn:Ht.
    - rewrite (sendValidations_turn_ready _ _ Ht).
      destruct (IH (sent t w)) as (evs & Hevs). rewrite Hevs.
      destruct t as [[[[p e] head] end_] idx]. unfold sent. wfields.
      eexists. by rewrite <- app_assoc.
    - destruct (sendValidations_turn_stop _ Ht) as (evs & -> & Hq). cbn [snd].
      by exists evs. }
  destruct Hevs as (evs & Hevs).
  exists head, evs, ds. split; [exact Hhead|]. split; [exact Hin|]. split.
  - rewrite Hevs. unfold sent. wfields. by rewrite <- app_assoc.
  - rewrite Hds, sent_dispatched. cbn [fst snd]. rewrite Hhead.
    by rewrite <- app_assoc.
Qed.


(** ** The entry table in a run of the process *)

Lemma heap_kept_eq w w' : heap w' = heap w -> heap_kept w w'.
Proof. intros Hh p e Hp. exists e. by rewrite Hh. Qed.

Lemma heap_kept_refl w : heap_kept w w.
Proof. by apply heap_kept_eq. Qed.

Lemma heap_kept_trans a b c : heap_kept a b -> heap_kept b c -> heap_kept a c.
Proof.
  intros Hab Hbc p e Hp. destruct (Hab p e Hp) as (e1 & Hp1 & He1).
  destruct (Hbc p e1 Hp1) as (e2 & Hp2 & He2). exists e2. split; [done | congruence].
Qed.

Lemma tidy_kept_refl w : tidy_kept w w.
Proof.
  split; [apply heap_kept_refl|]. split; [done|]. exists []. by rewrite app_nil_r.
Qed.

Lemma tidy_kept_trans a b c : tidy_kept a b -> tidy_kept b c -> tidy_kept a c.
Proof.
  intros (Hh1 & Ht1 & n1 & He1 & Hc1) (Hh2 & Ht2 & n2 & He2 & Hc2).
  split; [by eapply heap_kept_trans|]. split; [auto|].
  exists (n1 ++ n2). split; [by rewrite He2, He1, app_assoc|].
  rewrite forallb_app. by rewrite Hc1, Hc2.
Qed.

Lemma task_ok_kept w w' ev : heap_kept w w' -> task_ok w ev -> task_ok w' ev.
Proof.
  intros Hh. destruct ev; try done. intros [Heq (e & Hp & He)]. split; [done|].
  destruct (Hh _ _ Hp) as (e' & Hp' & He'). exists e'. split; [done | congruence].
Qed.

Lemma calm_task_ok w ev : calm ev = true -> task_ok w ev.
Proof. destruct ev; simpl; try done. by intros ->%negb_true_iff. Qed.

Lemma tidy_kept_tidy w w' : tidy_kept w w' -> tidy w -> tidy w'.
Proof.
  intros (Hh & Ht & new & He & Hc) [Htable Hevs]. split; [auto|].
  rewrite He. apply Forall_app. split.
  - eapply Forall_impl; [exact Hevs|]. intros ev. by apply task_ok_kept.
  - apply Forall_forall. intros ev Hin. apply calm_task_ok.
    rewrite forallb_forall in Hc. apply Hc. by apply list_elem_of_In.
Qed.

Lemma tidy_add_events evs w : forallb calm evs = true -> tidy_kept w (add_events evs w).
Proof. intros Hc. split; [by apply heap_kept_eq|]. split; [done|]. by exists evs. Qed.

Lemma tidy_event ev w : calm ev = true -> tidy_kept w (with_event ev w).
Proof. intros Hc. rewrite with_event_add. apply tidy_add_events. simpl. by rewrite Hc. Qed.

Lemma tidy_v f w : tidy_kept w (with_v f w).
Proof.
  split; [by apply heap_kept_eq|]. split; [done|]. exists []. wfields. by rewrite app_nil_r.
Qed.

Lemma tidy_cacheDir d w : tidy_kept w (with_cacheDir d w).
Proof.
  split; [by apply heap_kept_eq|]. split; [done|]. exists []. wfields. by rewrite app_nil_r.
Qed.

Lemma tidy_static f w :
  validationEntries (f (validatorStatic w)) = validationEntries (validatorStatic w) ->
  tidy_kept w (with_static f w).
Proof.
  intros Hf. split; [by apply heap_kept_eq|]. split.
  - intros Ht k p Hk. apply Ht. rewrite <- Hf. exact Hk.
  - exists []. wfields. by rewrite app_nil_r.
Qed.

(** A write through a pointer that leaves the entry's position as it is. *)
Lemma tidy_update_entry p f :
  (forall e, EntryPos (f e) = EntryPos e) -> keeps tidy_kept (update_entry p f).
Proof.
  intros Hf w. unfold update_entry, bind, deref.
  destruct (heap w !! p) as [e|] eqn:Hp; [|apply tidy_kept_refl].
  msimp. cbn [snd].
  assert (Hh : heap_kept w (with_heap (fun h => <[p:=f e]> h) w)).
  { intros q x Hq. wfields. destruct (decide (q = p)) as [->|Hne].
    - exists (f e). rewrite list_lookup_insert_eq by (by eapply lookup_lt_Some).
      split; [done|]. rewrite Hf. congruence.
    - exists x. by rewrite list_lookup_insert_ne. }
  split; [exact Hh|]. split.
  - intros Ht k q Hk. destruct (Ht k q Hk) as (x & Hq & Hx).
    destruct (Hh _ _ Hq) as (x' & Hq' & Hx'). exists x'. split; [done | congruence].
  - exists []. wfields. by rewrite app_nil_r.
Qed.

(** A fresh entry stored under its own position. *)
Lemma tidy_store_entry pos e : EntryPos e = pos -> keeps tidy_kept (store_entry pos e).
Proof.
  intros He w. unfold store_entry. msimp. cbn [snd].
  split; [|split].
  - intros q x Hq. exists x. wfields. split; [|done].
    by apply lookup_app_l_Some.
  - intros Ht k q. vfields. destruct (decide (k = pos)) as [->|Hne].
    + rewrite lookup_insert_eq. intros [= <-]. exists e. split; [|done].
      by rewrite lookup_app_r, Nat.sub_diag.
    + rewrite lookup_insert_ne by done. intros Hk.
      destruct (Ht k q Hk) as (x & Hq & Hx). exists x. split; [|done].
      by apply lookup_app_l_Some.
  - exists []. vfields. by rewrite app_nil_r.
Qed.

(** Solves [tidy_kept w (f w)] for an update [f] of the model. *)
Ltac tidy_update :=
  first [ apply tidy_event; reflexivity
        | apply tidy_v
        | apply tidy_cacheDir
        | apply tidy_static; reflexivity ].

Ltac tidy_walk := keeps_walk tidy_kept_refl tidy_kept_trans ltac:(tidy_update).

Lemma tidy_prepareBlock header prevHeader preimages pos :
  keeps tidy_kept (prepareBlock header prevHeader preimages pos).
Proof.
  pose proof (fun h d n l => tidy_store_entry pos (newValidationEntry h d n l pos) eq_refl).
  unfold prepareBlock, PourToCache. tidy_walk.
Qed.

Lemma tidy_ProcessBatches batches posData : keeps tidy_kept (ProcessBatches batches posData).
Proof. unfold ProcessBatches. tidy_walk. Qed.

Lemma tidy_fs_seq ops : keeps tidy_kept (fs_seq ops).
Proof. induction ops as [|op ops IH]; simpl; tidy_walk. Qed.

Lemma tidy_writeToFile e start end_ cp sq dl :
  keeps tidy_kept (writeToFile e start end_ cp sq dl).
Proof. unfold writeToFile. pose proof tidy_fs_seq. tidy_walk. Qed.

Lemma tidy_destroy_all msgs : keeps tidy_kept (destroy_all msgs).
Proof. induction msgs as [|m msgs IH]; simpl; tidy_walk. Qed.

Lemma tidy_run_machine fuel ctx n m s : keeps tidy_kept (run_machine fuel ctx n m s).
Proof. revert m s. induction fuel as [|fuel IH]; intros m s; simpl; tidy_walk. Qed.

Lemma tidy_validate fuel ctx p start end_ : keeps tidy_kept (validate fuel ctx p start end_).
Proof.
  pose proof tidy_writeToFile. pose proof tidy_destroy_all. pose proof tidy_run_machine.
  pose proof (fun p x => tidy_update_entry p (set_SeqMsgNr x) (fun _ => eq_refl)).
  pose proof (fun p x => tidy_update_entry p (set_Running x) (fun _ => eq_refl)).
  pose proof (fun p x => tidy_update_entry p (set_MsgsAllocated x) (fun _ => eq_refl)).
  pose proof (fun p x => tidy_update_entry p (set_Preimages x) (fun _ => eq_refl)).
  pose proof (fun p x => tidy_update_entry p (set_Valid x) (fun _ => eq_refl)).
  unfold validate, validate_checks, validate_to_halt, validate_finish, write_artifact,
    abort_if_invalid, release_entry, PrepareMultByteArrays, RemoveFromCache, ParseGlobalState.
  tidy_walk.
Qed.

Lemma tidy_scan_cache env name before files found :
  keeps tidy_kept (scan_cache env name before files found).
Proof.
  revert found. induction files as [|file files IH]; intros found; simpl; tidy_walk.
Qed.

Lemma tidy_Start env ctx : keeps tidy_kept (Start env ctx).
Proof.
  pose proof tidy_scan_cache.
  unfold Start, cacheBaseMachineUntilHostIo, try_cached, recompute_and_save, Chtimes,
    DeserializeAndReplaceState, SerializeState, Rename.
  tidy_walk.
Qed.


Lemma evict_result_calm n batch m : forallb calm (evict_result n batch m).2 = true.
Proof.
  revert batch m. induction n as [|n IH]; intros batch m; simpl; [done|].
  rewrite IH. by destruct (m !! batch).
Qed.

Lemma advanced_tidy_kept e w : tidy_kept w (advanced e w).
Proof.
  unfold advanced. split; [by apply heap_kept_eq|]. split.
  - intros Ht k p. vfields. intros Hk. apply Ht.
    apply lookup_delete_Some in Hk as [_ Hk]. exact Hk.
  - eexists. wfields. split; [done|].
    rewrite forallb_app, evict_result_calm. done.
Qed.

Lemma ProgressValidated_turn_stop_calm w :
  table_ok w -> ready_entry w = None ->
  exists evs, ProgressValidated_turn w = (inr Return, add_events evs w) /\
              forallb calm evs = true.
Proof.
  intros Ht. unfold ready_entry, next_entry, ProgressValidated_turn. msimp.
  destruct (validationEntries (validatorStatic w) !! posNext (v w)) as [p|] eqn:Hp;
    [|intros _; exists []; by rewrite add_events_nil].
  destruct (Ht _ _ Hp) as (e & He & _). rewrite He.
  destruct (Valid e) eqn:Hvalid;
    [|intros _; exists []; by rewrite add_events_nil].
  destruct (BlockNumber e =? add64 (blocksValidated (v w)) 1) eqn:Hnum; [done|].
  intros _. cbn [negb]. msimp. rewrite Hnum. cbn [negb]. msimp.
  eexists. by rewrite with_event_add.
Qed.

Lemma ProgressValidated_loop_tidy fuel w : tidy w -> tidy (ProgressValidated_loop fuel w).2.
Proof.
  revert w. induction fuel as [|fuel IH]; intros w Hw; [done|].
  cbn [ProgressValidated_loop]. unfold bind.
  destruct (ready_entry w) as [e|] eqn:Hr.
  - rewrite (ProgressValidated_turn_ready _ _ Hr). apply IH.
    eapply tidy_kept_tidy; [apply advanced_tidy_kept | exact Hw].
  - destruct (ProgressValidated_turn_stop_calm _ (proj1 Hw) Hr) as (evs & -> & Hc).
    cbn [snd]. eapply tidy_kept_tidy; [by apply tidy_add_events | exact Hw].
Qed.

Lemma sendValidations_turn_stop_calm w :
  table_ok w -> dispatch_target w = None ->
  exists evs, sendValidations_turn w = (inr Return, add_events evs w) /\
              forallb calm evs = true.
Proof.
  intros Ht. unfold dispatch_target, sendValidations_turn. msimp.
  destruct (atomicValidationsRunning (v w) >=? concurrentRunsLimit (v w));
    [intros _; exists []; by rewrite add_events_nil|].
  destruct (posToValidate (v w)) as [|head q] eqn:Hq;
    [intros _; exists []; by rewrite add_events_nil|].
  destruct (Pos head =? posNextSend (v w)); cbn [negb];
    [|intros _; exists []; by rewrite add_events_nil].
  destruct (validationEntries (validatorStatic w) !! posNextSend (v w)) as [p|] eqn:Hp;
    [|intros _; exists []; by rewrite add_events_nil].
  msimp. destruct (Ht _ _ Hp) as (e & He & _). rewrite He.
  change posToValidateList with (list PosInSequencer) in *.
  destruct ((head :: q) !! StupidSearchPos (head :: q) (EntryPos e)) as [end_|];
    [|intros _; exists []; by rewrite add_events_nil].
  destruct (Pos end_ =? EntryPos e); cbn [negb];
    [done|intros _; exists []; by rewrite add_events_nil].
Qed.

(** With a sound table the end record of a dispatch is the head of the queue. *)
Lemma dispatch_target_head w p e head end_ idx :
  table_ok w -> dispatch_target w = Some (p, e, head, end_, idx) ->
  idx = 0%nat /\ end_ = head /\ EntryPos e = posNextSend (v w).
Proof.
  intros Ht (_ & Hhead & Hnext & Hp & He & Hidx & Hend & _)%dispatch_target_Some.
  destruct (Ht _ _ Hp) as (e' & He' & Hpos).
  assert (e' = e) by congruence. subst e'.
  destruct (posToValidate (v w)) as [|h q] eqn:Hq; [done|].
  injection Hhead as ->. cbn [StupidSearchPos] in Hidx.
  rewrite Hpos, Hnext, Z.ltb_irrefl in Hidx. subst idx.
  injection Hend as <-. done.
Qed.

Lemma sent_tidy w t : tidy w -> dispatch_target w = Some t -> tidy (sent t w).
Proof.
  intros [Ht Hevs] Htarget. destruct t as [[[[p e] head] end_] idx].
  destruct (dispatch_target_head _ _ _ _ _ _ Ht Htarget) as (_ & -> & Hpos).
  apply dispatch_target_Some in Htarget as (_ & _ & Hnext & _ & He & _).
  split; [exact Ht|]. unfold sent. wfields.
  apply Forall_app. split; [exact Hevs|]. apply Forall_singleton.
  split; [done|]. exists e. split; [exact He | congruence].
Qed.

Lemma sendValidations_loop_tidy fuel w : tidy w -> tidy (sendValidations_loop fuel w).2.
Proof.
  revert w. induction fuel as [|fuel IH]; intros w Hw; [done|].
  cbn [sendValidations_loop]. unfold bind.
  destruct (dispatch_target w) as [t|] eqn:Ht.
  - rewrite (sendValidations_turn_ready _ _ Ht). by apply IH, sent_tidy.
  - destruct (sendValidations_turn_stop_calm _ (proj1 Hw) Ht) as (evs & -> & Hc).
    cbn [snd]. eapply tidy_kept_tidy; [by apply tidy_add_events | exact Hw].
Qed.

Lemma run_action_tidy a w : tidy w -> tidy (run_action a w).
Proof.
  intros Hw. destruct a; cbn [run_action]; unfold after.
  - eapply tidy_kept_tidy; [apply tidy_prepareBlock | exact Hw].
  - eapply tidy_kept_tidy; [apply tidy_ProcessBatches | exact Hw].
  - unfold sendValidations. msimp. apply sendValidations_loop_tidy.
    eapply tidy_kept_tidy; [|exact Hw].
    eapply tidy_kept_trans; apply tidy_v.
  - eapply tidy_kept_tidy; [apply tidy_validate | exact Hw].
  - unfold ProgressValidated. msimp. by apply ProgressValidated_loop_tidy.
  - eapply tidy_kept_tidy; [apply tidy_Start | exact Hw].
Qed.

Lemma boot_tidy cfg : tidy (boot cfg).
Proof.
  rewrite boot_eq. split.
  - intros k p. unfold process_start. vfields. by rewrite lookup_empty.
  - by repeat constructor.
Qed.

Lemma run_tidy cfg actions : tidy (run_actions actions (boot cfg)).
Proof. apply run_actions_invariant; [apply run_action_tidy | apply boot_tidy]. Qed.

(** X10.  In every run of the process each task is started for an entry of the
    table with one and the same queue record as start and as end record, the
    record of the entry's position: the entries are stored under their own
    position (line 212), so the record found for the entry (line 441) is the
    head of the queue.  The arguments of a started task therefore pass the
    check of line 312. *)
Theorem started_tasks_have_one_record (cfg : BlockValidatorConfig) (actions : list Action)
    (p : nat) (start end_ : PosInSequencer) :
  let w := run_actions actions (boot cfg) in
  EvGoValidate p start end_ ∈ events w ->
  start = end_ /\
  exists e, heap w !! p = Some e /\ EntryPos e = Pos end_ /\
            negb (EntryPos e =? Pos end_) = false.
Proof.
  cbv zeta. intros Hin. destruct (run_tidy cfg actions) as [_ Hevs].
  rewrite Forall_forall in Hevs. destruct (Hevs _ Hin) as [Heq (e & Hp & He)].
  split; [exact Heq|]. exists e. split; [exact Hp|]. split; [exact He|].
  by rewrite He, Z.eqb_refl.
Qed.

(** X11.  In every run of the process each value of the entry table points to an
    entry, stored under its own position, so the branches for a table value
    that is no entry (lines 437 and 477) are never taken: neither
    [sendValidations] nor [ProgressValidated] ever logs a bad entry. *)
Theorem table_holds_entries (cfg : BlockValidatorConfig) (actions : list Action) :
  let w := run_actions actions (boot cfg) in
  (forall k p, validationEntries (validatorStatic w) !! k = Some p ->
     exists e, heap w !! p = Some e /\ EntryPos e = k)
  /\ forall lvl msg kv, EvLog lvl msg kv ∈ events w ->
       msg <> "bad entry trying to validate batch" /\
       msg <> "bad entry trying to advance validated counter".
Proof.
  cbv zeta. destruct (run_tidy cfg actions) as [Ht Hevs]. split; [exact Ht|].
  intros lvl msg kv Hin. rewrite Forall_forall in Hevs. specialize (Hevs _ Hin).
  simpl in Hevs. apply orb_false_iff in Hevs as [H1 H2].
  apply String.eqb_neq in H1, H2. done.
Qed.


(** ** What the progress tracker removes *)

Lemma destroyed_app a b : destroyed (a ++ b) = destroyed a ++ destroyed b.
Proof.
  induction a as [|ev a IH]; [done|].
  destruct ev; simpl; by rewrite ?IH.
Qed.

Lemma omap_ext_in {A B} (f g : A -> option B) (l : list A) :
  (forall x, x ∈ l -> f x = g x) -> omap f l = omap g l.
Proof.
  induction l as [|x l IH]; intros Hfg; [done|].
  assert (Hrest : omap f l = omap g l) by (apply IH; intros y Hy; apply Hfg; by right).
  change (match f x with Some y => y :: omap f l | None => omap f l end
          = match g x with Some y => y :: omap g l | None => omap g l end).
  rewrite (Hfg x) by (by left). by rewrite Hrest.
Qed.

Lemma evict_result_spec n batch m :
  (forall k, (evict_result n batch m).1 !! k
             = if bool_decide (batch <= k < batch + Z.of_nat n) then None else m !! k)
  /\ destroyed (evict_result n batch m).2
     = omap (fun k => m !! k) (seqZ batch (Z.of_nat n)).
Proof.
  revert batch m. induction n as [|n IH]; intros batch m.
  - split; [|done]. intros k. simpl. rewrite bool_decide_eq_false_2; [done | lia].
  - cbn [evict_result fst snd]. destruct (IH (batch + 1) (delete batch m)) as [IH1 IH2].
    split.
    + intros k. rewrite IH1.
      destruct (decide (k = batch)) as [->|Hne].
      * rewrite lookup_delete_eq. rewrite (bool_decide_eq_true_2 (batch <= batch < _)) by lia.
        by destruct (bool_decide _).
      * rewrite lookup_delete_ne by done.
        apply (f_equal (fun b : bool => if b then None else m !! k)).
        apply bool_decide_ext. lia.
    + rewrite seqZ_cons by lia.
      replace (Z.succ batch) with (batch + 1) by lia.
      replace (Z.pred (Z.of_nat (S n))) with (Z.of_nat n) by lia.
      cbn [omap list_omap].
      assert (Hrest : omap (fun k => delete batch m !! k) (seqZ (batch + 1) (Z.of_nat n))
                      = omap (fun k => m !! k) (seqZ (batch + 1) (Z.of_nat n))).
      { apply omap_ext_in. intros k Hk%elem_of_seqZ. apply lookup_delete_ne. lia. }
      destruct (m !! batch) as [cbyte|]; simpl; rewrite IH2, Hrest; done.
Qed.

(** X20.  A turn of [ProgressValidated] that advances over an entry empties the
    registry of batches exactly in the range of the eviction loop, from
    [batchNrValidated] up to but not including the entry's [SeqMsgNr]: every
    batch in the range is removed, every batch outside it is left as it is,
    and the buffers of the batches that were in the range are destroyed, each
    once, in the order of their numbers. *)
Theorem ProgressValidated_turn_evicts (w : World) (p : nat) (e : validationEntry) :
  validationEntries (validatorStatic w) !! posNext (v w) = Some p ->
  heap w !! p = Some e ->
  Valid e = true ->
  BlockNumber e = add64 (blocksValidated (v w)) 1 ->
  let w' := (ProgressValidated_turn w).2 in
  let first := batchNrValidated (v w) in
  (forall k, sequencerBatches (validatorStatic w') !! k
             = if bool_decide (first <= k < SeqMsgNr e) then None
               else sequencerBatches (validatorStatic w) !! k)
  /\ destroyed (events w')
     = destroyed (events w)
       ++ omap (fun k => sequencerBatches (validatorStatic w) !! k)
            (seqZ first (SeqMsgNr e - first)).
Proof.
  intros Hp He Hvalid Hnum.
  assert (Hr : ready_entry w = Some e) by (apply ready_entry_Some; eauto).
  cbv zeta. rewrite (ProgressValidated_turn_ready _ _ Hr). cbn [snd].
  unfold advanced. vfields.
  set (n := Z.to_nat (SeqMsgNr e - batchNrValidated (v w))).
  destruct (evict_result_spec n (batchNrValidated (v w)) (sequencerBatches (validatorStatic w)))
    as [H1 H2].
  split.
  - intros k. rewrite H1.
    apply (f_equal (fun b : bool => if b then None else _ !! k)).
    apply bool_decide_ext. subst n. lia.
  - rewrite !destroyed_app, H2. simpl. rewrite app_nil_r. do 2 f_equal.
    subst n. destruct (decide (0 <= SeqMsgNr e - batchNrValidated (v w))).
    + by rewrite Z2Nat.id.
    + replace (Z.to_nat (SeqMsgNr e - batchNrValidated (v w))) with 0%nat by lia.
      by rewrite !seqZ_nil by lia.
Qed.

Lemma size_pos_lookup (m : gmap Z nat) k p : m !! k = Some p -> (0 < size m)%nat.
Proof.
  intros Hk. destruct (size m) eqn:Hs; [|lia].
  apply map_size_empty_inv in Hs. rewrite Hs in Hk. by rewrite lookup_empty in Hk.
Qed.

Lemma ProgressValidated_loop_removes fuel w :
  let w' := (ProgressValidated_loop fuel w).2 in
  heap w' = heap w
  /\ validationEntries (validatorStatic w') ⊆ validationEntries (validatorStatic w)
  /\ (forall k p, validationEntries (validatorStatic w) !! k = Some p ->
        validationEntries (validatorStatic w') !! k = None ->
        exists e, heap w !! p = Some e /\ Valid e = true)
  /\ exists vals,
       published (events w') = published (events w) ++ vals /\
       size (validationEntries (validatorStatic w))
       = (size (validationEntries (validatorStatic w')) + length vals)%nat.
Proof.
  revert w. induction fuel as [|fuel IH]; intros w; cbv zeta.
  { simpl. split; [done|]. split; [done|]. split; [congruence|].
    exists []. by rewrite app_nil_r, Nat.add_0_r. }
  cbn [ProgressValidated_loop]. unfold bind.
  destruct (ready_entry w) as [e|] eqn:Hr.
  - rewrite (ProgressValidated_turn_ready _ _ Hr).
    destruct (IH (advanced e w)) as (Hheap & Hsub & Hvalid & vals & Hvals & Hsize).
    apply ready_entry_Some in Hr as (p & Hp & He & Hv & _).
    assert (Htable : validationEntries (validatorStatic (advanced e w))
                     = delete (posNext (v w)) (validationEntries (validatorStatic w)))
      by reflexivity.
    rewrite Htable in Hsub, Hvalid, Hsize.
    split; [by rewrite Hheap|]. split; [|split].
    + etrans; [exact Hsub | apply delete_subseteq].
    + intros k q Hk Hnone. destruct (decide (k = posNext (v w))) as [->|Hne].
      * assert (q = p) by congruence. subst q. eauto.
      * apply (Hvalid k q); [by rewrite lookup_delete_ne | exact Hnone].
    + exists (BlockNumber e :: vals). rewrite Hvals, advanced_published, <- app_assoc.
      split; [done|]. rewrite map_size_delete_Some in Hsize by eauto.
      pose proof (size_pos_lookup _ _ _ Hp). simpl. lia.
  - destruct (ProgressValidated_turn_stop _ Hr) as (evs & -> & Hq). cbn [snd]. wfields.
    split; [done|]. split; [done|]. split; [congruence|].
    exists []. by rewrite published_app, (published_quiet _ Hq), !app_nil_r, Nat.add_0_r.
Qed.

Lemma ProgressValidated_loop_done fuel w :
  (size (validationEntries (validatorStatic w)) < fuel)%nat ->
  ready_entry (ProgressValidated_loop fuel w).2 = None.
Proof.
  revert w. induction fuel as [|fuel IH]; intros w Hsize; [lia|].
  cbn [ProgressValidated_loop]. unfold bind.
  destruct (ready_entry w) as [e|] eqn:Hr.
  - rewrite (ProgressValidated_turn_ready _ _ Hr). apply IH.
    apply ready_entry_Some in Hr as (p & Hp & _).
    unfold advanced. vfields. rewrite map_size_delete_Some by eauto.
    pose proof (size_pos_lookup _ _ _ Hp). lia.
  - destruct (ProgressValidated_turn_stop _ Hr) as (evs & -> & _). cbn [snd]. exact Hr.
Qed.

(** X21.  [ProgressValidated] takes out of the table only entries that are
    validated.  It leaves the entries themselves untouched; the table it
    leaves is a part of the table it found; an entry that left the table was
    marked valid; it publishes one value of the counter for each entry that
    left; and it goes as far as it can: when it returns, there is no valid
    entry with the next block number at [posNext]. *)
Theorem ProgressValidated_removes_validated_only (w : World) :
  let w' := after ProgressValidated w in
  heap w' = heap w
  /\ validationEntries (validatorStatic w') ⊆ validationEntries (validatorStatic w)
  /\ (forall k p, validationEntries (validatorStatic w) !! k = Some p ->
        validationEntries (validatorStatic w') !! k = None ->
        exists e, heap w !! p = Some e /\ Valid e = true)
  /\ (exists vals,
        published (events w') = published (events w) ++ vals /\
        size (validationEntries (validatorStatic w))
        = (size (validationEntries (validatorStatic w')) + length vals)%nat)
  /\ ~ exists p e,
         validationEntries (validatorStatic w') !! posNext (v w') = Some p /\
         heap w' !! p = Some e /\ Valid e = true /\
         BlockNumber e = add64 (blocksValidated (v w')) 1.
Proof.
  cbv zeta. unfold after, ProgressValidated. msimp.
  destruct (ProgressValidated_loop_removes
              (S (size (validationEntries (validatorStatic w)))) w) as (H1 & H2 & H3 & H4).
  split; [exact H1|]. split; [exact H2|]. split; [exact H3|]. split; [exact H4|].
  intros (p & e & Hready).
  assert (Hr : ready_entry (ProgressValidated_loop
                              (S (size (validationEntries (validatorStatic w)))) w).2 = Some e)
    by (apply ready_entry_Some; eauto).
  rewrite ProgressValidated_loop_done in Hr by lia. done.
Qed.


(** ** [ProcessBatches] *)

Lemma store_batches_union (batches : list (Z * list byte)) (m : gmap Z CByteArray) :
  NoDup batches.*1 ->
  foldl (fun m kv => <[kv.1 := kv.2]> m) m batches = list_to_map batches ∪ m.
Proof.
  revert m. induction batches as [|[k msg] batches IH]; intros m Hnd.
  - simpl. by rewrite (left_id_L ∅ (∪)).
  - rewrite fmap_cons in Hnd. apply NoDup_cons in Hnd as [Hk Hnd]. cbn [foldl fst snd] in *.
    rewrite IH by done. rewrite list_to_map_cons, <- insert_union_l.
    symmetry. apply insert_union_r. by apply not_elem_of_list_to_map_1.
Qed.

(** X5.  [ProcessBatches] registers every batch of the map it is given under the
    batch's number, replacing what was registered there, and leaves the other
    batches of the registry as they are - whatever the order in which the Go
    map is walked.  It appends the position records to the queue in their
    order, wakes the dispatcher without blocking, and does nothing else: the
    table of entries is untouched and no buffer is destroyed, not even one
    that it replaces. *)
Theorem ProcessBatches_registers (batches batches' : list (Z * list byte))
    (posData : list PosInSequencer) (w : World) :
  NoDup batches.*1 ->
  batches' ≡ₚ batches ->
  let w' := after (ProcessBatches batches posData) w in
  after (ProcessBatches batches' posData) w = w'
  /\ (forall k msg, (k, msg) ∈ batches ->
        sequencerBatches (validatorStatic w') !! k = Some msg)
  /\ (forall k, k ∉ batches.*1 ->
        sequencerBatches (validatorStatic w') !! k = sequencerBatches (validatorStatic w) !! k)
  /\ posToValidate (v w') = posToValidate (v w) ++ posData
  /\ events w' = events w ++ [EvTrySend sendValidationsChan]
  /\ validationEntries (validatorStatic w') = validationEntries (validatorStatic w)
  /\ heap w' = heap w.
Proof.
  intros Hnd Hperm. cbv zeta. unfold after, ProcessBatches. msimp. cbn [snd].
  assert (Hnd' : NoDup batches'.*1) by (by rewrite Hperm).
  split; [|split; [|split]]; [| | |done].
  - world_eq; try done. vfields. rewrite !store_batches_union by done.
    do 2 f_equal. by apply list_to_map_proper.
  - intros k msg Hin. vfields. rewrite store_batches_union by done.
    apply lookup_union_Some_l. by apply elem_of_list_to_map_1.
  - intros k Hk. vfields. rewrite store_batches_union by done.
    apply lookup_union_r. by apply not_elem_of_list_to_map_1.
Qed.


(** ** What a task frees and what it touches *)

Lemma freed_app a b : freed (a ++ b) = freed a ++ freed b.
Proof.
  induction a as [|ev a IH]; [done|].
  destruct ev; simpl; by rewrite ?IH.
Qed.

Lemma free_kept_refl w : free_kept w w.
Proof. reflexivity. Qed.

Lemma free_kept_trans a b c : free_kept a b -> free_kept b c -> free_kept a c.
Proof. unfold free_kept. congruence. Qed.

Lemma free_kept_event ev w :
  match ev with EvFree _ => false | _ => true end = true -> free_kept w (with_event ev w).
Proof.
  intros Hev. unfold free_kept. wfields. rewrite freed_app.
  destruct ev; try done; simpl; by rewrite app_nil_r.
Qed.

Ltac free_update := first [ reflexivity | apply free_kept_event; reflexivity ].

Ltac free_walk := keeps_walk free_kept_refl free_kept_trans ltac:(free_update).

Lemma free_kept_fs_seq ops : keeps free_kept (fs_seq ops).
Proof. induction ops as [|op ops IH]; simpl; free_walk. Qed.

Lemma free_kept_writeToFile e start end_ cp sq dl :
  keeps free_kept (writeToFile e start end_ cp sq dl).
Proof. unfold writeToFile. pose proof free_kept_fs_seq. free_walk. Qed.

Lemma free_kept_destroy_all msgs : keeps free_kept (destroy_all msgs).
Proof. induction msgs as [|m msgs IH]; simpl; free_walk. Qed.

Lemma free_kept_run_machine fuel ctx n m s : keeps free_kept (run_machine fuel ctx n m s).
Proof. revert m s. induction fuel as [|fuel IH]; intros m s; simpl; free_walk. Qed.

Lemma free_kept_validate_checks p start end_ : keeps free_kept (validate_checks p start end_).
Proof. unfold validate_checks, PrepareMultByteArrays. free_walk. Qed.

Lemma free_kept_validate_body fuel ctx p start end_ (packed : CMultipleByteArrays * option string) :
  keeps free_kept
    (r <- validate_to_halt fuel ctx p start end_ packed.1 packed.2 ;;
     validate_finish p start end_ packed.1 r.1.1 r.1.2 r.2).
Proof.
  pose proof free_kept_writeToFile. pose proof free_kept_destroy_all.
  pose proof free_kept_run_machine.
  unfold validate_to_halt, validate_finish, write_artifact,
    abort_if_invalid, release_entry, RemoveFromCache, ParseGlobalState.
  free_walk.
Qed.

Lemma validate_unfold fuel ctx p start end_ w :
  validate fuel ctx p start end_ w =
  match validate_checks p start end_ w with
  | (inl packed, w0) =>
      defer (emit (EvFree packed.1))
        (r <- validate_to_halt fuel ctx p start end_ packed.1 packed.2 ;;
         validate_finish p start end_ packed.1 r.1.1 r.1.2 r.2) w0
  | (inr x, w0) => (inr x, w0)
  end.
Proof. reflexivity. Qed.

(** X13.  A task frees the packed preimage array exactly once, as the last thing it
    does, on every way out - normal end, [return], [runtime.Goexit] or
    [panic] - once the checks of its arguments have passed, whether or not
    the packing succeeded; a task that fails these checks (lines 308-315)
    frees nothing.  A task frees no other array. *)
Theorem validate_frees_once fuel ctx p start end_ (w : World) :
  let w' := after (validate fuel ctx p start end_) w in
  match (validate_checks p start end_ w).1 with
  | inl packed =>
      freed (events w') = freed (events w) ++ [packed.1]
      /\ last (events w') = Some (EvFree packed.1)
  | inr _ => freed (events w') = freed (events w)
  end.
Proof.
  cbv zeta. unfold after. rewrite validate_unfold.
  pose proof (free_kept_validate_checks p start end_ w) as Hc.
  destruct (validate_checks p start end_ w) as [[packed|x] w0]; cbn [fst snd] in *;
    [|exact Hc].
  unfold defer.
  pose proof (free_kept_validate_body fuel ctx p start end_ packed w0) as Hb.
  destruct (bind _ _ w0) as [r w1]. cbn [snd] in *. msimp. cbn [snd]. wfields.
  split; [|by rewrite last_snoc].
  rewrite freed_app. unfold free_kept in *. simpl. congruence.
Qed.


Lemma same_block_refl e : same_block e e.
Proof. by repeat split. Qed.

Lemma same_block_trans a b c : same_block a b -> same_block b c -> same_block a c.
Proof.
  unfold same_block. intros (?&?&?&?&?&?&?&?) (?&?&?&?&?&?&?&?).
  repeat split; try congruence. auto.
Qed.

Lemma same_validator_refl b : same_validator b b.
Proof. by destruct b. Qed.

Lemma same_validator_trans a b c :
  same_validator a b -> same_validator b c -> same_validator a c.
Proof.
  unfold same_validator. destruct a, b, c; simpl. intros [= -> -> -> -> -> -> -> ->].
  intros [= -> -> -> -> -> -> -> ->]. reflexivity.
Qed.

Lemma task_kept_eq p w w' :
  v w' = v w -> validatorStatic w' = validatorStatic w -> heap w' = heap w ->
  cacheDir w' = cacheDir w -> task_kept p w w'.
Proof.
  intros Hv Hs Hh Hc. unfold task_kept. rewrite Hv, Hs, Hh, Hc.
  repeat split; [apply same_validator_refl|].
  intros e He. exists e. split; [done | apply same_block_refl].
Qed.

Lemma task_kept_refl p w : task_kept p w w.
Proof. by apply task_kept_eq. Qed.

Lemma task_kept_trans p a b c : task_kept p a b -> task_kept p b c -> task_kept p a c.
Proof.
  intros (Hs1 & Hc1 & Hv1 & Hl1 & Hq1 & Hp1) (Hs2 & Hc2 & Hv2 & Hl2 & Hq2 & Hp2).
  split; [congruence|]. split; [congruence|].
  split; [by eapply same_validator_trans|]. split; [congruence|]. split.
  - intros q Hq. rewrite Hq2, Hq1; done.
  - intros e He. destruct (Hp1 e He) as (e1 & He1 & Hb1).
    destruct (Hp2 e1 He1) as (e2 & He2 & Hb2).
    exists e2. split; [done | by eapply same_block_trans].
Qed.

Lemma task_kept_v p f w : (forall b, same_validator b (f b)) -> task_kept p w (with_v f w).
Proof.
  intros Hf. unfold task_kept. wfields. repeat split; [apply Hf|].
  intros e He. exists e. split; [done | apply same_block_refl].
Qed.

Lemma task_kept_update_entry p f :
  (forall e, same_block e (f e)) -> keeps (task_kept p) (update_entry p f).
Proof.
  intros Hf w. unfold update_entry, bind, deref.
  destruct (heap w !! p) as [e|] eqn:Hp; [|apply task_kept_refl].
  msimp. cbn [snd]. unfold task_kept. wfields.
  repeat split; [apply same_validator_refl | by rewrite length_insert | |].
  - intros q Hq. by rewrite list_lookup_insert_ne.
  - intros e' He'. assert (e' = e) by congruence. subst e'. exists (f e).
    split; [|apply Hf]. apply list_lookup_insert_eq. by eapply lookup_lt_Some.
Qed.

Ltac task_update :=
  first [ apply task_kept_eq; reflexivity
        | apply task_kept_v; intros []; reflexivity ].

Ltac task_walk p :=
  keeps_walk (task_kept_refl p) (task_kept_trans p) ltac:(task_update).

Lemma task_kept_fs_seq p ops : keeps (task_kept p) (fs_seq ops).
Proof. induction ops as [|op ops IH]; simpl; task_walk p. Qed.

Lemma task_kept_writeToFile p e start end_ cp sq dl :
  keeps (task_kept p) (writeToFile e start end_ cp sq dl).
Proof. unfold writeToFile. pose proof (task_kept_fs_seq p). task_walk p. Qed.

Lemma task_kept_destroy_all p msgs : keeps (task_kept p) (destroy_all msgs).
Proof. induction msgs as [|m msgs IH]; simpl; task_walk p. Qed.

Lemma task_kept_run_machine p fuel ctx n m s :
  keeps (task_kept p) (run_machine fuel ctx n m s).
Proof. revert m s. induction fuel as [|fuel IH]; intros m s; simpl; task_walk p. Qed.

Lemma task_kept_validate fuel ctx p start end_ :
  keeps (task_kept p) (validate fuel ctx p start end_).
Proof.
  pose proof (task_kept_writeToFile p). pose proof (task_kept_destroy_all p).
  pose proof (task_kept_run_machine p).
  pose proof (fun x => task_kept_update_entry p (set_SeqMsgNr x)
                         (fun e => same_block_refl e)).
  pose proof (fun x => task_kept_update_entry p (set_Running x)
                         (fun e => same_block_refl e)).
  pose proof (fun x => task_kept_update_entry p (set_MsgsAllocated x)
                         (fun e => same_block_refl e)).
  pose proof (fun x => task_kept_update_entry p (set_Preimages x)
                         (fun e => same_block_refl e)).
  pose proof (task_kept_update_entry p (set_Valid true)
                (fun e => ltac:(by repeat split))).
  unfold validate, validate_checks, validate_to_halt, validate_finish, write_artifact,
    abort_if_invalid, release_entry, PrepareMultByteArrays, RemoveFromCache, ParseGlobalState.
  task_walk p.
Qed.

(** X14.  A task works on its own entry only.  Whatever its arguments and however
    it ends, [validate] leaves the table of entries, the registry of batches
    and every other entry as they are; of the validator it changes at most
    the preimage cache and the counter of running tasks - never the queue,
    [posNext], [posNextSend], [blocksValidated], the base machine or the
    configuration; and its own entry stays the entry of the same block (same
    number, hashes, header, delayed message and position), and stays valid if
    it was. *)
Theorem validate_touches_its_entry_only fuel ctx p start end_ (w : World) :
  let w' := after (validate fuel ctx p start end_) w in
  validatorStatic w' = validatorStatic w
  /\ cacheDir w' = cacheDir w
  /\ (posToValidate (v w') = posToValidate (v w) /\ posNext (v w') = posNext (v w)
      /\ batchNrValidated (v w') = batchNrValidated (v w)
      /\ blocksValidated (v w') = blocksValidated (v w)
      /\ posNextSend (v w') = posNextSend (v w) /\ baseMachine (v w') = baseMachine (v w)
      /\ config (v w') = config (v w)
      /\ concurrentRunsLimit (v w') = concurrentRunsLimit (v w))
  /\ length (heap w') = length (heap w)
  /\ (forall q, q <> p -> heap w' !! q = heap w !! q)
  /\ (forall e, heap w !! p = Some e ->
        exists e', heap w' !! p = Some e'
          /\ BlockNumber e' = BlockNumber e /\ PrevBlockHash e' = PrevBlockHash e
          /\ BlockHash e' = BlockHash e /\ BlockHeader e' = BlockHeader e
          /\ HasDelayedMsg e' = HasDelayedMsg e /\ DelayedMsgNr e' = DelayedMsgNr e
          /\ EntryPos e' = EntryPos e /\ (Valid e = true -> Valid e' = true)).
Proof.
  cbv zeta. destruct (task_kept_validate fuel ctx p start end_ w)
    as (Hs & Hc & Hv & Hl & Hq & Hp).
  split; [exact Hs|]. split; [exact Hc|]. split.
  { unfold same_validator, after in *. rewrite <- Hv.
    by destruct (v (validate fuel ctx p start end_ w).2). }
  split; [exact Hl|]. split; [exact Hq|]. exact Hp.
Qed.


(** X15.  A task gives its slot back exactly when it runs to its last statement.
    When [validate] ends normally it has subtracted one from
    [atomicValidationsRunning], released the references of the entry's
    preimages, marked the entry valid with its lists of preimages and
    allocated messages emptied, and, as its last two sends, woken the
    progress tracker and then the dispatcher.  When it ends in any other way -
    an early [return], a cancelled step, [runtime.Goexit] or a [panic] - the
    validator is exactly as it was: the slot stays taken and the references
    stay in the cache. *)
Theorem validate_returns_slot_at_end fuel ctx p start end_ (w : World) :
  let w' := after (validate fuel ctx p start end_) w in
  ((validate fuel ctx p start end_ w).1 = inl tt ->
   exists e e' evs cp,
     heap w !! p = Some e /\ heap w' !! p = Some e'
     /\ atomicValidationsRunning (v w') = add32 (atomicValidationsRunning (v w)) (-1)
     /\ preimageCache (v w') = preimageCache (v (after (RemoveFromCache (Preimages e)) w))
     /\ Valid e' = true /\ Preimages e' = [] /\ MsgsAllocated e' = []
     /\ SeqMsgNr e' = BatchNum start
     /\ events w' = events w ++ evs
                    ++ [EvSend checkProgressChan; EvSend sendValidationsChan; EvFree cp])
  /\ ((validate fuel ctx p start end_ w).1 <> inl tt -> v w' = v w).
Proof.
  cbv zeta. split; [|apply validate_releases_only_at_end].
  intros Hok. unfold after.
  assert (Hcheck : exists evs, (validate_checks p start end_ w).2 = add_events evs w).
  { unfold validate_checks, bind, deref, PrepareMultByteArrays.
    destruct (heap w !! p) as [e|]; [|exists []; by rewrite add_events_nil].
    msimp. wfields. destruct (initialized (validatorStatic w)); cbn [negb]; msimp;
      [|eexists; by rewrite !with_event_add, add_events_add].
    destruct (EntryPos e =? Pos end_); cbn [negb]; msimp;
      eexists; by rewrite ?with_event_add, ?add_events_add. }
  destruct Hcheck as (evs0 & Hw0).
  destruct (validate_checks p start end_ w) as [[[cp err]|x] w0] eqn:Hc;
    [|by rewrite validate_unfold, Hc in Hok].
  cbn [snd] in Hw0. subst w0.
  destruct (validate_to_halt fuel ctx p start end_ cp err (add_events evs0 w))
    as [[[[sq dl] mach]|x] w1] eqn:Hh.
  2: { rewrite validate_unfold, Hc in Hok. unfold defer in Hok. cbn [fst snd] in Hok.
       by rewrite (bind_inr _ _ _ _ _ Hh) in Hok. }
  rewrite (validate_halted _ _ _ _ _ _ _ _ _ _ _ _ _ Hc Hh) in Hok |- *.
  cbn [fst snd] in Hok |- *.
  destruct (validate_to_halt_inv _ _ _ _ _ _ _ _ _ _ _ _ Hh)
    as (e & evs1 & Hp & _ & _ & _ & Hw1).
  change (heap w !! p = Some e) in Hp.
  assert (Hlt : (p < length (heap w))%nat) by (by eapply lookup_lt_Some).
  set (e1 := set_Running true (set_SeqMsgNr (BatchNum start) e)) in *.
  assert (Hp1 : heap w1 !! p = Some e1).
  { rewrite Hw1. wfields. by apply list_lookup_insert_eq. }
  destruct (resultValid (GetGlobalState mach) end_ e1) eqn:Hv;
    [|by rewrite (validate_finish_invalid _ _ _ _ _ _ _ _ _ Hp1 Hv) in Hok].
  rewrite (validate_finish_valid _ _ _ _ _ _ _ _ _ Hp1 Hv). cbn [fst snd].
  exists e, (set_Valid true (set_Preimages [] (set_MsgsAllocated [] e1))),
    (evs0 ++ evs1
     ++ (if writeThisBlock (config (v w)) e1 true
         then artifact_trace (config (v w)) e1 start end_ cp sq dl else [])
     ++ (match (foldl release_one (preimageCache (v w), None) (Preimages e1)).2 with
         | Some er => [EvLog LvlError "validator failed to remove from cache" [("err", VStr er)]]
         | None => []
         end ++ map (fun m => EvDestroyCByteArray (data m)) (MsgsAllocated e1))
     ++ [EvLog LvlInfo "validation succeeded" [("blockNr", VNum (BlockNumber e1))]]), cp.
  split; [exact Hp|]. unfold released. rewrite Hw1. vfields.
  split; [apply list_lookup_insert_eq; by rewrite length_insert|].
  split; [done|].
  split.
  { unfold after, RemoveFromCache. msimp.
    destruct (foldl release_one (preimageCache (v w), None) (Preimages e)) as [c' err'] eqn:Hf.
    subst e1. cbn [Preimages set_Running set_SeqMsgNr]. rewrite Hf. msimp. done. }
  do 4 (split; [reflexivity|]).
  rewrite <- !app_assoc. reflexivity.
Qed.


(** ** The calls of [writeToFile] *)

Lemma fs_seq_trace_prefix ops :
  exists n,
    (n <= length ops)%nat
    /\ (fs_seq_trace ops).1 = map (fun op => EvFs op (fs_result op)) (take n ops)
    /\ Forall (fun op => fs_result op = None) (take (pred n) ops)
    /\ (fs_seq_trace ops).2 = last (take n ops) ≫= fs_result
    /\ ((fs_seq_trace ops).2 = None -> n = length ops).
Proof.
  induction ops as [|op ops IH]; [by exists 0%nat|].
  cbn [fs_seq_trace]. destruct (fs_result op) as [er|] eqn:Hop.
  - exists 1%nat. cbn [fst snd take map length pred]. rewrite Hop.
    repeat split; [lia | done | | done].
    rewrite ?take_0. simpl. by rewrite ?Hop.
  - destruct IH as (n & Hn & Hevs & Hok & Hres & Hall).
    destruct (fs_seq_trace ops) as [evs r]. cbn [fst snd] in *.
    exists (S n). cbn [take map length pred]. rewrite Hop, Hevs.
    repeat split; [lia | | |].
    + destruct n as [|n]; [by rewrite ?take_0|]. cbn [take pred] in *. by constructor.
    + rewrite Hres. destruct n as [|n]; [rewrite ?take_0; simpl; by rewrite ?Hop|].
      destruct ops as [|op' ops]; [done|]. reflexivity.
    + intros Hr. by rewrite Hall.
Qed.

(** X18.  [writeToFile] makes its calls of the operating system in one fixed order -
    [MkdirAll], [Create], the writes of the script and of the input files,
    [Chmod] - and gives up at the first call that fails: the calls it makes
    are a front part of that list, every call but the last one made has
    succeeded, the function returns what the last call returned, and it
    returns no error only when it has made them all.  The script file is
    closed, after the last call, exactly when it has been created.  Nothing
    else of the process is touched. *)
Theorem writeToFile_stops_at_first_error (e : validationEntry) (start end_ : PosInSequencer)
    (c_preimages : CMultipleByteArrays) (sequencerCByte delayedCByte : CByteArray) (w : World) :
  let dir := artifact_dir (config (v w)) e in
  let cmdFile := filepath_Join [dir; "run-prover.sh"] in
  let all := OpMkdirAll dir :: OpCreate cmdFile ::
             artifact_ops (config (v w)) dir e start end_ c_preimages sequencerCByte delayedCByte in
  let created := match fs_result (OpMkdirAll dir), fs_result (OpCreate cmdFile) with
                 | None, None => true
                 | _, _ => false
                 end in
  let r := writeToFile e start end_ c_preimages sequencerCByte delayedCByte w in
  exists n err,
    (1 <= n <= length all)%nat
    /\ r.1 = inl err
    /\ events r.2 = events w ++ map (fun op => EvFs op (fs_result op)) (take n all)
                    ++ (if created then [EvFs (OpClose cmdFile) None] else [])
    /\ Forall (fun op => fs_result op = None) (take (pred n) all)
    /\ err = last (take n all) ≫= fs_result
    /\ (err = None -> n = length all)
    /\ v r.2 = v w /\ validatorStatic r.2 = validatorStatic w /\ heap r.2 = heap w
    /\ cacheDir r.2 = cacheDir w.
Proof.
  cbv zeta. rewrite writeToFile_eq. unfold writeToFile_trace. cbn [fst snd].
  set (dir := artifact_dir (config (v w)) e).
  set (cmdFile := filepath_Join [dir; "run-prover.sh"]).
  set (ops := artifact_ops (config (v w)) dir e start end_ c_preimages sequencerCByte delayedCByte).
  destruct (fs_result (OpMkdirAll dir)) as [er|] eqn:Hmk.
  { exists 1%nat, (Some er). cbn [fst snd take map length pred]. wfields.
    rewrite ?Hmk, ?take_0. simpl. rewrite ?Hmk. repeat split; try done; lia. }
  destruct (fs_result (OpCreate cmdFile)) as [er|] eqn:Hcr.
  { exists 2%nat, (Some er). cbn [fst snd take map length pred]. wfields.
    rewrite ?Hmk, ?Hcr, ?take_0. simpl. rewrite ?Hcr. repeat split; try done; try lia.
    by repeat constructor. }
  destruct (fs_seq_trace_prefix ops) as (n & Hn & Hevs & Hok & Hres & Hall).
  destruct (fs_seq_trace ops) as [evs res]. cbn [fst snd] in *.
  exists (S (S n)), res. cbn [take map length pred]. wfields.
  rewrite Hmk, Hcr, Hevs. repeat split; try done; try lia.
  - destruct n as [|n]; [rewrite ?take_0; by repeat constructor|].
    cbn [take pred] in *. by repeat constructor.
  - rewrite Hres. destruct n as [|n]; [rewrite ?take_0; simpl; by rewrite ?Hcr|].
    destruct ops as [|op' ops']; [done|]. reflexivity.
  - intros Hr. by rewrite Hall.
Qed.


(** ** The cleaning of the cache directory *)

Lemma scan_cache_spec env name before files found w :
  NoDup files.*1 ->
  (forall n f, (n, f) ∈ files -> cacheDir w !! n = Some f) ->
  exists found' err,
    (scan_cache env name before files found w).1 = inl (found', err)
    /\ cacheDir (scan_cache env name before files found w).2 ⊆ cacheDir w
    /\ (forall n f, cacheDir w !! n = Some f ->
          n = name \/ before <= modTime f \/ n ∉ files.*1 ->
          cacheDir (scan_cache env name before files found w).2 !! n = Some f)
    /\ (err = None ->
          found' = found || bool_decide (name ∈ files.*1) /\
          forall n f, n ∈ files.*1 ->
            cacheDir (scan_cache env name before files found w).2 !! n = Some f ->
            n = name \/ before <= modTime f)
    /\ (forall er, err = Some er ->
          exists n f, (n, f) ∈ files /\ n <> name /\ modTime f < before /\
                      env_Remove env n = Some er).
Proof.
  revert found w. induction files as [|[n0 f0] files IH]; intros found w Hnd Hin.
  { exists found, None. cbn [scan_cache]. msimp. cbn [fst snd].
    split; [done|]. split; [done|]. split; [done|]. split; [|done].
    intros _. rewrite orb_false_r. split; [done|]. intros n f Hn. by apply elem_of_nil in Hn. }
  rewrite fmap_cons in Hnd. apply NoDup_cons in Hnd as [Hn0 Hnd]. cbn [fst] in Hn0.
  assert (Hrest : forall n f, (n, f) ∈ files -> cacheDir w !! n = Some f)
    by (intros n f Hnf; apply Hin; by right).
  assert (Hf0 : cacheDir w !! n0 = Some f0) by (apply Hin; by left).
  cbn [scan_cache fst snd].
  destruct (String.eqb n0 name) eqn:Hname.
  - apply String.eqb_eq in Hname. subst n0.
    destruct (IH true w Hnd Hrest) as (found' & err & Hr & Hsub & Hkeep & Hok & Herr).
    exists found', err. split; [exact Hr|]. split; [exact Hsub|]. split; [|split].
    + intros n f Hn Hcase. destruct (decide (n = name)) as [->|Hne]; [apply Hkeep; auto|].
      apply Hkeep; [done|]. destruct Hcase as [?|[?|Hnot]]; [done | auto |].
      right. right. intros Hmem. apply Hnot. rewrite fmap_cons. by right.
    + intros Hnone. destruct (Hok Hnone) as [-> Hclean]. split.
      * rewrite fmap_cons. cbn [fst].
        rewrite (bool_decide_eq_true_2 (name ∈ name :: files.*1)) by (by left).
        by rewrite orb_true_r.
      * intros n f Hn Hl. rewrite fmap_cons in Hn. cbn [fst] in Hn.
        apply elem_of_cons in Hn as [->|Hn]; [by left | by eapply Hclean].
    + intros er Her. destruct (Herr er Her) as (n & f & Hnf & Hrem).
      exists n, f. split; [by right | exact Hrem].
  - apply String.eqb_neq in Hname.
    destruct (modTime f0 <? before) eqn:Hold.
    + apply Z.ltb_lt in Hold. msimp.
      destruct (env_Remove env n0) as [er|] eqn:Hrm.
      * msimp. cbn [fst snd]. wfields. exists found, (Some er).
        split; [done|]. split; [done|]. split; [done|]. split; [done|].
        intros er' [= <-]. exists n0, f0. split; [by left | done].
      * msimp. wfields.
        set (w1 := with_cacheDir (delete n0 (cacheDir w)) (with_event _ w)).
        assert (Hrest1 : forall n f, (n, f) ∈ files -> cacheDir w1 !! n = Some f).
        { intros n f Hnf. subst w1. wfields. rewrite lookup_delete_ne; [by apply Hrest|].
          intros ->. apply Hn0. apply list_elem_of_fmap. by exists (n, f). }
        destruct (IH found w1 Hnd Hrest1) as (found' & err & Hr & Hsub & Hkeep & Hok & Herr).
        exists found', err. split; [exact Hr|]. split; [|split; [|split]].
        -- etrans; [exact Hsub|]. subst w1. wfields. apply delete_subseteq.
        -- intros n f Hn Hcase.
           assert (Hne : n <> n0).
           { intros ->. assert (f = f0) by congruence. subst f.
             destruct Hcase as [?|[?|Hnot]]; [done | lia |].
             apply Hnot. rewrite fmap_cons. by left. }
           apply Hkeep; [subst w1; wfields; by rewrite lookup_delete_ne|].
           destruct Hcase as [?|[?|Hnot]]; [auto | auto |].
           right. right. intros Hmem. apply Hnot. rewrite fmap_cons. by right.
        -- intros Hnone. destruct (Hok Hnone) as [-> Hclean]. split.
           ++ f_equal. apply bool_decide_ext. rewrite fmap_cons, elem_of_cons. cbn [fst].
              split; [auto | intros [?|?]; [congruence | done]].
           ++ intros n f Hn Hl. rewrite fmap_cons in Hn. cbn [fst] in Hn.
              apply elem_of_cons in Hn as [->|Hn]; [|by eapply Hclean].
              pose proof (lookup_weaken _ _ _ _ Hl Hsub) as Hl1.
              change (delete n0 (cacheDir w) !! n0 = Some f) in Hl1.
              by rewrite lookup_delete_eq in Hl1.
        -- intros er Her. destruct (Herr er Her) as (n & f & Hnf & Hrem).
           exists n, f. split; [by right | exact Hrem].
    + apply Z.ltb_ge in Hold. msimp.
      set (w1 := with_event _ w).
      destruct (IH found w1 Hnd Hrest) as (found' & err & Hr & Hsub & Hkeep & Hok & Herr).
      exists found', err. split; [exact Hr|]. split; [exact Hsub|]. split; [|split].
      * intros n f Hn Hcase. destruct (decide (n = n0)) as [->|Hne].
        -- assert (f = f0) by congruence. subst f. apply Hkeep; [done|]. auto.
        -- apply Hkeep; [done|]. destruct Hcase as [?|[?|Hnot]]; [auto | auto |].
           right. right. intros Hmem. apply Hnot. rewrite fmap_cons. by right.
      * intros Hnone. destruct (Hok Hnone) as [-> Hclean]. split.
        -- f_equal. apply bool_decide_ext. rewrite fmap_cons, elem_of_cons. cbn [fst].
           split; [auto | intros [?|?]; [congruence | done]].
        -- intros n f Hn Hl. rewrite fmap_cons in Hn. cbn [fst] in Hn.
           apply elem_of_cons in Hn as [->|Hn]; [|by eapply Hclean].
           right. pose proof (lookup_weaken _ _ _ _ Hl Hsub) as Hl1.
           change (cacheDir w !! n0 = Some f) in Hl1.
           assert (f = f0) by congruence. subst f. exact Hold.
      * intros er Her. destruct (Herr er Her) as (n & f & Hnf & Hrem).
        exists n, f. split; [by right | exact Hrem].
Qed.

Lemma ReadDir_lists d n f : (n, f) ∈ ReadDir d <-> d !! n = Some f.
Proof. unfold ReadDir. rewrite merge_sort_Permutation. apply elem_of_map_to_list. Qed.

Lemma ReadDir_names d n : n ∈ (ReadDir d).*1 <-> is_Some (d !! n).
Proof.
  rewrite list_elem_of_fmap. split.
  - intros ([n' f] & -> & Hin). exists f. by apply ReadDir_lists.
  - intros [f Hf]. exists (n, f). split; [done | by apply ReadDir_lists].
Qed.

(** X23.  The scan of the cache directory (lines 558-570) removes files and does
    nothing else to the directory.  It never removes the file with the
    expected name, nor a file modified within the last 24 hours.  When no
    removal fails, no other file is left, and [foundInCache] tells whether
    the expected file is in the directory.  It stops at the first removal
    that fails, with that error: the error of removing some older file of
    another name. *)
Theorem scan_cache_cleans env (name : string) (w : World) :
  let before := env_now_scan env - day in
  let r := scan_cache env name before (ReadDir (cacheDir w)) false w in
  exists found err,
    r.1 = inl (found, err)
    /\ cacheDir r.2 ⊆ cacheDir w
    /\ (forall n f, cacheDir w !! n = Some f -> n = name \/ before <= modTime f ->
          cacheDir r.2 !! n = Some f)
    /\ (err = None ->
          found = bool_decide (is_Some (cacheDir w !! name)) /\
          forall n f, cacheDir r.2 !! n = Some f -> n = name \/ before <= modTime f)
    /\ (forall er, err = Some er ->
          exists n f, cacheDir w !! n = Some f /\ n <> name /\ modTime f < before /\
                      env_Remove env n = Some er).
Proof.
  cbv zeta.
  destruct (scan_cache_spec env name (env_now_scan env - day) (ReadDir (cacheDir w)) false w)
    as (found & err & Hr & Hsub & Hkeep & Hok & Herr).
  { unfold ReadDir. rewrite merge_sort_Permutation. apply NoDup_fst_map_to_list. }
  { intros n f. apply ReadDir_lists. }
  exists found, err. split; [exact Hr|]. split; [exact Hsub|]. split; [|split].
  - intros n f Hn Hcase. apply Hkeep; [done|]. destruct Hcase; auto.
  - intros Hnone. destruct (Hok Hnone) as [-> Hclean]. split.
    + cbn [orb]. apply bool_decide_ext. apply ReadDir_names.
    + intros n f Hl. apply (Hclean n f); [|done].
      apply ReadDir_names. exists f. by eapply lookup_weaken.
  - intros er Her. destruct (Herr er Her) as (n & f & Hnf & Hrem).
    exists n, f. split; [by apply ReadDir_lists | exact Hrem].
Qed.


(** ** A start that finds the snapshot *)

Lemma scan_cache_events env name before files found w :
  exists evs, events (scan_cache env name before files found w).2 = events w ++ evs.
Proof.
  revert found w. induction files as [|file files IH]; intros found w; cbn [scan_cache].
  - exists []. msimp. cbn [snd]. by rewrite app_nil_r.
  - destruct (String.eqb file.1 name); [apply IH|].
    destruct (modTime file.2 <? before); msimp.
    + destruct (env_Remove env file.1) as [er|]; msimp.
      * cbn [snd]. wfields. by eexists.
      * match goal with
        | |- context [scan_cache env name before files found ?W] =>
            destruct (IH found W) as (evs & ->)
        end.
        wfields. eexists. by rewrite <- app_assoc.
    + match goal with
      | |- context [scan_cache env name before files found ?W] =>
          destruct (IH found W) as (evs & ->)
      end.
      wfields. eexists. by rewrite <- app_assoc.
Qed.

(** X24.  When the snapshot of the base machine is in the cache directory and can
    be read, start-up takes the machine from it and computes nothing: [Start]
    returns no error, the base machine is the machine of the snapshot, the
    snapshot file has the same bytes and the time of the start as its
    modification time, every other file of the directory is a file that was
    there, not older than 24 hours, no [.wip] file is written, and the two
    loops are started, the progress loop first. *)
Theorem Start_loads_snapshot env ctx (w : World) (f : CacheFile) (m : Mach) :
  let name := Hash_String (MachineHash (baseMachine (v w))) +:+ ".bin" in
  let before := env_now_scan env - day in
  let w' := after (Start env ctx) w in
  env_MkdirAll env = None ->
  env_ReadDir env = None ->
  (forall n g, cacheDir w !! n = Some g -> n <> name -> modTime g < before ->
     env_Remove env n = None) ->
  env_Chtimes env = None ->
  env_read env = None ->
  cacheDir w !! name = Some f ->
  deserialize (content f) = Some m ->
  (Start env ctx w).1 = inl None
  /\ v w' = set_baseMachine m (v w)
  /\ cacheDir w' !! name = Some {| content := content f; modTime := env_now_touch env |}
  /\ (forall n g, n <> name -> cacheDir w' !! n = Some g ->
        cacheDir w !! n = Some g /\ before <= modTime g)
  /\ (forall n g, n <> name -> cacheDir w !! n = Some g -> before <= modTime g ->
        cacheDir w' !! n = Some g)
  /\ exists evs, events w' = events w ++ evs
                             ++ [EvGo "startProgressLoop"; EvGo "startValidationLoop"].
Proof.
  intros name before w' Hmk Hrd Hrm Hch Hread Hf Hde. subst w'.
  pose proof (scan_cache_spec env name before (ReadDir (cacheDir w)) false w) as Hscan.
  destruct Hscan as (found & err & Hr & Hsub & Hkeep & Hok & Herr).
  { unfold ReadDir. rewrite merge_sort_Permutation. apply NoDup_fst_map_to_list. }
  { intros n g. apply ReadDir_lists. }
  destruct err as [er|].
  { destruct (Herr er eq_refl) as (n & g & Hng%ReadDir_lists & Hne & Hold & Hfail).
    rewrite (Hrm n g Hng Hne Hold) in Hfail. done. }
  destruct (Hok eq_refl) as [Hfound Hclean]. clear Hok Herr.
  rewrite orb_false_l in Hfound.
  rewrite bool_decide_eq_true_2 in Hfound by (apply ReadDir_names; by exists f).
  subst found.
  pose proof (scan_cache_kept env name before (ReadDir (cacheDir w)) false w) as [Hv1 _].
  destruct (scan_cache_events env name before (ReadDir (cacheDir w)) false w) as (evs1 & Hev1).
  destruct (scan_cache env name before (ReadDir (cacheDir w)) false w) as [r1 w1] eqn:Hs.
  cbn [fst snd] in *. subst r1.
  assert (Hf1 : cacheDir w1 !! name = Some f) by (apply Hkeep; auto).
  assert (Hstart : Start env ctx w =
    (inl None,
     add_events [EvLog LvlInfo "found cached initial machine"
                   [("hash", VHash (MachineHash (baseMachine (v w))))];
                 EvGo "startProgressLoop"; EvGo "startValidationLoop"]
       (with_v (set_baseMachine m)
          (with_cacheDir (<[name := {| content := content f; modTime := env_now_touch env |}]>
                            (cacheDir w1)) w1)))).
  { unfold Start, cacheBaseMachineUntilHostIo. msimp. rewrite Hmk, Hrd. msimp.
    fold name before. rewrite Hs. cbn [fst snd].
    unfold try_cached, Chtimes, DeserializeAndReplaceState. msimp.
    rewrite Hch. msimp. rewrite Hf1. msimp. rewrite Hread. msimp. wfields.
    rewrite lookup_insert_eq. cbn [content]. rewrite Hde. msimp.
    f_equal. world_eq; try done. by rewrite <- !app_assoc. }
  unfold after. rewrite Hstart. cbn [fst snd]. vfields.
  split; [done|]. split; [by rewrite Hv1|]. split; [by rewrite lookup_insert_eq|].
  split; [|split].
  - intros n g Hne Hl. rewrite lookup_insert_ne in Hl by done. split.
    + by eapply lookup_weaken.
    + destruct (Hclean n g) as [?|?]; try done.
      apply ReadDir_names. exists g. by eapply lookup_weaken.
  - intros n g Hne Hl Hyoung. rewrite lookup_insert_ne by done. apply Hkeep; auto.
  - rewrite Hev1. eexists (evs1 ++ [_]). by rewrite <- !app_assoc.
Qed.


(** ** The loop goroutines and [WaitForBlock] *)

Lemma call_returns (m : M unit) w : (m w).1 = inr Return -> call m w = (inl tt, after m w).
Proof. unfold call, after. destruct (m w) as [[[]|[]] w']; simpl; by try done. Qed.

(** X26.  The two loop goroutines do nothing but call their operation, once for
    every wake-up they get and never after their channel is closed or their
    context has ended: what the validation loop has done after its wake-ups
    is that many calls of [sendValidations] one after the other, and the
    progress loop likewise with [ProgressValidated].  A loop ends, by
    [return], exactly when its [select] yields the closed channel or the end
    of the context. *)
Theorem loops_call_once_per_wakeup (selects : list LoopSelect) (w : World) :
  after (validationLoop selects) w = run_actions (replicate (woken selects) ActSendValidations) w
  /\ after (progressLoop selects) w
     = run_actions (replicate (woken selects) ActProgressValidated) w
  /\ (validationLoop selects w).1
     = (if (woken selects <? length selects)%nat then inr Return else inl tt)
  /\ (progressLoop selects w).1
     = (if (woken selects <? length selects)%nat then inr Return else inl tt).
Proof.
  revert w. induction selects as [|s selects IH]; intros w; [done|].
  destruct s; try done.
  destruct (IH (after sendValidations w)) as (IH1 & _ & IH3 & _).
  destruct (IH (after ProgressValidated w)) as (_ & IH2 & _ & IH4).
  cbn [validationLoop progressLoop woken replicate length]. unfold bind, after. cbv beta.
  rewrite (call_returns _ _ (sendValidations_returns w)).
  rewrite (call_returns _ _ (ProgressValidated_returns w)).
  change (S (woken selects) <? S (length selects))%nat
    with (woken selects <? length selects)%nat.
  repeat split; [exact IH1 | exact IH2 | exact IH3 | exact IH4].
Qed.

(** X27.  [WaitForBlock] answers by what it has seen.  It returns true only when a
    value it has read - [v.blocksValidated] at the head of a turn or after
    the timer fired, a value received on [progressChan], or the zero value
    of the closed channel - is at least the block number it waits for.  It
    returns false only in a turn in which the timer fired or the channel was
    closed, every turn before having received a value, and no value read up
    to then having reached the number.  It returns at the latest in the first
    turn in which the timer fires or the channel is closed.  And what it has
    seen being the same, it returns true for every smaller block number for
    which it returns true. *)
Theorem WaitForBlock_answers (blockNumber : Z) (turns : list (Z * WaitSelect)) :
  (WaitForBlock blockNumber turns = Some true ->
   exists turn x, turn ∈ turns /\ x ∈ observed turn /\ blockNumber <= x)
  /\ (WaitForBlock blockNumber turns = Some false ->
      exists before turn rest,
        turns = before ++ turn :: rest
        /\ final_turn turn = true
        /\ Forall (fun t => final_turn t = false) before
        /\ Forall (fun t => Forall (fun x => x < blockNumber) (observed t)) (before ++ [turn]))
  /\ (Exists (fun t => final_turn t = true) turns ->
      is_Some (WaitForBlock blockNumber turns))
  /\ (forall smaller, smaller <= blockNumber ->
        WaitForBlock blockNumber turns = Some true ->
        WaitForBlock smaller turns = Some true).
Proof.
  induction turns as [|[seen sel] turns (IH1 & IH2 & IH3 & IH4)].
  { repeat split; try done. intros Hex. by apply Exists_nil in Hex. }
  cbn [WaitForBlock].
  destruct (Z.geb_spec seen blockNumber) as [Hseen|Hseen].
  { split; [|split; [done|split]].
    - intros _. exists (seen, sel), seen. repeat split; [by left | by left | lia].
    - by eexists.
    - intros smaller Hle _. destruct (Z.geb_spec seen smaller); [done | lia]. }
  destruct sel as [now|block|].
  - destruct (Z.geb_spec now blockNumber) as [Hnow|Hnow].
    + split; [|split; [done|split]].
      * intros _. exists (seen, TimeoutFired now), now.
        repeat split; [by left | by right; left | lia].
      * by eexists.
      * intros smaller Hle _. destruct (Z.geb_spec seen smaller); [done|].
        destruct (Z.geb_spec now smaller); [done | lia].
    + split; [done|]. split; [|split; [by eexists | done]].
      intros _. exists [], (seen, TimeoutFired now), turns.
      split; [done|]. split; [done|]. split; [constructor|].
      simpl. repeat first [apply Forall_nil | apply Forall_cons; split]; simpl; lia.
  - destruct (Z.geb_spec block blockNumber) as [Hblock|Hblock].
    + split; [|split; [done|split]].
      * intros _. exists (seen, Received block), block.
        repeat split; [by left | by right; left | lia].
      * by eexists.
      * intros smaller Hle _. destruct (Z.geb_spec seen smaller); [done|].
        destruct (Z.geb_spec block smaller); [done | lia].
    + split; [|split; [|split]].
      * intros Ht. destruct (IH1 Ht) as (turn & x & Hin & Hx & Hle).
        exists turn, x. split; [by right | done].
      * intros Hf. destruct (IH2 Hf) as (before & turn & rest & -> & Hfinal & Hbefore & Hall).
        exists ((seen, Received block) :: before), turn, rest.
        split; [done|]. split; [done|]. split; [by constructor|].
        rewrite <- app_comm_cons. constructor; [|exact Hall].
        simpl. repeat first [apply Forall_nil | apply Forall_cons; split]; simpl; lia.
      * intros Hex. apply Exists_cons in Hex as [Hex|Hex]; [done | by apply IH3].
      * intros smaller Hle Ht. destruct (Z.geb_spec seen smaller); [done|].
        destruct (Z.geb_spec block smaller); [done | by apply IH4].
  - destruct (Z.geb_spec 0 blockNumber) as [Hzero|Hzero].
    + split; [|split; [done|split]].
      * intros _. exists (seen, ProgressChanClosed), 0.
        repeat split; [by left | by right; left | lia].
      * by eexists.
      * intros smaller Hle _. destruct (Z.geb_spec seen smaller); [done|].
        destruct (Z.geb_spec 0 smaller); [done | lia].
    + split; [done|]. split; [|split; [by eexists | done]].
      intros _. exists [], (seen, ProgressChanClosed), turns.
      split; [done|]. split; [done|]. split; [constructor|].
      simpl. repeat first [apply Forall_nil | apply Forall_cons; split]; simpl; lia.
Qed.


(** ** The paths of an artifact *)





(** ** Positions and block numbers in a run *)

Lemma consecutive_kept w w' : dispatch_kept w w' -> consecutive w -> consecutive w'.
Proof. intros [Hs Hd] [H1 H2]. unfold consecutive. by rewrite Hs, Hd. Qed.

Lemma sent_consecutive w t :
  tidy w -> dispatch_target w = Some t -> consecutive w -> consecutive (sent t w).
Proof.
  intros [Ht _] Htarget [Hds Hnext]. destruct t as [[[[p e] head] end_] idx].
  destruct (dispatch_target_head _ _ _ _ _ _ Ht Htarget) as (_ & -> & Hpos).
  apply dispatch_target_Some in Htarget as (_ & _ & Hhead & _).
  unfold consecutive. rewrite sent_dispatched. cbn [fst snd].
  rewrite length_app, Nat.add_1_r. cbn [length]. split.
  - rewrite List.seq_S, map_app. cbn [map Nat.add]. rewrite <- Hds. f_equal.
    by rewrite Hhead, Hnext.
  - unfold sent. vfields. rewrite Hpos, Hnext, wrap64_succ. f_equal. lia.
Qed.

Lemma sendValidations_loop_consecutive fuel w :
  tidy w -> consecutive w -> consecutive (sendValidations_loop fuel w).2.
Proof.
  revert w. induction fuel as [|fuel IH]; intros w Hw Hc; [done|].
  cbn [sendValidations_loop]. unfold bind.
  destruct (dispatch_target w) as [t|] eqn:Ht.
  - rewrite (sendValidations_turn_ready _ _ Ht).
    apply IH; [by apply sent_tidy | by apply sent_consecutive].
  - destruct (sendValidations_turn_stop _ Ht) as (evs & -> & Hq). cbn [snd].
    eapply consecutive_kept; [|exact Hc]. split; [done|]. wfields.
    by rewrite dispatched_app, (dispatched_quiet _ Hq), app_nil_r.
Qed.

Lemma run_action_consecutive a w :
  tidy w /\ consecutive w -> tidy (run_action a w) /\ consecutive (run_action a w).
Proof.
  intros [Hw Hc]. split; [by apply run_action_tidy|].
  pose proof (run_action_kept a w) as Hk. destruct a.
  - destruct Hk as [[_ Hd] _]. by eapply consecutive_kept.
  - destruct Hk as [[_ Hd] _]. by eapply consecutive_kept.
  - cbn [run_action]. unfold after, sendValidations. msimp.
    apply sendValidations_loop_consecutive.
    + eapply tidy_kept_tidy; [|exact Hw]. eapply tidy_kept_trans; apply tidy_v.
    + eapply consecutive_kept; [|exact Hc]. by split.
  - destruct Hk as [[_ Hd] _]. by eapply consecutive_kept.
  - destruct Hk as [Hd _]. by eapply consecutive_kept.
  - destruct Hk as [[_ Hd] _]. by eapply consecutive_kept.
Qed.

(** X9.  In every run of the process the tasks are started for the positions
    0, 1, 2, ... in this order, each position once and none left out (the
    positions are counted modulo 2^64), and [posNextSend] is the number of
    tasks started so far: a task is started for an entry only at the
    position [posNextSend], under which the entry is stored. *)
Theorem dispatched_positions_are_consecutive (cfg : BlockValidatorConfig)
    (actions : list Action) :
  let w := run_actions actions (boot cfg) in
  let ds := dispatched (events w) in
  ds = map (fun i => wrap64 (Z.of_nat i)) (List.seq 0 (length ds))
  /\ posNextSend (v w) = wrap64 (Z.of_nat (length ds))
  /\ (Z.of_nat (length ds) <= 2 ^ 64 -> ds = map Z.of_nat (List.seq 0 (length ds))).
Proof.
  cbv zeta.
  assert (Hinv : tidy (run_actions actions (boot cfg))
                 /\ consecutive (run_actions actions (boot cfg))).
  { apply (run_actions_invariant (fun w => tidy w /\ consecutive w)).
    - apply run_action_consecutive.
    - split; [apply boot_tidy|]. rewrite boot_eq. by split. }
  destruct Hinv as [_ [Hds Hnext]]. split; [exact Hds|]. split; [exact Hnext|].
  intros Hsmall. rewrite Hds at 1. apply map_ext_in. intros i Hi%in_seq.
  apply wrap64_small. lia.
Qed.

Lemma posNext_kept_refl w : posNext_kept w w.
Proof. reflexivity. Qed.

Lemma posNext_kept_trans a b c : posNext_kept a b -> posNext_kept b c -> posNext_kept a c.
Proof. unfold posNext_kept. congruence. Qed.

Ltac posNext_walk := keeps_walk posNext_kept_refl posNext_kept_trans ltac:(reflexivity).

Lemma posNext_kept_prepareBlock header prevHeader preimages pos :
  keeps posNext_kept (prepareBlock header prevHeader preimages pos).
Proof. unfold prepareBlock, PourToCache, store_entry. posNext_walk. Qed.

Lemma posNext_kept_ProcessBatches batches posData :
  keeps posNext_kept (ProcessBatches batches posData).
Proof. unfold ProcessBatches. posNext_walk. Qed.

Lemma posNext_kept_scan_cache env name before files found :
  keeps posNext_kept (scan_cache env name before files found).
Proof.
  revert found. induction files as [|file files IH]; intros found; simpl; posNext_walk.
Qed.

Lemma posNext_kept_Start env ctx : keeps posNext_kept (Start env ctx).
Proof.
  pose proof posNext_kept_scan_cache.
  unfold Start, cacheBaseMachineUntilHostIo, try_cached, recompute_and_save, Chtimes,
    DeserializeAndReplaceState, SerializeState, Rename.
  posNext_walk.
Qed.

Lemma posNext_kept_sendValidations_loop fuel w :
  posNext_kept w (sendValidations_loop fuel w).2.
Proof.
  revert w. induction fuel as [|fuel IH]; intros w; [done|].
  cbn [sendValidations_loop]. unfold bind.
  destruct (dispatch_target w) as [t|] eqn:Ht.
  - rewrite (sendValidations_turn_ready _ _ Ht).
    eapply posNext_kept_trans; [|apply IH]. by destruct t as [[[[p e] head] end_] idx].
  - by destruct (sendValidations_turn_stop _ Ht) as (evs & -> & _).
Qed.

Lemma ProgressValidated_loop_tracks fuel w :
  tidy w -> posNext (v w) = blocksValidated (v w) ->
  posNext (v (ProgressValidated_loop fuel w).2)
  = blocksValidated (v (ProgressValidated_loop fuel w).2).
Proof.
  revert w. induction fuel as [|fuel IH]; intros w Hw Heq; [done|].
  cbn [ProgressValidated_loop]. unfold bind.
  destruct (ready_entry w) as [e|] eqn:Hr.
  - rewrite (ProgressValidated_turn_ready _ _ Hr). apply IH.
    + eapply tidy_kept_tidy; [apply advanced_tidy_kept | exact Hw].
    + apply ready_entry_Some in Hr as (p & Hp & He & _ & Hnum).
      destruct (proj1 Hw _ _ Hp) as (e' & He' & Hpos).
      assert (e' = e) by congruence. subst e'.
      unfold advanced. vfields. by rewrite Hnum, Hpos, Heq.
  - by destruct (ProgressValidated_turn_stop _ Hr) as (evs & -> & _).
Qed.

Lemma run_action_tracks a w :
  tidy w /\ posNext (v w) = blocksValidated (v w) ->
  tidy (run_action a w) /\ posNext (v (run_action a w)) = blocksValidated (v (run_action a w)).
Proof.
  intros [Hw Heq]. split; [by apply run_action_tidy|].
  pose proof (run_action_kept a w) as Hk. destruct a; cbn [run_action] in *.
  - destruct Hk as [[[Hb _] _] _]. rewrite Hb, <- Heq.
    apply posNext_kept_prepareBlock.
  - destruct Hk as [[[Hb _] _] _]. rewrite Hb, <- Heq.
    apply posNext_kept_ProcessBatches.
  - destruct Hk as [[Hb _] _]. rewrite Hb, <- Heq.
    unfold after, sendValidations. msimp.
    set (w2 := with_v _ (with_v _ w)).
    change (posNext (v w)) with (posNext (v w2)).
    apply posNext_kept_sendValidations_loop.
  - destruct Hk as [[[Hb _] _] _]. rewrite Hb, <- Heq.
    destruct (task_kept_validate fuel ctx p start end_ w) as (_ & _ & Hv & _).
    apply (f_equal posNext) in Hv. exact Hv.
  - unfold after, ProgressValidated. msimp. by apply ProgressValidated_loop_tracks.
  - destruct Hk as [[[Hb _] _] _]. rewrite Hb, <- Heq.
    apply posNext_kept_Start.
Qed.

(** X22.  In every run of the process the position of the progress tracker is the
    counter of validated blocks: [posNext = blocksValidated], both the number
    of blocks validated so far (modulo 2^64).  The tracker takes the entry at
    [posNext] only with the block number [blocksValidated + 1], and goes on
    to the position after the entry's, which is stored under its own
    position: so it advances only over a block whose number is its position
    plus one. *)
Theorem posNext_is_blocksValidated (cfg : BlockValidatorConfig) (actions : list Action) :
  let w := run_actions actions (boot cfg) in
  posNext (v w) = BlocksValidated w
  /\ BlocksValidated w = wrap64 (Z.of_nat (length (published (events w))))
  /\ forall e, ready_entry w = Some e -> BlockNumber e = add64 (EntryPos e) 1.
Proof.
  cbv zeta.
  assert (Hinv : tidy (run_actions actions (boot cfg))
                 /\ posNext (v (run_actions actions (boot cfg)))
                    = blocksValidated (v (run_actions actions (boot cfg)))).
  { apply (run_actions_invariant (fun w => tidy w /\ posNext (v w) = blocksValidated (v w))).
    - apply run_action_tracks.
    - split; [apply boot_tidy|]. by rewrite boot_eq. }
  destruct Hinv as [[Ht _] Heq].
  assert (Hup : counts_up (run_actions actions (boot cfg))).
  { apply run_actions_invariant; [apply run_action_counts_up | apply boot_counts_up]. }
  unfold BlocksValidated. split; [exact Heq|]. split; [apply Hup|].
  intros e (p & Hp & He & _ & Hnum)%ready_entry_Some.
  destruct (Ht _ _ Hp) as (e' & He' & Hpos).
  assert (e' = e) by congruence. subst e'. by rewrite Hnum, Hpos, Heq.
Qed.


(** ** A block that is accepted *)

(** X4.  [prepareBlock] on a header whose parent hash is the hash of the previous
    header stores a fresh entry for the block under its position and wakes
    the dispatcher: a look-up of the position then yields the new entry -
    not valid, not running, with the header's number and hashes and the keys
    of the poured preimages - which replaces in the table the entry that was
    stored there, if any; it is marked as having a delayed message exactly
    when the nonce differs from the previous header's, and then the message
    to read is the previous nonce.  The entries of the other positions, the
    entries already on the heap and the registry of batches are as before. *)
Theorem prepareBlock_stores_entry (header prevHeader : Header)
    (preimages : list (Hash * list byte)) (pos : Z) (w : World) :
  ParentHash header = HeaderHash prevHeader ->
  let w' := after (prepareBlock header prevHeader preimages pos) w in
  let changed := negb (Nonce header =? Nonce prevHeader) in
  exists e,
    (prepareBlock header prevHeader preimages pos w).1 = inl tt
    /\ validationEntries (validatorStatic w') !! pos = Some (length (heap w))
    /\ heap w' = heap w ++ [e]
    /\ (BlockNumber e = Uint64 (Number header) /\ BlockHash e = HeaderHash header
        /\ PrevBlockHash e = ParentHash header /\ BlockHeader e = header
        /\ Preimages e = map fst preimages /\ EntryPos e = pos
        /\ Valid e = false /\ Running e = false /\ MsgsAllocated e = [])
    /\ HasDelayedMsg e = changed
    /\ (changed = true -> DelayedMsgNr e = Uint64 (Nonce prevHeader))
    /\ (forall k, k <> pos ->
          validationEntries (validatorStatic w') !! k = validationEntries (validatorStatic w) !! k)
    /\ sequencerBatches (validatorStatic w') = sequencerBatches (validatorStatic w)
    /\ events w' = events w ++ [EvSend sendValidationsChan].
Proof.
  intros Hparent. cbv zeta. unfold after, prepareBlock, PourToCache, store_entry. msimp.
  rewrite Hparent, Z.eqb_refl. cbn [negb].
  destruct (Nonce header =? Nonce prevHeader); cbn [negb]; msimp; cbn [fst snd]; vfields;
    eexists; (split; [reflexivity|]); (split; [by rewrite lookup_insert_eq|]);
    (split; [reflexivity|]); (split; [by repeat split|]); (split; [reflexivity|]);
    (split; [done|]); (split; [|done]);
    intros k Hk; by rewrite lookup_insert_ne.
Qed.


(** ** The machine loop *)

(** X17.  The loop that runs the machine of a task (lines 353-365) steps the
    machine only while it is running and leaves the state of the process
    alone.  The task goes on past the loop only with a machine that has
    halted; the task returns in the loop only when a step of a running
    machine was cut short by the context (cancelled or past its deadline);
    and it panics in the loop only when such a step failed otherwise, with
    the message [Failed to run machine: ] followed by the error, the failure
    being the last line logged.  A machine that is not running is not
    stepped at all. *)
Theorem run_machine_outcome fuel ctx (blockNr : Z) (mach : Mach) (steps : Z) (w : World) :
  let r := run_machine fuel ctx blockNr mach steps w in
  v r.2 = v w /\ validatorStatic r.2 = validatorStatic w /\ heap r.2 = heap w
  /\ (IsRunning mach = false -> r = (inl mach, w))
  /\ match r.1 with
     | inl mach' => IsRunning mach' = false
     | inr Return =>
         exists m er, IsRunning m = true /\ (Step m ctx count).2 = Some er /\
                      is_cancellation er = true
     | inr (Panic msg) =>
         exists m er, IsRunning m = true /\ (Step m ctx count).2 = Some er /\
                      is_cancellation er = false /\
                      msg = "Failed to run machine: " +:+ error_text er /\
                      last (events r.2)
                      = Some (EvLog LvlError "running machine failed"
                                [("err", VStr (error_text er))])
     | inr Goexit => False
     | inr OutOfFuel => True
     end.
Proof.
  cbv zeta. revert mach steps w. induction fuel as [|fuel IH]; intros mach steps w;
    cbn [run_machine].
  - destruct (IsRunning mach) eqn:Hrun; msimp; cbn [fst snd]; by repeat split.
  - destruct (IsRunning mach) eqn:Hrun; msimp; cbn [fst snd]; [|by repeat split].
    destruct (Step mach ctx count) as [mach' [er|]] eqn:Hstep.
    + destruct (is_cancellation er) eqn:Hcancel; cbn [negb]; msimp; cbn [fst snd].
      * repeat split; [done|]. exists mach, er. by rewrite Hstep.
      * repeat split; [done|]. exists mach, er. rewrite Hstep. wfields.
        repeat split; try done. by rewrite last_snoc.
    + msimp.
      match goal with
      | |- context [run_machine fuel ctx blockNr mach' ?s ?W] =>
          destruct (IH mach' s W) as (Hv & Hs & Hh & _ & Hout)
      end.
      split; [exact Hv|]. split; [exact Hs|]. split; [exact Hh|]. split; [done|].
      exact Hout.
Qed.


(** ** The accounts of the running tasks *)

Lemma succeeded_app a b : succeeded (a ++ b) = (succeeded a + succeeded b)%nat.
Proof. induction a as [|ev a IH]; [done|]. simpl. rewrite IH. lia. Qed.

Lemma to_int32_idemp a b : to_int32 (to_int32 a + b) = to_int32 (a + b).
Proof.
  unfold to_int32. f_equal.
  replace ((a + 2 ^ 31) mod 2 ^ 32 - 2 ^ 31 + b + 2 ^ 31)
    with ((a + 2 ^ 31) mod 2 ^ 32 + b) by lia.
  rewrite Zplus_mod_idemp_l. f_equal. lia.
Qed.

Lemma slots_kept_refl w : slots_kept w w.
Proof. by repeat split. Qed.

Lemma slots_kept_trans a b c : slots_kept a b -> slots_kept b c -> slots_kept a c.
Proof. intros (?&?&?) (?&?&?). repeat split; congruence. Qed.

Lemma slots_kept_event ev w :
  quiet ev = true -> is_success ev = false -> slots_kept w (with_event ev w).
Proof.
  intros Hq Hs. unfold slots_kept. wfields.
  rewrite dispatched_app, succeeded_app.
  rewrite (dispatched_quiet [ev]) by (simpl; by rewrite Hq).
  cbn [succeeded]. rewrite Hs, app_nil_r. repeat split; lia.
Qed.

Lemma slots_kept_add_events evs w :
  forallb quiet evs = true -> succeeded evs = 0%nat -> slots_kept w (add_events evs w).
Proof.
  intros Hq Hs. unfold slots_kept. wfields.
  rewrite dispatched_app, succeeded_app, (dispatched_quiet _ Hq), Hs, app_nil_r.
  repeat split; lia.
Qed.

Lemma slots_kept_eq w w' :
  atomicValidationsRunning (v w') = atomicValidationsRunning (v w) ->
  events w' = events w -> slots_kept w w'.
Proof. intros Hr He. unfold slots_kept. by rewrite Hr, He. Qed.

Ltac slots_update :=
  first [ apply slots_kept_event; reflexivity
        | apply slots_kept_eq; reflexivity ].

Ltac slots_walk := keeps_walk slots_kept_refl slots_kept_trans ltac:(slots_update).

Lemma slots_kept_prepareBlock header prevHeader preimages pos :
  keeps slots_kept (prepareBlock header prevHeader preimages pos).
Proof. unfold prepareBlock, PourToCache, store_entry. slots_walk. Qed.

Lemma slots_kept_ProcessBatches batches posData :
  keeps slots_kept (ProcessBatches batches posData).
Proof. unfold ProcessBatches. slots_walk. Qed.

Lemma slots_kept_scan_cache env name before files found :
  keeps slots_kept (scan_cache env name before files found).
Proof.
  revert found. induction files as [|file files IH]; intros found; simpl; slots_walk.
Qed.

Lemma slots_kept_Start env ctx : keeps slots_kept (Start env ctx).
Proof.
  pose proof slots_kept_scan_cache.
  unfold Start, cacheBaseMachineUntilHostIo, try_cached, recompute_and_save, Chtimes,
    DeserializeAndReplaceState, SerializeState, Rename.
  slots_walk.
Qed.

Lemma slots_kept_fs_seq ops : keeps slots_kept (fs_seq ops).
Proof. induction ops as [|op ops IH]; simpl; slots_walk. Qed.

Lemma slots_kept_writeToFile e start end_ cp sq dl :
  keeps slots_kept (writeToFile e start end_ cp sq dl).
Proof. unfold writeToFile. pose proof slots_kept_fs_seq. slots_walk. Qed.

Lemma slots_kept_run_machine fuel ctx n m s : keeps slots_kept (run_machine fuel ctx n m s).
Proof. revert m s. induction fuel as [|fuel IH]; intros m s; simpl; slots_walk. Qed.

Lemma slots_kept_validate_checks p start end_ : keeps slots_kept (validate_checks p start end_).
Proof. unfold validate_checks, PrepareMultByteArrays. slots_walk. Qed.

Lemma slots_kept_validate_to_halt fuel ctx p start end_ cp err :
  keeps slots_kept (validate_to_halt fuel ctx p start end_ cp err).
Proof. pose proof slots_kept_run_machine. unfold validate_to_halt. slots_walk. Qed.

Lemma slots_kept_write_artifact write e start end_ cp sq dl :
  keeps slots_kept (write_artifact write e start end_ cp sq dl).
Proof. pose proof slots_kept_writeToFile. unfold write_artifact. slots_walk. Qed.

Lemma succeeded_destroys (msgs : list delayedMsgInfo) :
  succeeded (map (fun m => EvDestroyCByteArray (data m)) msgs) = 0%nat.
Proof. induction msgs as [|m msgs IH]; [done|]. exact IH. Qed.

Lemma dispatched_destroys (msgs : list delayedMsgInfo) :
  dispatched (map (fun m => EvDestroyCByteArray (data m)) msgs) = [].
Proof. induction msgs as [|m msgs IH]; [done|]. exact IH. Qed.

Lemma write_artifact_eq e start end_ cp sq dl w :
  write_artifact true e start end_ cp sq dl w
  = (inl tt, add_events (artifact_trace (config (v w)) e start end_ cp sq dl) w).
Proof.
  unfold write_artifact, bind. rewrite writeToFile_eq. unfold artifact_trace.
  destruct (writeToFile_trace _ _ _ _ _ _ _) as [evs [er|]]; msimp; cbn [fst snd].
  - by rewrite with_event_add, add_events_add.
  - by rewrite app_nil_r.
Qed.

Lemma artifact_slots_kept e start end_ cp sq dl w :
  slots_kept w (add_events (artifact_trace (config (v w)) e start end_ cp sq dl) w).
Proof.
  pose proof (slots_kept_write_artifact true e start end_ cp sq dl w) as Hk.
  by rewrite write_artifact_eq in Hk.
Qed.

(** The accounts of a task: it starts no task, and it ends normally - with
    the counter of running tasks one lower and one more task counted as
    ended - or leaves the counter and the count as they were. *)
Lemma validate_accounts fuel ctx p start end_ w :
  dispatched (events (after (validate fuel ctx p start end_) w)) = dispatched (events w)
  /\ ((validate fuel ctx p start end_ w).1 = inl tt /\
      atomicValidationsRunning (v (after (validate fuel ctx p start end_) w))
      = add32 (atomicValidationsRunning (v w)) (-1) /\
      succeeded (events (after (validate fuel ctx p start end_) w))
      = S (succeeded (events w))
      \/
      (validate fuel ctx p start end_ w).1 <> inl tt /\
      atomicValidationsRunning (v (after (validate fuel ctx p start end_) w))
      = atomicValidationsRunning (v w) /\
      succeeded (events (after (validate fuel ctx p start end_) w)) = succeeded (events w)).
Proof.
  split; [apply (keeps_validate fuel ctx p start end_ w)|].
  unfold after. rewrite validate_unfold.
  pose proof (slots_kept_validate_checks p start end_ w) as Hc.
  destruct (validate_checks p start end_ w) as [[packed|x] w0]; cbn [fst snd] in *.
  2: { right. destruct Hc as (Hr & _ & Hs). by repeat split. }
  unfold defer.
  assert (Hfree : forall (r : unit + Exit) (W : World),
            slots_kept w0 W ->
            r <> inl tt ->
            (r, (emit (EvFree packed.1) W).2).1 <> inl tt /\
            atomicValidationsRunning (v (r, (emit (EvFree packed.1) W).2).2)
            = atomicValidationsRunning (v w) /\
            succeeded (events (r, (emit (EvFree packed.1) W).2).2) = succeeded (events w)).
  { intros r W HW Hr. msimp. cbn [fst snd]. wfields.
    destruct (slots_kept_trans _ _ _ Hc HW) as (H1 & _ & H3).
    rewrite succeeded_app, H3. simpl. repeat split; [done | done | lia]. }
  pose proof (slots_kept_validate_to_halt fuel ctx p start end_ packed.1 packed.2 w0) as Hh.
  destruct (validate_to_halt fuel ctx p start end_ packed.1 packed.2 w0)
    as [[[[sq dl] mach]|x] w1] eqn:Hhalt; cbn [fst snd] in Hh.
  2: { right. rewrite (bind_inr _ _ _ _ _ Hhalt). by apply Hfree. }
  rewrite (bind_inl _ _ _ _ _ Hhalt). cbn [fst snd].
  destruct (heap w1 !! p) as [e|] eqn:Hp.
  2: { right. unfold validate_finish, bind, deref. rewrite Hp. by apply Hfree. }
  destruct (resultValid (GetGlobalState mach) end_ e) eqn:Hv.
  - left. rewrite (validate_finish_valid _ _ _ _ _ _ _ _ _ Hp Hv). msimp. cbn [fst snd].
    destruct (slots_kept_trans _ _ _ Hc Hh) as (H1 & _ & H3).
    pose proof (slots_kept_write_artifact (writeThisBlock (config (v w1)) e true)
                  e start end_ packed.1 sq dl w1) as (_ & _ & Hart).
    assert (Hart' : succeeded (if writeThisBlock (config (v w1)) e true
                               then artifact_trace (config (v w1)) e start end_ packed.1 sq dl
                               else []) = 0%nat).
    { revert Hart. unfold write_artifact.
      destruct (writeThisBlock (config (v w1)) e true); [|done].
      unfold bind. rewrite writeToFile_eq. unfold artifact_trace.
      destruct (writeToFile_trace _ _ _ _ _ _ _) as [evs [er|]]; msimp; cbn [fst snd]; wfields;
        rewrite ?succeeded_app; simpl; lia. }
    split; [done|]. unfold released. vfields. split; [by rewrite H1|].
    rewrite !succeeded_app, Hart', succeeded_destroys, H3.
    destruct (foldl release_one _ _).2; simpl; lia.
  - right. rewrite (validate_finish_invalid _ _ _ _ _ _ _ _ _ Hp Hv).
    apply Hfree; [|done].
    eapply slots_kept_trans; [exact Hh|].
    rewrite <- add_events_add.
    eapply slots_kept_trans; [apply artifact_slots_kept|].
    by apply slots_kept_add_events.
Qed.


Lemma sendValidations_turn_stop_plain w :
  dispatch_target w = None ->
  exists evs, sendValidations_turn w = (inr Return, add_events evs w) /\
              forallb quiet evs = true /\ succeeded evs = 0%nat.
Proof.
  unfold dispatch_target, sendValidations_turn. msimp.
  destruct (atomicValidationsRunning (v w) >=? concurrentRunsLimit (v w));
    [intros _; exists []; by rewrite add_events_nil|].
  destruct (posToValidate (v w)) as [|head q] eqn:Hq;
    [intros _; exists []; by rewrite add_events_nil|].
  destruct (Pos head =? posNextSend (v w)); cbn [negb];
    [|intros _; exists []; by rewrite add_events_nil].
  destruct (validationEntries (validatorStatic w) !! posNextSend (v w)) as [p|];
    [|intros _; exists []; by rewrite add_events_nil].
  msimp. destruct (heap w !! p) as [e|];
    [|intros _; eexists; by rewrite with_event_add].
  change posToValidateList with (list PosInSequencer) in *.
  destruct ((head :: q) !! StupidSearchPos (head :: q) (EntryPos e)) as [end_|];
    [|intros _; exists []; by rewrite add_events_nil].
  destruct (Pos end_ =? EntryPos e); cbn [negb];
    [done|intros _; exists []; by rewrite add_events_nil].
Qed.

Lemma ProgressValidated_turn_stop_plain w :
  ready_entry w = None ->
  exists evs, ProgressValidated_turn w = (inr Return, add_events evs w) /\
              forallb quiet evs = true /\ succeeded evs = 0%nat.
Proof.
  unfold ready_entry, next_entry, ProgressValidated_turn. msimp.
  destruct (validationEntries (validatorStatic w) !! posNext (v w)) as [p|];
    [|intros _; exists []; by rewrite add_events_nil].
  destruct (heap w !! p) as [e'|];
    [|intros _; eexists; by rewrite with_event_add].
  destruct (Valid e') eqn:Hvalid;
    [|intros _; exists []; by rewrite add_events_nil].
  destruct (BlockNumber e' =? add64 (blocksValidated (v w)) 1) eqn:Hnum; [done|].
  intros _. cbn [negb]. msimp. rewrite Hnum. cbn [negb]. msimp.
  eexists. by rewrite with_event_add.
Qed.

Lemma evict_result_succeeded n batch m : succeeded (evict_result n batch m).2 = 0%nat.
Proof.
  revert batch m. induction n as [|n IH]; intros batch m; simpl; [done|].
  rewrite IH. by destruct (m !! batch).
Qed.

Lemma accounted_kept w w' : slots_kept w w' -> accounted w -> accounted w'.
Proof. intros (Hr & Hd & Hs) Ha. unfold accounted. by rewrite Hr, Hd, Hs. Qed.

Lemma sent_accounted t w : accounted w -> accounted (sent t w).
Proof.
  intros Ha. unfold accounted. rewrite sent_dispatched, length_app.
  destruct t as [[[[p e] head] end_] idx]. unfold sent. vfields.
  rewrite succeeded_app. cbn [succeeded is_success length].
  unfold add32. rewrite Ha, to_int32_idemp. f_equal. lia.
Qed.

Lemma sendValidations_loop_accounted fuel w :
  accounted w -> accounted (sendValidations_loop fuel w).2.
Proof.
  revert w. induction fuel as [|fuel IH]; intros w Ha; [done|].
  cbn [sendValidations_loop]. unfold bind.
  destruct (dispatch_target w) as [t|] eqn:Ht.
  - rewrite (sendValidations_turn_ready _ _ Ht). by apply IH, sent_accounted.
  - destruct (sendValidations_turn_stop_plain _ Ht) as (evs & -> & Hq & Hs). cbn [snd].
    eapply accounted_kept; [by apply slots_kept_add_events | exact Ha].
Qed.

Lemma ProgressValidated_loop_accounted fuel w :
  accounted w -> accounted (ProgressValidated_loop fuel w).2.
Proof.
  revert w. induction fuel as [|fuel IH]; intros w Ha; [done|].
  cbn [ProgressValidated_loop]. unfold bind.
  destruct (ready_entry w) as [e|] eqn:Hr.
  - rewrite (ProgressValidated_turn_ready _ _ Hr). apply IH.
    eapply accounted_kept; [|exact Ha]. unfold advanced, slots_kept. vfields.
    rewrite !dispatched_app, !succeeded_app,
      (dispatched_quiet _ (evict_result_quiet _ _ _)), evict_result_succeeded.
    simpl. rewrite app_nil_r. repeat split; lia.
  - destruct (ProgressValidated_turn_stop_plain _ Hr) as (evs & -> & Hq & Hs). cbn [snd].
    eapply accounted_kept; [by apply slots_kept_add_events | exact Ha].
Qed.

Lemma run_action_accounted a w : accounted w -> accounted (run_action a w).
Proof.
  intros Ha. destruct a; cbn [run_action].
  - eapply accounted_kept; [apply slots_kept_prepareBlock | exact Ha].
  - eapply accounted_kept; [apply slots_kept_ProcessBatches | exact Ha].
  - unfold after, sendValidations. msimp. apply sendValidations_loop_accounted. exact Ha.
  - destruct (validate_accounts fuel ctx p start end_ w) as [Hd [(_ & Hr & Hs)|(_ & Hr & Hs)]].
    + unfold accounted. rewrite Hr, Hd, Hs. unfold add32. rewrite Ha, to_int32_idemp.
      f_equal. lia.
    + unfold accounted. by rewrite Hr, Hd, Hs.
  - unfold after, ProgressValidated. msimp. by apply ProgressValidated_loop_accounted.
  - eapply accounted_kept; [apply slots_kept_Start | exact Ha].
Qed.

(** X12.  In every run of the process the counter of running tasks is the number
    of tasks started minus the number of tasks that ran to their end
    ([int32] arithmetic): [sendValidations] adds one for each task it starts
    and only a task that ends normally subtracts one.  A task that returns
    early, is cancelled, exits or panics stays counted as running. *)
Theorem running_counter_accounts (cfg : BlockValidatorConfig) (actions : list Action) :
  let w := run_actions actions (boot cfg) in
  let started := Z.of_nat (length (dispatched (events w))) in
  let ended := Z.of_nat (succeeded (events w)) in
  atomicValidationsRunning (v w) = to_int32 (started - ended)
  /\ (- 2 ^ 31 <= started - ended < 2 ^ 31 ->
      atomicValidationsRunning (v w) = started - ended).
Proof.
  cbv zeta.
  assert (Ha : accounted (run_actions actions (boot cfg))).
  { apply run_actions_invariant; [apply run_action_accounted|]. by rewrite boot_eq. }
  split; [exact Ha|]. intros Hrange. rewrite Ha. by apply to_int32_small.
Qed.


(** ** The start of the loops *)

Lemma started_loops_app a b : started_loops (a ++ b) = started_loops a ++ started_loops b.
Proof.
  induction a as [|ev a IH]; [done|].
  destruct ev; simpl; by rewrite ?IH.
Qed.

Lemma startup_kept_refl w : startup_kept w w.
Proof. unfold startup_kept. repeat split. by destruct (v w). Qed.

Lemma startup_kept_trans a b c : startup_kept a b -> startup_kept b c -> startup_kept a c.
Proof.
  unfold startup_kept. intros (?&?&Hab&?) (?&?&Hbc&?).
  repeat split; try congruence.
  destruct (v a), (v b), (v c); simpl in *.
  injection Hab as -> -> -> -> -> -> -> -> ->.
  injection Hbc as -> -> -> -> -> -> -> -> ->. reflexivity.
Qed.

Lemma startup_kept_event ev w :
  match ev with EvGo _ => false | _ => true end = true -> startup_kept w (with_event ev w).
Proof.
  intros Hev. unfold startup_kept. wfields. rewrite started_loops_app.
  repeat split; [by destruct (v w)|].
  destruct ev; try done; simpl; by rewrite app_nil_r.
Qed.

Lemma startup_kept_cacheDir d w : startup_kept w (with_cacheDir d w).
Proof. unfold startup_kept. wfields. repeat split. by destruct (v w). Qed.

Lemma startup_kept_baseMachine m w : startup_kept w (with_v (set_baseMachine m) w).
Proof. unfold startup_kept. wfields. repeat split. by destruct (v w). Qed.

Ltac startup_update :=
  first [ apply startup_kept_event; reflexivity
        | apply startup_kept_cacheDir
        | apply startup_kept_baseMachine ].

Ltac startup_walk := keeps_walk startup_kept_refl startup_kept_trans ltac:(startup_update).

Lemma startup_kept_scan_cache env name before files found :
  keeps startup_kept (scan_cache env name before files found).
Proof.
  revert found. induction files as [|file files IH]; intros found; simpl; startup_walk.
Qed.

Lemma startup_kept_cache env ctx : keeps startup_kept (cacheBaseMachineUntilHostIo env ctx).
Proof.
  pose proof startup_kept_scan_cache.
  unfold cacheBaseMachineUntilHostIo, try_cached, recompute_and_save, Chtimes,
    DeserializeAndReplaceState, SerializeState, Rename.
  startup_walk.
Qed.

Lemma falls_through_ret {A} (a : A) : falls_through (ret a).
Proof. intros w. by exists a. Qed.

Lemma falls_through_gets {A} (f : World -> A) : falls_through (gets f).
Proof. intros w. by eexists. Qed.

Lemma falls_through_modify (f : World -> World) : falls_through (modify f).
Proof. intros w. by exists tt. Qed.

Lemma falls_through_bind {A B} (m : M A) (k : A -> M B) :
  falls_through m -> (forall a, falls_through (k a)) -> falls_through (bind m k).
Proof.
  intros Hm Hk w. unfold bind. destruct (Hm w) as (a & Ha).
  destruct (m w) as [r w1]. cbn [fst] in Ha. subst r. apply Hk.
Qed.

(** Walks a body that has no early exit. *)
Ltac falls_walk :=
  repeat first
    [ assumption
    | match goal with Hk : _ |- falls_through _ => solve [apply Hk] end
    | apply falls_through_bind; [|intros ?]
    | apply falls_through_ret
    | apply falls_through_gets
    | apply falls_through_modify
    | progress unfold log_Info, log_Warn, log_Error, emit
    | match goal with
      | |- falls_through (if ?c then _ else _) => destruct c
      | |- falls_through (match ?x with _ => _ end) => destruct x
      end ].

Lemma falls_through_scan_cache env name before files found :
  falls_through (scan_cache env name before files found).
Proof.
  revert found. induction files as [|file files IH]; intros found; simpl; falls_walk.
Qed.

Lemma falls_through_cache env ctx : falls_through (cacheBaseMachineUntilHostIo env ctx).
Proof.
  pose proof falls_through_scan_cache.
  unfold cacheBaseMachineUntilHostIo, try_cached, recompute_and_save, Chtimes,
    DeserializeAndReplaceState, SerializeState, Rename.
  falls_walk.
Qed.

(** X25.  [Start] starts the two loops exactly when the base machine is ready: it
    returns what [cacheBaseMachineUntilHostIo] returns; when that is no error
    it has started the progress loop and then the validation loop, and when
    it is an error it has started no goroutine.  A failure to create or to
    list the cache directory is returned at once, with nothing done.  In any
    case [Start] leaves the table of entries, the registry of batches, the
    entries and - but for the base machine - the validator as they are. *)
Theorem Start_starts_loops_when_ready env ctx (w : World) :
  let r := Start env ctx w in
  r.1 = (cacheBaseMachineUntilHostIo env ctx w).1
  /\ (exists err, r.1 = inl err)
  /\ started_loops (events r.2)
     = started_loops (events w)
       ++ match r.1 with
          | inl None => ["startProgressLoop"; "startValidationLoop"]
          | _ => []
          end
  /\ (forall er, env_MkdirAll env = Some er -> r = (inl (Some er), w))
  /\ (forall er, env_MkdirAll env = None -> env_ReadDir env = Some er ->
        r = (inl (Some er), w))
  /\ validatorStatic r.2 = validatorStatic w /\ heap r.2 = heap w
  /\ set_baseMachine (baseMachine (v w)) (v r.2) = v w.
Proof.
  cbv zeta.
  destruct (falls_through_cache env ctx w) as (err & Herr).
  pose proof (startup_kept_cache env ctx w) as (Hs & Hh & Hv & Hl).
  unfold Start, bind.
  destruct (cacheBaseMachineUntilHostIo env ctx w) as [r1 w1] eqn:Hc. cbn [fst snd] in *.
  subst r1.
  assert (Hmk : forall er, env_MkdirAll env = Some er ->
                          ((inl err : option string + Exit), w1) = (inl (Some er), w)).
  { intros er Hmk. rewrite <- Hc. unfold cacheBaseMachineUntilHostIo. msimp. by rewrite Hmk. }
  assert (Hrd : forall er, env_MkdirAll env = None -> env_ReadDir env = Some er ->
                           ((inl err : option string + Exit), w1) = (inl (Some er), w)).
  { intros er Hmk' Hrd. rewrite <- Hc. unfold cacheBaseMachineUntilHostIo. msimp.
    by rewrite Hmk', Hrd. }
  destruct err as [er|]; msimp; cbn [fst snd]; wfields.
  - split; [done|]. split; [by eexists|]. split.
    { by rewrite app_nil_r. }
    split; [exact Hmk|]. split; [exact Hrd|]. done.
  - split; [done|]. split; [by eexists|]. split.
    { rewrite !started_loops_app, Hl. simpl. by rewrite <- app_assoc. }
    split; [intros er Hmk'; by specialize (Hmk er Hmk')|].
    split; [intros er Hmk' Hrd'; by specialize (Hrd er Hmk' Hrd')|]. done.
Qed.


(** ** A task without its batch *)

(** X16.  A task whose sequencer batch is not in the registry ends its goroutine
    by [runtime.Goexit] after logging the error, and repairs nothing: the
    entry is left marked as running, with [SeqMsgNr] set to the batch number,
    and the validator is as it was - the slot of the task is not given back.
    Only the packed preimage array is freed, by the deferred call. *)
Theorem validate_without_batch_exits fuel ctx p start end_ (w : World) (e : validationEntry) :
  heap w !! p = Some e ->
  initialized (validatorStatic w) = true ->
  EntryPos e = Pos end_ ->
  (pack (preimageCache (v w)) (Preimages e)).2 = None ->
  sequencerBatches (validatorStatic w) !! BatchNum start = None ->
  validate fuel ctx p start end_ w
  = (inr Goexit,
     add_events
       [EvLog LvlInfo "starting validation for block"
          [("blockNr", VNum (BlockNumber e)); ("start", VRec start); ("end", VRec end_)];
        EvLog LvlError "didn't find sequencer message"
          [("pos", VNum (Pos start)); ("msgNum", VNum (BatchNum start))];
        EvFree (pack (preimageCache (v w)) (Preimages e)).1]
       (with_heap (fun h => <[p := set_Running true (set_SeqMsgNr (BatchNum start) e)]> h) w)).
Proof.
  intros Hp Hinit Hpos Hpack Hbatch.
  assert (Hlt : (p < length (heap w))%nat) by (by eapply lookup_lt_Some).
  rewrite validate_unfold.
  assert (Hc : validate_checks p start end_ w
               = (inl (pack (preimageCache (v w)) (Preimages e)),
                  add_events [EvLog LvlInfo "starting validation for block"
                                [("blockNr", VNum (BlockNumber e)); ("start", VRec start);
                                 ("end", VRec end_)]] w)).
  { unfold validate_checks. rewrite (bind_inl _ _ _ _ _ (deref_Some _ _ _ Hp)).
    unfold PrepareMultByteArrays. msimp. wfields. rewrite Hinit. cbn [negb].
    rewrite Hpos, Z.eqb_refl. cbn [negb]. by rewrite with_event_add. }
  rewrite Hc. unfold defer.
  set (w0 := add_events _ w).
  assert (Hh : validate_to_halt fuel ctx p start end_
                 (pack (preimageCache (v w)) (Preimages e)).1
                 (pack (preimageCache (v w)) (Preimages e)).2 w0
               = (inr Goexit,
                  add_events [EvLog LvlError "didn't find sequencer message"
                                [("pos", VNum (Pos start)); ("msgNum", VNum (BatchNum start))]]
                    (with_heap
                       (fun h => <[p := set_Running true (set_SeqMsgNr (BatchNum start) e)]> h)
                       w0))).
  { assert (Hp0 : heap w0 !! p = Some e) by exact Hp.
    rewrite Hpack. unfold validate_to_halt.
    rewrite (bind_inl _ _ _ _ _ (update_entry_Some _ _ _ _ Hp0)).
    erewrite bind_inl
      by (apply update_entry_Some; wfields; apply list_lookup_insert_eq; exact Hlt).
    erewrite bind_inl
      by (apply deref_Some; wfields; rewrite list_insert_insert_eq;
          apply list_lookup_insert_eq; exact Hlt).
    msimp. wfields.
    change (validatorStatic w0) with (validatorStatic w). rewrite Hbatch. msimp. f_equal.
    world_eq; try done. by rewrite list_insert_insert_eq. }
  rewrite (bind_inr _ _ _ _ _ Hh). msimp. cbn [fst snd]. f_equal.
  subst w0. world_eq; try done. by rewrite <- !app_assoc.
Qed.

End Validator.

(** * The properties on the sample instance *)

#[local] Existing Instance Sample.machine.
#[local] Existing Instance Sample.cache.
#[local] Existing Instance Sample.reader.
#[local] Existing Instance Sample.fs.
#[local] Existing Instance Sample.runtime.
#[local] Existing Instance Sample.sorter.

(** The task of the one block, whose machine halts in the claimed state:
    the hypotheses of [validate_verdict] hold and the verdict is true. *)
Lemma validate_verdict_witness :
  (validate 5%nat false 0%nat (Sample.record 0 0 0) (Sample.record 0 0 0)
     (one_block_dispatched Sample.cfg 0)).1 = inl tt
  /\ Valid <$> heap (validate 5%nat false 0%nat (Sample.record 0 0 0) (Sample.record 0 0 0)
                       (one_block_dispatched Sample.cfg 0)).2 !! 0%nat = Some true.
Proof.
  edestruct (validate_verdict 5%nat false 0%nat (Sample.record 0 0 0) (Sample.record 0 0 0)
               (one_block_dispatched Sample.cfg 0)) as (e & He & Hv).
  - vm_compute. reflexivity.
  - vm_compute. reflexivity.
  - vm_compute in He. injection He as <-.
    cbv beta iota zeta delta [ParseGlobalState] in Hv. destruct Hv as [Hv1 Hv2].
    rewrite Hv1, Hv2. vm_compute. split; reflexivity.
Defined.



(** The start on a directory whose snapshot is damaged: the hypotheses of
    [Start_recomputes] hold, [Start] returns no error and the canonical file
    is the whole snapshot. *)
Lemma Start_recomputes_witness :
  (Start Sample.env_ok false (cache_world Sample.cfg Sample.damaged_dir)).1 = inl None
  /\ content <$> cacheDir (after (Start Sample.env_ok false)
                            (cache_world Sample.cfg Sample.damaged_dir)) !! Sample.snapshot_name
     = Some [Byte.x01].
Proof.
  edestruct (Start_recomputes Sample.env_ok false (cache_world Sample.cfg Sample.damaged_dir))
    as (Hm & Hr & Hdone & Hsafe).
  - reflexivity.
  - reflexivity.
  - vm_compute. reflexivity.
  - vm_compute. reflexivity.
  - rewrite Hr. split; [vm_compute; reflexivity|].
    destruct Hdone as [Hfile _]; [rewrite Hr; vm_compute; reflexivity|].
    change Sample.snapshot_name
      with (Hash_String (MachineHash (baseMachine (v (cache_world Sample.cfg Sample.damaged_dir))))
            +:+ ".bin").
    rewrite Hfile. reflexivity.
Defined.



(** C4, the claim as it stands fails: with [BlocksToRecord = [7; 1]] the
    valid block 1 is in the list, yet the loop stops at 7 and the block is not
    written: [writeThisBlock] is false and the task makes no call of the
    operating system. *)
Lemma writeThisBlock_misses_unsorted :
  let w := one_block_dispatched (Sample.recording [7; 1]) 0 in
  let e := newValidationEntry (Sample.header 1 5) false 0 [77] 0 in
  heap w !! 0%nat = Some e
  /\ (negb true || bool_decide (BlockNumber e ∈ BlocksToRecord (config (v w)))) = true
  /\ writeThisBlock (config (v w)) e true = false
  /\ (validate 5%nat false 0%nat (Sample.record 0 0 0) (Sample.record 0 0 0) w).1 = inl tt
  /\ no_fs_call (events (after (validate 5%nat false 0%nat (Sample.record 0 0 0)
                                  (Sample.record 0 0 0)) w)) = true.
Proof. vm_compute. repeat split; reflexivity. Qed.

(** C5, the code at the failing input: a block whose parent hash (5) is not
    the hash of the previous header (4) is dropped - no entry is stored at
    its position - but its preimage has been poured into the cache before the
    check, with a reference that no entry holds. *)
Lemma prepareBlock_wrong_parent_pours :
  let w := boot Sample.cfg in
  let w' := after (prepareBlock (Sample.header 1 5) (Sample.header 0 3) [(77, [Byte.x01])] 0) w in
  (prepareBlock (Sample.header 1 5) (Sample.header 0 3) [(77, [Byte.x01])] 0 w).1 = inr Return
  /\ validationEntries (validatorStatic w') !! 0 = None
  /\ heap w' = []
  /\ preimageCache (v w) !! 77 = None
  /\ preimageCache (v w') !! 77 = Some {| pre_bytes := [Byte.x01]; refcount := 1 |}.
Proof. vm_compute. repeat split; reflexivity. Qed.

(** C6, the code at the failing input: block 1 starts in batch 1; once it is
    validated the Progress Tracker evicts batch 0 while [batchNrValidated] is
    0, and leaves it at 0.  The field is read by the eviction loop and never
    written: it is 0 in every run of the process. *)
Lemma eviction_leaves_batchNrValidated :
  let w := after (validate 5%nat false 0%nat (Sample.record 0 1 0) (Sample.record 0 1 0))
             (one_block_dispatched Sample.cfg 1) in
  let w' := after ProgressValidated w in
  sequencerBatches (validatorStatic w) !! 0 = Some [Byte.x2a]
  /\ batchNrValidated (v w) = 0
  /\ BlocksValidated w' = 1
  /\ sequencerBatches (validatorStatic w') !! 0 = None
  /\ batchNrValidated (v w') = 0
  /\ forall actions, batchNrValidated (v (run_actions actions (boot Sample.cfg))) = 0.
Proof.
  cbv zeta. do 5 (split; [vm_compute; reflexivity|]).
  apply batchNrValidated_never_written.
Qed.


(** C8, the code at the failing input: the task of the one block, its step
    interrupted by the cancellation of the context, returns; the entry is not
    valid and a later [ProgressValidated] does not advance, but the reference
    to the preimage is still in the cache and [atomicValidationsRunning] is
    still 1.  The task that runs to its end releases both. *)
Lemma validate_cancelled_keeps_resources :
  let w := one_block_dispatched Sample.cfg 0 in
  let cancelled := after (validate 5%nat true 0%nat (Sample.record 0 0 0) (Sample.record 0 0 0)) w in
  let finished := after (validate 5%nat false 0%nat (Sample.record 0 0 0) (Sample.record 0 0 0)) w in
  (validate 5%nat true 0%nat (Sample.record 0 0 0) (Sample.record 0 0 0) w).1 = inr Return
  /\ Valid <$> heap cancelled !! 0%nat = Some false
  /\ BlocksValidated (after ProgressValidated cancelled) = 0
  /\ atomicValidationsRunning (v w) = 1
  /\ atomicValidationsRunning (v cancelled) = 1
  /\ refcount <$> preimageCache (v cancelled) !! 77 = Some 1
  /\ atomicValidationsRunning (v finished) = 0
  /\ preimageCache (v finished) !! 77 = None.
Proof. vm_compute. repeat split; reflexivity. Qed.

(** ** Instances of the further properties *)

(** The dispatcher on the one queued block, with no task running and a limit
    of 2: the hypotheses of [sendValidations_within_limit] hold. *)
Lemma sendValidations_within_limit_witness :
  let w := one_block_queued Sample.cfg 0 in
  atomicValidationsRunning (v w) = 0 /\ concurrentRunsLimit (v w) = 2
  /\ exists ds,
       dispatched (events (after sendValidations w)) = dispatched (events w) ++ ds
       /\ concurrentRunsLimit (v (after sendValidations w)) = concurrentRunsLimit (v w)
       /\ atomicValidationsRunning (v (after sendValidations w))
          = atomicValidationsRunning (v w) + Z.of_nat (length ds)
       /\ (ds <> [] ->
           atomicValidationsRunning (v (after sendValidations w)) <= concurrentRunsLimit (v w)).
Proof.
  cbv zeta. split; [reflexivity|]. split; [reflexivity|].
  apply (sendValidations_within_limit (one_block_queued Sample.cfg 0)); by vm_compute.
Defined.

(** The queue of the one block holds no record of position 2^64 - 1: the
    hypothesis of [sendValidations_keeps_later_records] holds. *)
Lemma sendValidations_keeps_later_records_witness :
  let w := one_block_queued Sample.cfg 0 in
  posToValidate (v w) = [Sample.record 0 0 0]
  /\ exists dropped,
       sort_Sort (posToValidate (v w)) = dropped ++ posToValidate (v (after sendValidations w))
       /\ Forall (fun r => Pos r < posNextSend (v (after sendValidations w))) dropped
       /\ Sorted pos_le (posToValidate (v (after sendValidations w)))
       /\ forall r, r ∈ posToValidate (v w) ->
            posNextSend (v (after sendValidations w)) <= Pos r ->
            r ∈ posToValidate (v (after sendValidations w)).
Proof.
  cbv zeta.
  assert (Hq : posToValidate (v (one_block_queued Sample.cfg 0)) = [Sample.record 0 0 0])
    by reflexivity.
  split; [exact Hq|].
  apply (sendValidations_keeps_later_records (one_block_queued Sample.cfg 0)).
  rewrite Hq. apply Forall_cons. split; [by vm_compute | by apply Forall_nil].
Defined.

(** The one queued block is at [posNextSend] with a free slot: the hypotheses
    of [sendValidations_dispatches_next] hold, and its task is started. *)
Lemma sendValidations_dispatches_next_witness :
  let w := one_block_queued Sample.cfg 0 in
  exists head evs ds,
    Pos head = posNextSend (v w)
    /\ head ∈ posToValidate (v w)
    /\ events (after sendValidations w) = events w ++ EvGoValidate 0%nat head head :: evs
    /\ dispatched (events (after sendValidations w))
       = dispatched (events w) ++ posNextSend (v w) :: ds.
Proof.
  cbv zeta.
  apply (sendValidations_dispatches_next (one_block_queued Sample.cfg 0) 0%nat
           (newValidationEntry (Sample.header 1 5) false 0 [77] 0) (Sample.record 0 0 0)).
  - by vm_compute.
  - reflexivity.
  - reflexivity.
  - reflexivity.
  - by left.
  - reflexivity.
Defined.

(** The task of the one block in the run that dispatches it: the hypothesis
    of [started_tasks_have_one_record] holds. *)
Lemma started_tasks_have_one_record_witness :
  let w := run_actions (one_block_actions 0) (boot Sample.cfg) in
  events w !! 4%nat = Some (EvGoValidate 0%nat (Sample.record 0 0 0) (Sample.record 0 0 0))
  /\ exists e, heap w !! 0%nat = Some e /\ EntryPos e = 0.
Proof.
  cbv zeta.
  assert (Hev : events (run_actions (one_block_actions 0) (boot Sample.cfg)) !! 4%nat
                = Some (EvGoValidate 0%nat (Sample.record 0 0 0) (Sample.record 0 0 0)))
    by reflexivity.
  split; [exact Hev|].
  destruct (started_tasks_have_one_record Sample.cfg (one_block_actions 0) 0%nat
              (Sample.record 0 0 0) (Sample.record 0 0 0)) as (_ & e & He & Hpos & _).
  - by eapply list_elem_of_lookup_2.
  - exists e. by split.
Defined.

(** Block 1, which starts in batch 1, once it is validated: the hypotheses of
    [ProgressValidated_turn_evicts] hold; the turn evicts batch 0, destroys
    its buffer and leaves batch 1. *)
Lemma ProgressValidated_turn_evicts_witness :
  let w := after (validate 5%nat false 0%nat (Sample.record 0 1 0) (Sample.record 0 1 0))
             (one_block_dispatched Sample.cfg 1) in
  let w' := (ProgressValidated_turn w).2 in
  sequencerBatches (validatorStatic w') !! 0 = None
  /\ sequencerBatches (validatorStatic w') !! 1 = Some [Byte.x2b]
  /\ destroyed (events w') = destroyed (events w) ++ [[Byte.x2a]].
Proof.
  cbv zeta.
  edestruct (ProgressValidated_turn_evicts
               (after (validate 5%nat false 0%nat (Sample.record 0 1 0) (Sample.record 0 1 0))
                  (one_block_dispatched Sample.cfg 1)) 0%nat) as [Hreg Hdes].
  - reflexivity.
  - vm_compute. reflexivity.
  - reflexivity.
  - reflexivity.
  - rewrite !Hreg, Hdes. split; [reflexivity|]. split; reflexivity.
Defined.

(** Two batches with different numbers, walked in either order: the
    hypotheses of [ProcessBatches_registers] hold. *)
Lemma ProcessBatches_registers_witness :
  let batches := [(0, [Byte.x2a]); (1, [Byte.x2b])] in
  let w := boot Sample.cfg in
  let w' := after (ProcessBatches batches [Sample.record 0 0 0]) w in
  after (ProcessBatches (reverse batches) [Sample.record 0 0 0]) w = w'
  /\ sequencerBatches (validatorStatic w') !! 1 = Some [Byte.x2b].
Proof.
  cbv zeta.
  destruct (ProcessBatches_registers [(0, [Byte.x2a]); (1, [Byte.x2b])]
              (reverse [(0, [Byte.x2a]); (1, [Byte.x2b])]) [Sample.record 0 0 0]
              (boot Sample.cfg)) as (Horder & Hin & _).
  - apply NoDup_cons. split; [|apply NoDup_singleton].
    intros Hin%list_elem_of_singleton. discriminate Hin.
  - apply reverse_Permutation.
  - split; [exact Horder|]. apply Hin. right. by left.
Defined.

(** A start on a directory that holds the whole snapshot, an old file and a
    recent one: the hypotheses of [Start_loads_snapshot] hold; the machine of
    the snapshot is loaded, the old file is removed and the recent one is
    kept. *)
Lemma Start_loads_snapshot_witness :
  let w := cache_world Sample.cfg Sample.good_dir in
  let w' := after (Start Sample.env_ok false) w in
  (Start Sample.env_ok false w).1 = inl None
  /\ Sample.chunks (baseMachine (v w')) = 1%nat
  /\ modTime <$> cacheDir w' !! Sample.snapshot_name = Some 200000000000001
  /\ cacheDir w' !! "0x01.bin" = None
  /\ is_Some (cacheDir w' !! "0x02.bin").
Proof.
  cbv zeta.
  edestruct (Start_loads_snapshot Sample.env_ok false (cache_world Sample.cfg Sample.good_dir))
    as (Hr & Hv & Hsnap & Hold & Hyoung & _).
  - reflexivity.
  - reflexivity.
  - intros n g _ _ _. reflexivity.
  - reflexivity.
  - reflexivity.
  - vm_compute. reflexivity.
  - vm_compute. reflexivity.
  - split; [exact Hr|]. split; [by rewrite Hv|].
    split; [exact (f_equal (fmap modTime) Hsnap)|]. split.
    + destruct (cacheDir (after (Start Sample.env_ok false)
                            (cache_world Sample.cfg Sample.good_dir)) !! "0x01.bin")
        as [g|] eqn:Hg; [|done].
      apply Hold in Hg as [Hg Hage]; [|discriminate].
      clear -Hg Hage. vm_compute in Hg. injection Hg as <-.
      vm_compute in Hage. exfalso. by apply Hage.
    + eexists. apply Hyoung; clear.
      * discriminate.
      * vm_compute. reflexivity.
      * vm_compute. intros Hgt. discriminate Hgt.
Defined.

(** Block 1 on the hash of block 0: the hypothesis of
    [prepareBlock_stores_entry] holds, and the entry is stored at position 0. *)
Lemma prepareBlock_stores_entry_witness :
  let w := boot Sample.cfg in
  let w' := after (prepareBlock (Sample.header 1 5) (Sample.header 0 4) [(77, [Byte.x01])] 0) w in
  validationEntries (validatorStatic w') !! 0 = Some 0%nat
  /\ exists e, heap w' = [e] /\ BlockNumber e = 1 /\ HasDelayedMsg e = false.
Proof.
  cbv zeta.
  destruct (prepareBlock_stores_entry (Sample.header 1 5) (Sample.header 0 4)
              [(77, [Byte.x01])] 0 (boot Sample.cfg) eq_refl)
    as (e & _ & Hl & Hh & (Hn & _) & Hd & _).
  split; [exact Hl|]. exists e. split; [exact Hh|]. split; [exact Hn | exact Hd].
Defined.

(** The task of the one block with a position record of batch 7, which is
    not registered: the hypotheses of [validate_without_batch_exits] hold;
    the task exits and the counter of running tasks is still 1. *)
Lemma validate_without_batch_exits_witness :
  let w := one_block_dispatched Sample.cfg 0 in
  let r := validate 5%nat false 0%nat (Sample.record 0 7 0) (Sample.record 0 7 0) w in
  r.1 = inr Goexit
  /\ Running <$> heap r.2 !! 0%nat = Some true
  /\ atomicValidationsRunning (v r.2) = 1.
Proof.
  cbv zeta.
  rewrite (validate_without_batch_exits 5%nat false 0%nat (Sample.record 0 7 0)
             (Sample.record 0 7 0) (one_block_dispatched Sample.cfg 0)
             (newValidationEntry (Sample.header 1 5) false 0 [77] 0));
    [|vm_compute; reflexivity..].
  split; [reflexivity|]. split; vm_compute; reflexivity.
Defined.
